(** * latex_clean: a verified model of the LaTeX project cleaner

    This development embeds the text-processing core of [latex_clean.py]
    in Rocq and proves properties of it.  The embedding follows the Python
    source function by function and keeps its names:

    - [_find_balanced_braces], the balanced-delimiter scanner;
    - [merge_tex_files] with its comment stripping and inclusion
      replacement, over an explicit model of the file system and of
      [pathlib] paths;
    - [_extract_packages], [_extract_definitions] and
      [process_preamble_and_definitions];
    - [clean_tex_content] and its protected-block splitter;
    - [reindent_tex_content];
    - [clean_bib_file];
    - [find_project_root], and of [main] the text steps, the choice of
      the output directory and the bibliography step.

    A Python [str] is a [list ascii]: a sequence of code points, here the
    code points U+0000 to U+00FF, classified ([str.isspace], the [\s],
    [\w] and [\b] of the [re] module) as Python classifies them.  Python
    integers are [Z] where the source computes with them and [nat] where
    they are offsets into a text.  The regular expressions of the source
    are values of the type [regex] below and are run by a backtracking
    matcher [exec] that tries alternatives in the order the [re] module
    tries them, so that the match found, not only its existence, is the
    one Python finds. *)

From Stdlib Require Import Ascii String List ZArith NArith Lia Bool Arith.
From Stdlib Require Import Sorted Permutation.
Import ListNotations.

(** * Part I.  The embedding *)

(** ** Characters and texts *)

Definition text := list ascii.

(** [str "..."] is the text of a string literal. *)
Definition str (s : string) : text := list_ascii_of_string s.

Definition nl : ascii := "010"%char.
Definition backslash : ascii := "\"%char.
Definition percent : ascii := "%"%char.
Definition lbrace : ascii := "{"%char.
Definition rbrace : ascii := "}"%char.

Definition code (c : ascii) : N := N_of_ascii c.

Definition between (lo hi : N) (c : ascii) : bool :=
  (N.leb lo (code c) && N.leb (code c) hi)%bool.

(** [str.isspace] and the class [\s] of [re] on a code point: the ASCII
    blanks TAB, LF, VT, FF, CR, the separators FS, GS, RS, US, the space,
    NEL (U+0085) and the no-break space (U+00A0). *)
Definition isspace (c : ascii) : bool :=
  (between 9 13 c || between 28 32 c || N.eqb (code c) 133
   || N.eqb (code c) 160)%bool.

(** The class [\w] of [re] on a [str] pattern: [str.isalnum] or the
    underscore.  Above U+007F these are the letters, superscript digits
    and vulgar fractions of Latin-1. *)
Definition isword (c : ascii) : bool :=
  (between 48 57 c || between 65 90 c || between 97 122 c
   || N.eqb (code c) 95
   || N.eqb (code c) 170 || between 178 179 c || N.eqb (code c) 181
   || between 185 186 c || between 188 190 c
   || between 192 214 c || between 216 246 c || between 248 255 c)%bool.

Definition text_eq_dec : forall a b : text, {a = b} + {a <> b} :=
  list_eq_dec ascii_dec.

Definition text_eqb (a b : text) : bool :=
  if text_eq_dec a b then true else false.

(** [s.startswith(p)]. *)
Fixpoint startswith (s p : text) : bool :=
  match p, s with
  | [], _ => true
  | _ :: _, [] => false
  | a :: p', b :: s' => (Ascii.eqb a b && startswith s' p')%bool
  end.

(** [s.endswith(p)]. *)
Definition endswith (s p : text) : bool := startswith (rev s) (rev p).

(** [p in s] for two strings: [p] occurs in [s] as a contiguous block. *)
Fixpoint contains (s p : text) : bool :=
  (startswith s p ||
   match s with
   | [] => false
   | _ :: s' => contains s' p
   end)%bool.

(** [s.lstrip()], [s.rstrip()] and [s.strip()]. *)
Fixpoint lstrip (s : text) : text :=
  match s with
  | c :: s' => if isspace c then lstrip s' else s
  | [] => []
  end.

Definition rstrip (s : text) : text := rev (lstrip (rev s)).

Definition strip (s : text) : text := rstrip (lstrip s).

(** [s.split(sep)] for a one-character separator: the pieces between the
    separators, in order; there is always at least one piece. *)
Fixpoint split_on (sep : ascii) (s : text) : list text :=
  match s with
  | [] => [[]]
  | c :: s' =>
      if Ascii.eqb c sep then [] :: split_on sep s'
      else match split_on sep s' with
           | [] => [[c]]
           | p :: ps => (c :: p) :: ps
           end
  end.

(** [sep.join(parts)]. *)
Fixpoint join (sep : text) (parts : list text) : text :=
  match parts with
  | [] => []
  | [p] => p
  | p :: ps => p ++ sep ++ join sep ps
  end.

(** [s * n] for a string [s] and an integer [n]: empty when [n <= 0]. *)
Definition repeat_text (s : text) (n : Z) : text :=
  concat (repeat s (Z.to_nat n)).

(** [s[a:b]] for offsets [0 <= a], [0 <= b]: Python clamps both to the
    length and yields the empty string when [b <= a]. *)
Definition slice (s : text) (a b : nat) : text := firstn (b - a) (skipn a s).

(** The order of Python strings: lexicographic on code points. *)
Fixpoint text_leb (a b : text) : bool :=
  match a, b with
  | [], _ => true
  | _ :: _, [] => false
  | x :: a', y :: b' =>
      if N.ltb (code x) (code y) then true
      else if N.ltb (code y) (code x) then false
      else text_leb a' b'
  end.

(** [sorted(xs, key=key)]: a stable sort, here by insertion from the
    right, which keeps elements with equal keys in their original order. *)
Fixpoint insert_by {A : Type} (leb : A -> A -> bool) (x : A) (l : list A)
  : list A :=
  match l with
  | [] => [x]
  | y :: l' => if leb x y then x :: l else y :: insert_by leb x l'
  end.

Definition sorted_by {A : Type} (leb : A -> A -> bool) (l : list A) : list A :=
  fold_right (insert_by leb) [] l.

(** ** The balanced-delimiter scanner *)

(** The loop of [_find_balanced_braces]: [rest] is [text[i:]] and
    [brace_level] the level reached before offset [i]. *)
Fixpoint scan_braces (rest : text) (i : nat) (brace_level : Z) : Z :=
  match rest with
  | [] => -1
  | char :: rest' =>
      let brace_level :=
        if Ascii.eqb char lbrace then brace_level + 1
        else if Ascii.eqb char rbrace then brace_level - 1
        else brace_level in
      if brace_level =? 0 then Z.of_nat i
      else scan_braces rest' (S i) brace_level
  end%Z.

(** [_find_balanced_braces(text, start_index)], for an offset
    [start_index >= 0]: the offset of the matching right brace, or [-1]. *)
Definition _find_balanced_braces (t : text) (start_index : nat) : Z :=
  match nth_error t start_index with
  | Some c =>
      if Ascii.eqb c lbrace
      then scan_braces (skipn (S start_index) t) (S start_index) 1
      else (-1)%Z
  | None => (-1)%Z
  end.

(** ** Regular expressions of the [re] module *)

(** The fragment of [re] syntax the program uses.  [Alt a b] is [a|b] and
    tries [a] first; [Star a] is the greedy [a*] and [Lazy a] the
    non-greedy [a*?]; [Group n a] is the [n]-th capturing group. *)
Inductive regex : Type :=
| Eps : regex
| Cls (p : ascii -> bool) : regex
| Seq (a b : regex) : regex
| Alt (a b : regex) : regex
| Star (a : regex) : regex
| Lazy (a : regex) : regex
| Group (n : nat) (a : regex) : regex
| NotAfter (p : ascii -> bool) : regex
| NotBefore (p : ascii -> bool) : regex
| WordBoundary : regex
| EndOfText : regex.

(** A position in the subject: the character before it, if any, and the
    text from it on. *)
Record cursor : Type := Cursor { before : option ascii; rest : text }.

(** Captures: group number, then the lengths of the text that remained
    when the group was entered and when it was left. *)
Definition caps := list (nat * (nat * nat)).

Definition is_word_opt (c : option ascii) : bool :=
  match c with
  | Some a => isword a
  | None => false
  end.

(** [\b]: exactly one of the characters around the position is a word
    character. *)
Definition at_word_boundary (cur : cursor) : bool :=
  xorb (is_word_opt (before cur)) (is_word_opt (hd_error (rest cur))).

(** [$] without [re.MULTILINE]: the end of the text, or just before a
    newline that ends the text. *)
Definition at_end_of_text (cur : cursor) : bool :=
  match rest cur with
  | [] => true
  | [c] => Ascii.eqb c nl
  | _ => false
  end.

Definition holds_opt (p : ascii -> bool) (c : option ascii) : bool :=
  match c with
  | Some a => p a
  | None => false
  end.

(** A repetition of [body], greedy or not, followed by [k]: an iteration
    that consumes nothing is given up, so [fuel], the number of characters
    that remain, bounds the iterations. *)
Fixpoint star_loop {R : Type}
  (body : cursor -> caps -> (cursor -> caps -> option R) -> option R)
  (greedy : bool) (k : cursor -> caps -> option R)
  (fuel : nat) (cur : cursor) (c : caps) {struct fuel} : option R :=
  match fuel with
  | 0 => k cur c
  | S fuel' =>
      if greedy then
        match
          body cur c
            (fun cur' c' =>
               if length (rest cur') <? length (rest cur)
               then star_loop body greedy k fuel' cur' c' else None)
        with
        | Some x => Some x
        | None => k cur c
        end
      else
        match k cur c with
        | Some x => Some x
        | None =>
            body cur c
              (fun cur' c' =>
                 if length (rest cur') <? length (rest cur)
                 then star_loop body greedy k fuel' cur' c' else None)
        end
  end.

(** The backtracking matcher, in continuation-passing style: [exec r cur
    c k] matches [r] at [cur] in every way [re] would try, in the order
    [re] tries them, and returns the first result the continuation [k]
    accepts. *)
Fixpoint exec {R : Type} (r : regex) (cur : cursor) (c : caps)
  (k : cursor -> caps -> option R) {struct r} : option R :=
  match r with
  | Eps => k cur c
  | Cls p =>
      match rest cur with
      | a :: t => if p a then k (Cursor (Some a) t) c else None
      | [] => None
      end
  | Seq a b => exec a cur c (fun cur' c' => exec b cur' c' k)
  | Alt a b =>
      match exec a cur c k with
      | Some x => Some x
      | None => exec b cur c k
      end
  | Star a => star_loop (exec a) true k (length (rest cur)) cur c
  | Lazy a => star_loop (exec a) false k (length (rest cur)) cur c
  | Group n a =>
      exec a cur c
        (fun cur' c' =>
           k cur' ((n, (length (rest cur), length (rest cur'))) :: c'))
  | NotAfter p => if holds_opt p (before cur) then None else k cur c
  | NotBefore p =>
      if holds_opt p (hd_error (rest cur)) then None else k cur c
  | WordBoundary => if at_word_boundary cur then k cur c else None
  | EndOfText => if at_end_of_text cur then k cur c else None
  end.

(** One match attempt at a position: the number of characters consumed
    and the captures. *)
Definition exec_at (r : regex) (prev : option ascii) (t : text)
  : option (nat * caps) :=
  exec r (Cursor prev t) []
    (fun cur c => Some (length t - length (rest cur), c)).

(** A match object: [m.start()], [m.end()], [m.group(0)] and the spans of
    its groups as offsets into the subject. *)
Record rmatch : Type := Match {
  m_start : nat;
  m_end : nat;
  m_text : text;
  m_spans : list (nat * (nat * nat))
}.

(** The span of group [n]: the capture made last. *)
Fixpoint span_of (n : nat) (spans : list (nat * (nat * nat)))
  : option (nat * nat) :=
  match spans with
  | [] => None
  | (g, se) :: spans' => if g =? n then Some se else span_of n spans'
  end.

(** [m.group(n)] as a text of the subject [t], empty when the group did
    not take part in the match. *)
Definition group (t : text) (m : rmatch) (n : nat) : text :=
  match span_of n (m_spans m) with
  | Some (s, e) => slice t s e
  | None => []
  end.

(** [m.start(n)]; Python gives [-1] for a group that did not take part,
    here [None]. *)
Definition group_start (m : rmatch) (n : nat) : option nat :=
  option_map fst (span_of n (m_spans m)).

(** What scanning a subject yields: the characters no match covers, and
    the matches, in order. *)
Inductive token : Type :=
| Lit (a : ascii) : token
| Hit (m : rmatch) : token.

Definition make_match (total : nat) (t : text) (n : nat) (c : caps)
  : rmatch :=
  Match (total - length t) (total - length t + n) (firstn n t)
    (map (fun g => (fst g, (total - fst (snd g), total - snd (snd g)))) c).

(** The scan all of [finditer], [findall], [sub] and [split] make: try a
    match at each offset from left to right; after a match, resume where
    it ended.  [t] is what remains of a subject of length [total], [prev]
    the character before [t], and [skip] counts the characters of [t]
    that the previous match still covers.  (After an empty match [re]
    retries the same offset for a non-empty one; no pattern of this
    program matches the empty string.) *)
Fixpoint scan (r : regex) (total : nat) (prev : option ascii) (t : text)
  (skip : nat) {struct t} : list token :=
  match t with
  | [] =>
      match skip with
      | 0 =>
          match exec_at r prev [] with
          | Some (n, c) => [Hit (make_match total [] n c)]
          | None => []
          end
      | S _ => []
      end
  | a :: t' =>
      match skip with
      | S skip' => scan r total (Some a) t' skip'
      | 0 =>
          match exec_at r prev t with
          | Some (0, c) =>
              Hit (make_match total t 0 c) :: Lit a
                :: scan r total (Some a) t' 0
          | Some (S n, c) =>
              Hit (make_match total t (S n) c)
                :: scan r total (Some a) t' n
          | None => Lit a :: scan r total (Some a) t' 0
          end
      end
  end.

Definition tokens (r : regex) (t : text) : list token :=
  scan r (length t) None t 0.

(** [r.finditer(t)]. *)
Definition finditer (r : regex) (t : text) : list rmatch :=
  flat_map (fun tok => match tok with Hit m => [m] | Lit _ => [] end)
    (tokens r t).

(** [r.search(t)]: the leftmost match. *)
Definition search (r : regex) (t : text) : option rmatch :=
  hd_error (finditer r t).

(** [r.match(t)]: a match at offset 0. *)
Definition match_start (r : regex) (t : text) : option rmatch :=
  match exec_at r None t with
  | Some (n, c) => Some (make_match (length t) t n c)
  | None => None
  end.

(** [len(r.findall(t))]. *)
Definition count_matches (r : regex) (t : text) : nat :=
  length (finditer r t).

(** [r.sub(repl, t)] for a function [repl] of the match. *)
Definition sub_with (r : regex) (repl : rmatch -> text) (t : text) : text :=
  flat_map (fun tok => match tok with Hit m => repl m | Lit a => [a] end)
    (tokens r t).

(** [r.sub(s, t)] for a replacement string [s] without group
    references. *)
Definition sub (r : regex) (s : text) (t : text) : text :=
  sub_with r (fun _ => s) t.

(** [r.split(t)] for a pattern whose one capturing group is the whole
    match: the texts between the matches, with each matched text
    between them; the matched texts are the elements of odd index. *)
Fixpoint split_tokens (toks : list token) (acc : text) : list text :=
  match toks with
  | [] => [rev acc]
  | Lit a :: toks' => split_tokens toks' (a :: acc)
  | Hit m :: toks' => rev acc :: m_text m :: split_tokens toks' []
  end.

Definition split (r : regex) (t : text) : list text :=
  split_tokens (tokens r t) [].

(** *** Pattern syntax *)

Definition chr (a : ascii) : regex := Cls (Ascii.eqb a).

(** A literal string. *)
Fixpoint lit_text (s : text) : regex :=
  match s with
  | [] => Eps
  | [a] => chr a
  | a :: s' => Seq (chr a) (lit_text s')
  end.

Definition lit (s : string) : regex := lit_text (str s).

(** [.] without [re.DOTALL], and with it. *)
Definition dot : regex := Cls (fun a => negb (Ascii.eqb a nl)).
Definition dot_all : regex := Cls (fun _ => true).

(** [\s] and [\w]. *)
Definition ws : regex := Cls isspace.
Definition word : regex := Cls isword.

(** [[^c]]. *)
Definition not_chr (a : ascii) : regex := Cls (fun b => negb (Ascii.eqb a b)).

(** [a?], [a+], [a+?], [a{0,2}]. *)
Definition opt (a : regex) : regex := Alt a Eps.
Definition plus (a : regex) : regex := Seq a (Star a).
Definition lazy_plus (a : regex) : regex := Seq a (Lazy a).
Definition upto2 (a : regex) : regex := opt (Seq a (opt a)).

(** A sequence of patterns. *)
Fixpoint seq (rs : list regex) : regex :=
  match rs with
  | [] => Eps
  | [r] => r
  | r :: rs' => Seq r (seq rs')
  end.

(** An alternation [r1|r2|...] of at least one pattern. *)
Fixpoint alt (rs : list regex) : regex :=
  match rs with
  | [] => Eps
  | [r] => r
  | r :: rs' => Alt r (alt rs')
  end.

(** Characters under [re.IGNORECASE]: an ASCII letter matches both of its
    cases. *)
Definition lower (a : ascii) : ascii :=
  if between 65 90 a then ascii_of_N (code a + 32) else a.

Definition chr_i (a : ascii) : regex :=
  Cls (fun b => Ascii.eqb (lower a) (lower b)).

Fixpoint lit_text_i (s : text) : regex :=
  match s with
  | [] => Eps
  | [a] => chr_i a
  | a :: s' => Seq (chr_i a) (lit_text_i s')
  end.

Definition lit_i (s : string) : regex := lit_text_i (str s).

(** ** Outcomes of effectful code *)

(** A call returns a value, or ends in an exception nothing catches, or
    nests more calls than the interpreter's recursion limit allows. *)
Inductive outcome (A : Type) : Type :=
| Ok (a : A) : outcome A
| Raised (e : text) : outcome A
| RecursionError : outcome A.

Arguments Ok {A} a.
Arguments Raised {A} e.
Arguments RecursionError {A}.

Definition bind {A B : Type} (x : outcome A) (f : A -> outcome B)
  : outcome B :=
  match x with
  | Ok a => f a
  | Raised e => Raised e
  | RecursionError => RecursionError
  end.

Notation "x <- e ;; k" := (bind e (fun x => k))
  (at level 61, e at next level, right associativity).

(** [r.sub(repl, t)] for a callback [repl] that reads and updates a state
    and may fail, applied to the matches from left to right. *)
Fixpoint sub_state {S : Type} (repl : rmatch -> S -> outcome (text * S))
  (toks : list token) (st : S) : outcome (text * S) :=
  match toks with
  | [] => Ok ([], st)
  | Lit a :: toks' =>
      r <- sub_state repl toks' st ;;
      Ok (a :: fst r, snd r)
  | Hit m :: toks' =>
      r1 <- repl m st ;;
      r2 <- sub_state repl toks' (snd r1) ;;
      Ok (fst r1 ++ fst r2, snd r2)
  end.

(** ** Paths and the file system *)

(** A [pathlib.Path] that is absolute: its components below the root.
    [pathlib] drops empty and ["."] components when it builds a path and
    keeps [".."] components; two paths are equal when their components
    are. *)
Definition path := list text.

Definition path_eq_dec : forall p q : path, {p = q} + {p <> q} :=
  list_eq_dec text_eq_dec.

(** [p in processed_files]. *)
Definition path_mem (p : path) (ps : list path) : bool :=
  if in_dec path_eq_dec p ps then true else false.

(** The components a string contributes to a path. *)
Definition path_parts (s : text) : list text :=
  filter (fun c => negb (text_eqb c [] || text_eqb c (str ".")))
    (split_on "/" s).

(** [p / s]: an absolute [s] replaces [p]. *)
Definition path_join (p : path) (s : text) : path :=
  if startswith s (str "/") then path_parts s else p ++ path_parts s.

(** [p.parent] and [p.name]. *)
Definition path_parent (p : path) : path := removelast p.
Definition path_name (p : path) : text := last p [].

(** [str(p)]. *)
Definition path_str (p : path) : text :=
  match p with
  | [] => str "/"
  | _ => flat_map (fun c => "/"%char :: c) p
  end.

(** [p.relative_to(q)] succeeds when the components of [q] begin those
    of [p]; it raises [ValueError] otherwise. *)
Fixpoint is_relative_to (p q : path) {struct q} : bool :=
  match q, p with
  | [], _ => true
  | _ :: _, [] => false
  | b :: q', a :: p' => (text_eqb a b && is_relative_to p' q')%bool
  end.

(** A file system without links: a file whose text [read()] returns
    decoded and with its line ends translated, a file that cannot be read
    (the exception's message), or a directory. *)
#[warnings="-register-all"]
Inductive node : Type :=
| File (content : text) : node
| Unreadable (error : text) : node
| Dir (entries : list (text * node)) : node.

Fixpoint lookup_entry (name : text) (entries : list (text * node))
  : option node :=
  match entries with
  | [] => None
  | (n, x) :: entries' =>
      if text_eqb n name then Some x else lookup_entry name entries'
  end.

(** Resolution of the components [p] from the directory [cur], whose
    ancestors are [up], nearest first: [".."] goes to the parent (the
    root is its own parent), a name goes into a directory. *)
Fixpoint walk (up : list node) (cur : node) (p : path) : option node :=
  match p with
  | [] => Some cur
  | comp :: p' =>
      match cur with
      | Dir entries =>
          if text_eqb comp (str "..") then
            match up with
            | [] => walk [] cur p'
            | parent :: up' => walk up' parent p'
            end
          else
            match lookup_entry comp entries with
            | Some x => walk (cur :: up) x p'
            | None => None
            end
      | _ => None
      end
  end.

Definition resolve (fs : node) (p : path) : option node := walk [] fs p.

(** [p.exists()]. *)
Definition path_exists (fs : node) (p : path) : bool :=
  match resolve fs p with
  | Some _ => true
  | None => false
  end.

(** What [open(p).read()] does. *)
Inductive read_result : Type :=
| Content (content : text) : read_result
| FileNotFoundError : read_result
| OtherError (e : text) : read_result.

Definition read_file (fs : node) (p : path) : read_result :=
  match resolve fs p with
  | None => FileNotFoundError
  | Some (File content) => Content content
  | Some (Unreadable e) => OtherError e
  | Some (Dir _) =>
      OtherError (str "[Errno 21] Is a directory: '" ++ path_str p ++ str "'")
  end.

(** ** The recursive merger *)

(** [\\begin\s*\{\s*comment\s*\}.*?\\end\s*\{\s*comment\s*\}\s*\n?] with
    [re.DOTALL]. *)
Definition RE_BLOCK_COMMENT : regex :=
  seq [lit "\begin"; Star ws; chr "{"; Star ws; lit "comment"; Star ws;
       chr "}"; Lazy dot_all;
       lit "\end"; Star ws; chr "{"; Star ws; lit "comment"; Star ws;
       chr "}"; Star ws; opt (chr nl)].

(** [(?<!\\)%.*(?:\n|$)]. *)
Definition RE_LINE_COMMENT : regex :=
  seq [NotAfter (Ascii.eqb backslash); chr "%"; Star dot;
       Alt (chr nl) EndOfText].

(** [\\(?:input|include)\s*\{\s*(.*?)\s*\}]. *)
Definition RE_INPUT : regex :=
  seq [chr "\"; Alt (lit "input") (lit "include"); Star ws; chr "{";
       Star ws; Group 1 (Lazy dot); Star ws; chr "}"].

(** The comment removal of [merge_tex_files]: line comments first, then
    block comments. *)
Definition strip_line_comments (content : text) : text :=
  sub RE_LINE_COMMENT [] content.

Definition strip_comments (content : text) : text :=
  sub RE_BLOCK_COMMENT [] (strip_line_comments content).

Definition note_skipping (p : path) : text :=
  str "% --- SKIPPING RECURSIVE INCLUDE OF " ++ path_name p
    ++ str " ---" ++ [nl].

Definition note_file_not_found (p : path) : text :=
  str "% --- FILE NOT FOUND: " ++ path_str p ++ str " ---" ++ [nl].

Definition note_error_reading (p : path) (e : text) : text :=
  str "% --- ERROR READING FILE: " ++ path_str p ++ str ", " ++ e
    ++ str " ---" ++ [nl].

Definition note_included_not_found (included_filename : text) : text :=
  str "% --- INCLUDED FILE NOT FOUND: " ++ included_filename
    ++ str " ---" ++ [nl].

(** The name [replace_input] looks for: group 1, with [.tex] appended
    unless it ends in it. *)
Definition included_filename (content : text) (m : rmatch) : text :=
  let name := group content m 1 in
  if endswith name (str ".tex") then name else name ++ str ".tex".

(** The path [replace_input] settles on: relative to the including file
    when that exists, relative to the project root otherwise. *)
Definition final_path (fs : node) (tex_file_path project_root : path)
  (filename : text) : path :=
  let included_file_path_relative :=
    path_join (path_parent tex_file_path) filename in
  let included_file_path_root := path_join project_root filename in
  if path_exists fs included_file_path_relative
  then included_file_path_relative
  else included_file_path_root.

(** [replace_input(match)], the callback of [RE_INPUT.sub]: [merge] is
    the recursive call, and the set [processed_files] is passed in and
    returned.  The progress line it prints calls [relative_to], which
    raises [ValueError] for a path outside the project root. *)
Definition replace_input
  (merge : path -> list path -> outcome (text * list path))
  (fs : node) (tex_file_path project_root : path)
  (content_no_comments : text) (m : rmatch) (processed_files : list path)
  : outcome (text * list path) :=
  let filename := included_filename content_no_comments m in
  let final := final_path fs tex_file_path project_root filename in
  if path_exists fs final then
    if is_relative_to final project_root
    then merge final processed_files
    else Raised (str "ValueError")
  else Ok (note_included_not_found filename, processed_files).

(** [merge_tex_files(tex_file_path, project_root, processed_files)] over
    the file system [fs], with at most [limit] nested calls.  The set
    [processed_files] is the one object all calls share: it is passed in
    and returned. *)
Fixpoint merge_tex_files (limit : nat) (fs : node)
  (tex_file_path project_root : path) (processed_files : list path)
  {struct limit} : outcome (text * list path) :=
  match limit with
  | 0 => RecursionError
  | S limit' =>
      if path_mem tex_file_path processed_files
      then Ok (note_skipping tex_file_path, processed_files)
      else
        let processed_files := tex_file_path :: processed_files in
        match read_file fs tex_file_path with
        | FileNotFoundError =>
            Ok (note_file_not_found tex_file_path, processed_files)
        | OtherError e =>
            Ok (note_error_reading tex_file_path e, processed_files)
        | Content content =>
            let content_no_comments := strip_comments content in
            sub_state
              (replace_input
                 (fun final processed_files =>
                    merge_tex_files limit' fs final project_root
                      processed_files)
                 fs tex_file_path project_root content_no_comments)
              (tokens RE_INPUT content_no_comments) processed_files
        end
  end.

(** ** Dictionaries *)

(** A Python [dict] from strings to strings: the keys in the order they
    were first inserted. *)
Definition dict := list (text * text).

(** [d[k] = v]: a key that is present keeps its place. *)
Fixpoint dict_set (k v : text) (d : dict) : dict :=
  match d with
  | [] => [(k, v)]
  | (k', v') :: d' =>
      if text_eqb k' k then (k, v) :: d' else (k', v') :: dict_set k v d'
  end.

(** [d.get(k)]. *)
Fixpoint dict_get (k : text) (d : dict) : option text :=
  match d with
  | [] => None
  | (k', v') :: d' => if text_eqb k' k then Some v' else dict_get k d'
  end.

(** [d.keys()]. *)
Definition dict_keys (d : dict) : list text := map fst d.

(** [d[k]] for a key that is present. *)
Definition dict_at (d : dict) (k : text) : text :=
  match dict_get k d with
  | Some v => v
  | None => []
  end.

(** ** The declaration extractor *)

(** [\\usepackage(?:\[[^\]]*\])?\{[^\}]+\}]. *)
Definition RE_USEPACKAGE_CMD : regex :=
  seq [lit "\usepackage"; opt (seq [chr "["; Star (not_chr "]"); chr "]"]);
       chr "{"; plus (not_chr "}"); chr "}"].

(** [\\usepackage(?:\[.*?\])?\{([^\}]+)\}]. *)
Definition RE_PKG_NAME_EXTRACTOR : regex :=
  seq [lit "\usepackage"; opt (seq [chr "["; Lazy dot; chr "]"]);
       chr "{"; Group 1 (plus (not_chr "}")); chr "}"].

(** A range of offsets: start, and end (exclusive). *)
Definition coords := list (nat * nat).

(** The loop of [_extract_packages] over the matches: the dictionary
    [declarations] from command text to package name, and [all_coords]. *)
Fixpoint collect_packages (ms : list rmatch) (declarations : dict)
  (all_coords : coords) : dict * coords :=
  match ms with
  | [] => (declarations, all_coords)
  | m :: ms' =>
      let command_text := m_text m in
      match search RE_PKG_NAME_EXTRACTOR command_text with
      | Some name_match =>
          let package_name :=
            strip (hd [] (split_on "," (group command_text name_match 1))) in
          collect_packages ms' (dict_set command_text package_name declarations)
            (all_coords ++ [(m_start m, m_end m)])
      | None => collect_packages ms' declarations all_coords
      end
  end.

(** [_extract_packages(content)]: the unique commands sorted by package
    name, and the ranges of all declarations. *)
Definition _extract_packages (content : text) : list text * coords :=
  let (declarations, all_coords) :=
    collect_packages (finditer RE_USEPACKAGE_CMD content) [] [] in
  match declarations with
  | [] => ([], [])
  | _ :: _ =>
      (sorted_by
         (fun cmd1 cmd2 =>
            text_leb (dict_at declarations cmd1) (dict_at declarations cmd2))
         (dict_keys declarations),
       all_coords)
  end.

Inductive def_type : Type := Command | Color.

(** [\\(?:renew|new|provide)command\s*\*?\s*\{\s*\\(\w+)\s*\}((?:\[[^\]]*\]){0,2})\s*(\{)]
    for a command, and
    [\\definecolor\s*\{\s*(\w+)\s*\}\s*\{\s*(\w+)\s*\}\s*(\{)] for a
    color. *)
Definition RE_DEF_HEAD (ty : def_type) : regex :=
  match ty with
  | Command =>
      seq [chr "\"; alt [lit "renew"; lit "new"; lit "provide"];
           lit "command"; Star ws; opt (chr "*"); Star ws; chr "{"; Star ws;
           chr "\"; Group 1 (plus word); Star ws; chr "}";
           Group 2 (upto2 (seq [chr "["; Star (not_chr "]"); chr "]"]));
           Star ws; Group 3 (chr "{")]
  | Color =>
      seq [lit "\definecolor"; Star ws; chr "{"; Star ws;
           Group 1 (plus word); Star ws; chr "}"; Star ws; chr "{"; Star ws;
           Group 2 (plus word); Star ws; chr "}"; Star ws; Group 3 (chr "{")]
  end.

(** [usage_pattern + name + r"\b"]: the name after a backslash for a
    command, after a word boundary for a color.  A name is made of word
    characters and stands for itself in the pattern. *)
Definition re_usage (ty : def_type) (name : text) : regex :=
  match ty with
  | Command => seq [chr "\"; lit_text name; WordBoundary]
  | Color => seq [WordBoundary; lit_text name; WordBoundary]
  end.

(** A recorded definition. *)
Record definition : Type := Definition_ {
  d_name : text;
  d_text : text;
  d_start : nat;
  d_end : nat
}.

(** The first loop of [_extract_definitions]: a head whose body closes
    is recorded from the start of the head to the end of the body. *)
Definition record_definition (content : text) (head_match : rmatch)
  : list definition :=
  let name := group content head_match 1 in
  match group_start head_match 3 with
  | Some body_start_index =>
      let body_end_index := _find_balanced_braces content body_start_index in
      if (body_end_index =? -1)%Z then []
      else
        let def_start := m_start head_match in
        let def_end := Z.to_nat (body_end_index + 1) in
        [Definition_ name (slice content def_start def_end) def_start def_end]
  | None => []
  end.

Definition all_definitions (content : text) (ty : def_type)
  : list definition :=
  flat_map (record_definition content) (finditer (RE_DEF_HEAD ty) content).

(** [len(re_usage.findall(content))]. *)
Definition usage_count (content : text) (ty : def_type) (name : text) : nat :=
  count_matches (re_usage ty name) content.

(** The second loop: a definition whose name occurs more than once is
    entered under its name, over what an earlier one entered. *)
Fixpoint collect_used (content : text) (ty : def_type)
  (defs : list definition) (used_definitions_map : dict) : dict :=
  match defs with
  | [] => used_definitions_map
  | defi :: defs' =>
      let name := d_name defi in
      collect_used content ty defs'
        (if 1 <? usage_count content ty name
         then dict_set name (d_text defi) used_definitions_map
         else used_definitions_map)
  end.

(** [_extract_definitions(content, def_type)]. *)
Definition _extract_definitions (content : text) (ty : def_type)
  : dict * coords :=
  let all_definitions := all_definitions content ty in
  match all_definitions with
  | [] => ([], [])
  | _ :: _ =>
      (collect_used content ty all_definitions [],
       map (fun d => (d_start d, d_end d)) all_definitions)
  end.

(** ** The preamble assembler *)

(** [\\documentclass(?:\[[^\]]*\])?\{[^\}]+?\}]. *)
Definition RE_DOC_CLASS : regex :=
  seq [lit "\documentclass"; opt (seq [chr "["; Star (not_chr "]"); chr "]"]);
       chr "{"; lazy_plus (not_chr "}"); chr "}"].

(** The inner loop of the removal: [start] moved back over the white
    space before it.  Reading [content_list[start - 1]] past the end of
    the list raises [IndexError]. *)
Fixpoint extend_back {A : Type} (space : A -> bool) (content_list : list A)
  (start : nat) : outcome nat :=
  match start with
  | 0 => Ok 0
  | S j =>
      match nth_error content_list j with
      | Some c => if space c then extend_back space content_list j else Ok start
      | None => Raised (str "IndexError")
      end
  end.

(** [del l[a:b]]: nothing when [b <= a]; the offsets are clamped to the
    length. *)
Definition del_slice {A : Type} (l : list A) (a b : nat) : list A :=
  if a <? b then firstn a l ++ skipn b l else l.

(** The removal loop, over a list of any elements of which [space] tells
    the blanks; the program runs it on the characters of the content. *)
Fixpoint delete_ranges {A : Type} (space : A -> bool) (content_list : list A)
  (all_coords : coords) : outcome (list A) :=
  match all_coords with
  | [] => Ok content_list
  | (start, end_) :: all_coords' =>
      start' <- extend_back space content_list start ;;
      delete_ranges space (del_slice content_list start' end_) all_coords'
  end.

(** [all_coords.sort(key=lambda x: x[0], reverse=True)]: by start,
    descending; ranges with equal starts keep their order. *)
Definition sort_descending (all_coords : coords) : coords :=
  sorted_by (fun x y => fst y <=? fst x) all_coords.

(** The declarations found in a text and their ranges in removal order. *)
Definition removal_coords (content : text) : coords :=
  sort_descending
    (snd (_extract_packages content)
     ++ snd (_extract_definitions content Command)
     ++ snd (_extract_definitions content Color)).

(** [body_content]: the content without its declarations. *)
Definition body_content (content : text) : outcome text :=
  delete_ranges isspace content (removal_coords content).

(** The texts of a kept map in the order of their sorted names. *)
Definition sorted_values (used : dict) : list text :=
  map (dict_at used) (sorted_by text_leb (dict_keys used)).

(** [full_preamble_block]. *)
Definition full_preamble_block (content : text) : text :=
  let sorted_packages := fst (_extract_packages content) in
  let used_commands := fst (_extract_definitions content Command) in
  let used_colors := fst (_extract_definitions content Color) in
  let preamble_parts :=
    (match sorted_packages with
     | [] => []
     | _ :: _ => [join [nl] sorted_packages]
     end)
    ++ (match used_commands with
        | [] => []
        | _ :: _ => [join [nl] (sorted_values used_commands)]
        end)
    ++ (match used_colors with
        | [] => []
        | _ :: _ => [join [nl] (sorted_values used_colors)]
        end) in
  join [nl; nl]
    (filter (fun part => negb (text_eqb part [])) preamble_parts).

(** [process_preamble_and_definitions(content)]. *)
Definition process_preamble_and_definitions (content : text) : outcome text :=
  body_content <- body_content content ;;
  let full_preamble_block := full_preamble_block content in
  match search RE_DOC_CLASS body_content, full_preamble_block with
  | _, [] => Ok body_content
  | Some doc_class_match, _ :: _ =>
      let insertion_point := m_end doc_class_match in
      Ok (firstn insertion_point body_content
          ++ [nl; nl] ++ full_preamble_block
          ++ skipn insertion_point body_content)
  | None, _ :: _ => Ok (full_preamble_block ++ [nl; nl] ++ body_content)
  end.

(** ** The paragraph reflow engine *)

Definition PROTECTED_ENVIRONMENTS : list string :=
  ["figure"; "figure*"; "table"; "table*"; "tabular"; "verbatim";
   "Verbatim"; "lstlisting"; "equation"; "equation*"; "align"; "align*";
   "itemize"; "enumerate"; "description"]%string.

(** The pattern [re] reads in an environment name pasted into a pattern
    as it is: each character stands for itself, and a character with a
    [*] after it for any number of that character. *)
Fixpoint pattern_of (name : text) : regex :=
  match name with
  | [] => Eps
  | a :: rest =>
      match rest with
      | "*"%char :: rest' => Seq (Star (chr a)) (pattern_of rest')
      | _ => Seq (chr a) (pattern_of rest)
      end
  end.

(** [(?:figure|figure*|...)], from ["|".join(PROTECTED_ENVIRONMENTS)]. *)
Definition RE_ENV_NAMES : regex :=
  alt (map (fun name => pattern_of (str name)) PROTECTED_ENVIRONMENTS).

(** [\\begin\s*\{\s*(?:...)\s*\}] and [\\end\s*\{\s*(?:...)\s*\}]: a
    command word, then a protected name in braces. *)
Definition env_command_pattern (word : text) : regex :=
  seq [lit_text word; Star ws; chr "{"; Star ws; RE_ENV_NAMES; Star ws;
       chr "}"].

Definition RE_BEGIN_PROTECTED : regex := env_command_pattern (str "\begin").
Definition RE_END_PROTECTED : regex := env_command_pattern (str "\end").

(** [(\\begin\s*\{\s*(?:...)\s*\}.*?\\end\s*\{\s*(?:...)\s*\})] with
    [re.DOTALL]. *)
Definition RE_PROTECTED_BLOCKS : regex :=
  Group 1 (seq [RE_BEGIN_PROTECTED; Lazy dot_all; RE_END_PROTECTED]).

(** [(\\caption(?:\[.*?\])?\s*\{)\s*(.*?)\s*(\})] with [re.DOTALL]. *)
Definition RE_CAPTION : regex :=
  seq [Group 1 (seq [lit "\caption";
                     opt (seq [chr "["; Lazy dot_all; chr "]"]);
                     Star ws; chr "{"]);
       Star ws; Group 2 (Lazy dot_all); Star ws; Group 3 (chr "}")].

(** [(?<!\n)\n(?![\\\n])]. *)
Definition RE_MERGE_LINES : regex :=
  seq [NotAfter (Ascii.eqb nl); chr nl;
       NotBefore (fun a => (Ascii.eqb a backslash || Ascii.eqb a nl)%bool)].

(** [\n\s*\n], [ +] and [(\n\n)+]. *)
Definition RE_BLANK_LINES : regex := seq [chr nl; Star ws; chr nl].
Definition RE_SPACES : regex := plus (chr " ").
Definition RE_BLANK_PAIRS : regex := plus (Group 1 (lit_text [nl; nl])).

(** [process_caption_content(match)], on a match in the text [part]. *)
Definition process_caption_content (part : text) (m : rmatch) : text :=
  let opening := group part m 1 in
  let caption_text := group part m 2 in
  let closing := group part m 3 in
  let processed_text := sub RE_MERGE_LINES (str " ") caption_text in
  let processed_text := strip (sub RE_SPACES (str " ") processed_text) in
  opening ++ processed_text ++ closing.

(** The loop over the parts: those of odd index are protected blocks. *)
Fixpoint process_parts (parts : list text) (i : nat) : list text :=
  match parts with
  | [] => []
  | part :: parts' =>
      (if Nat.odd i
       then sub_with RE_CAPTION (process_caption_content part) part
       else sub RE_SPACES (str " ") (sub RE_MERGE_LINES (str " ") part))
      :: process_parts parts' (S i)
  end.

(** The content as the splitter receives it: the lines stripped on the
    left, the blank lines normalized. *)
Definition normalize_lines (content : text) : text :=
  let lines := map lstrip (split_on nl content) in
  let content := join [nl] lines in
  let content := sub RE_BLANK_LINES [nl; nl] content in
  sub RE_BLANK_PAIRS [nl; nl] content.

(** The parts of the content: free text at the even indices, protected
    blocks at the odd ones. *)
Definition protected_split (content : text) : list text :=
  split RE_PROTECTED_BLOCKS (normalize_lines content).

(** [clean_tex_content(content)]. *)
Definition clean_tex_content (content : text) : text :=
  concat (process_parts (protected_split content) 0).

(** ** The indentation reconstructor *)

(** Four spaces for one level. *)
Definition indent_str : text := str "    ".

(** [\\begin\s*\{|\\left\b] and [\\end\s*\{|\\right\b]. *)
Definition RE_INDENT : regex :=
  Alt (seq [lit "\begin"; Star ws; chr "{"]) (seq [lit "\left"; WordBoundary]).

Definition RE_DEDENT : regex :=
  Alt (seq [lit "\end"; Star ws; chr "{"]) (seq [lit "\right"; WordBoundary]).

(** [\\begin\s*\{\s*document\s*\}]. *)
Definition RE_BEGIN_DOCUMENT : regex :=
  seq [lit "\begin"; Star ws; chr "{"; Star ws; lit "document"; Star ws;
       chr "}"].

Definition is_some {A : Type} (x : option A) : bool :=
  match x with
  | Some _ => true
  | None => false
  end.

(** The change of level a stripped, non-empty line asks for. *)
Definition line_delta (line : text) : Z :=
  let indent_delta :=
    (Z.of_nat (count_matches RE_INDENT line)
     - Z.of_nat (count_matches RE_DEDENT line))%Z in
  if is_some (match_start RE_BEGIN_DOCUMENT line)
  then (indent_delta - 1)%Z
  else indent_delta.

(** The loop of [reindent_tex_content] over the lines, from the level
    [indent_level]: the lines it appends to [indented_lines]. *)
Fixpoint reindent_lines (lines : list text) (indent_level : Z) : list text :=
  match lines with
  | [] => []
  | line :: lines' =>
      let line := strip line in
      match line with
      | [] => [] :: reindent_lines lines' indent_level
      | _ :: _ =>
          let is_dedent_first :=
            (startswith line (str "\end") || startswith line (str "\right"))%bool in
          let indent_delta := line_delta line in
          if is_dedent_first then
            let indent_level := Z.max 0 (indent_level + indent_delta) in
            (repeat_text indent_str indent_level ++ line)
              :: reindent_lines lines' indent_level
          else
            (repeat_text indent_str indent_level ++ line)
              :: reindent_lines lines' (Z.max 0 (indent_level + indent_delta))
      end
  end.

Definition reindent_tex_content (content : text) : text :=
  join [nl] (reindent_lines (split_on nl content) 0).

(** ** The citation-filtered bibliography builder *)

(** [(@string\s*\{.*?\})] with [re.IGNORECASE | re.DOTALL]. *)
Definition RE_STRING_MACRO : regex :=
  Group 1 (seq [lit_i "@string"; Star ws; chr "{"; Lazy dot_all; chr "}"]).

Definition BIB_ENTRY_TYPES : list string :=
  ["article"; "book"; "inproceedings"; "phdthesis"; "mastersthesis";
   "inbook"; "incollection"; "proceedings"; "techreport"; "unpublished";
   "misc"]%string.

(** [(@(?:article|book|...))\s*\{([^,]+),.*?\n\}] with
    [re.IGNORECASE | re.DOTALL]. *)
Definition RE_ENTRY : regex :=
  seq [Group 1 (Seq (chr "@") (alt (map lit_i BIB_ENTRY_TYPES)));
       Star ws; chr "{"; Group 2 (plus (not_chr ",")); chr ",";
       Lazy dot_all; chr nl; chr "}"].

(** [k in used_citations]. *)
Definition mem_text (k : text) (ks : list text) : bool :=
  existsb (text_eqb k) ks.

(** [re.findall] of the macro pattern: the texts of its group. *)
Definition string_macros (bib_content : text) : list text :=
  map m_text (finditer RE_STRING_MACRO bib_content).

(** The key of an entry match: [entry_match.group(2).strip()]. *)
Definition entry_key (bib_content : text) (m : rmatch) : text :=
  strip (group bib_content m 2).

(** The loop over the entries: the texts of those whose key is cited. *)
Definition kept_entries_text (bib_content : text) (used_citations : list text)
  : list text :=
  map m_text
    (filter (fun m => mem_text (entry_key bib_content m) used_citations)
       (finditer RE_ENTRY bib_content)).

(** The text [clean_bib_file] writes for the parts it keeps. *)
Definition clean_bib_content (final_bib_parts : list text) : text :=
  let clean_content := join [nl; nl] final_bib_parts in
  let uncommented_lines :=
    map (fun line => rstrip (sub RE_LINE_COMMENT [] line))
      (split_on nl clean_content) in
  let clean_content := join [nl] uncommented_lines in
  let clean_content := sub RE_BLANK_LINES [nl; nl] clean_content in
  strip clean_content.

(** The files a step writes: path and content, in order. *)
Definition writes := list (path * text).

Definition output_bib_name : text := str "main.bib".

(** [clean_bib_file(bib_path, used_citations, output_dir)]: the name of
    the file written, or [None], and the files written.  An exception
    while reading the source is not caught. *)
Definition clean_bib_file (fs : node) (bib_path : path)
  (used_citations : list text) (output_dir : path)
  : outcome (option text * writes) :=
  if negb (path_exists fs bib_path) then Ok (None, [])
  else
    match read_file fs bib_path with
    | FileNotFoundError => Raised (str "FileNotFoundError")
    | OtherError e => Raised e
    | Content bib_content =>
        let string_macros := string_macros bib_content in
        let kept_entries_text := kept_entries_text bib_content used_citations in
        match kept_entries_text, string_macros with
        | [], [] => Ok (None, [])
        | _, _ =>
            let final_bib_parts := string_macros ++ kept_entries_text in
            let output_bib_path := path_join output_dir output_bib_name in
            Ok (Some output_bib_name,
                [(output_bib_path, clean_bib_content final_bib_parts)])
        end
    end.

(** [\\cite(?:\[.*?\])?\s*\{(.*?)\}] and [\\bibliography\s*\{\s*(.*?)\s*\}]. *)
Definition RE_CITE : regex :=
  seq [lit "\cite"; opt (seq [chr "["; Lazy dot; chr "]"]); Star ws; chr "{";
       Group 1 (Lazy dot); chr "}"].

Definition RE_BIBLIOGRAPHY : regex :=
  seq [lit "\bibliography"; Star ws; chr "{"; Star ws; Group 1 (Lazy dot);
       Star ws; chr "}"].

(** The citation keys of the document; the set is a list here, which has
    the same members and is empty when the set is. *)
Definition all_citations (final_tex_content : text) : list text :=
  flat_map
    (fun m => map strip (split_on "," (group final_tex_content m 1)))
    (finditer RE_CITE final_tex_content).

(** The loop over the bibliography names: the first source that exists. *)
Fixpoint first_existing_bib (fs : node) (input_dir : path)
  (bib_names : list text) : option path :=
  match bib_names with
  | [] => None
  | bib_name :: bib_names' =>
      let src_bib_path := path_join input_dir (bib_name ++ str ".bib") in
      if path_exists fs src_bib_path then Some src_bib_path
      else first_existing_bib fs input_dir bib_names'
  end.

(** [Path(name).stem] for a name without directory part: the name
    without its last suffix, when the dot that starts it is not the
    first character. *)
Fixpoint drop_suffix (rev_name : text) : option text :=
  match rev_name with
  | [] => None
  | c :: rest =>
      if Ascii.eqb c "." then
        match rest with
        | [] => None
        | _ :: _ => Some rest
        end
      else drop_suffix rest
  end.

Definition path_stem (name : text) : text :=
  match drop_suffix (rev name) with
  | Some r => rev r
  | None => name
  end.

(** Step 6 of [main]: the document text after it, and the files it
    writes. *)
Definition main_bibliography_step (fs : node) (input_dir output_dir : path)
  (final_tex_content : text) : outcome (text * writes) :=
  let all_citations := all_citations final_tex_content in
  match search RE_BIBLIOGRAPHY final_tex_content, all_citations with
  | Some bib_match, _ :: _ =>
      let bib_names :=
        map strip (split_on "," (group final_tex_content bib_match 1)) in
      r <- match first_existing_bib fs input_dir bib_names with
           | Some src_bib_path =>
               clean_bib_file fs src_bib_path all_citations output_dir
           | None => Ok (None, [])
           end ;;
      match fst r with
      | Some new_bib_name =>
          let new_bib_cmd :=
            str "\bibliography{" ++ path_stem new_bib_name ++ str "}" in
          Ok (sub RE_BIBLIOGRAPHY new_bib_cmd final_tex_content, snd r)
      | None => Ok (final_tex_content, snd r)
      end
  | _, _ => Ok (final_tex_content, [])
  end.

(** ** The search for the project root *)

(** [Path(s).resolve()] in the directory [cwd], on a file system without
    links: the components of [s] after those of [cwd], with each [".."]
    taking back the component before it; at the root [".."] stays at the
    root.  [acc] holds the components settled so far, last first. *)
Fixpoint collapse (acc : list text) (p : path) : path :=
  match p with
  | [] => rev acc
  | comp :: p' =>
      if text_eqb comp (str "..") then collapse (tl acc) p'
      else collapse (comp :: acc) p'
  end.

Definition path_resolve (cwd : path) (s : text) : path :=
  collapse [] (path_join cwd s).

(** The loop of [find_project_root].  [current_path] is held by its
    components from the last to the first, so that [current_path.parent]
    is the tail; the root, which is its own parent, is the empty list. *)
Fixpoint search_upward (fs : node) (main_doc_name : text)
  (current_path : list text) : option path :=
  if path_exists fs (path_join (rev current_path) main_doc_name)
  then Some (rev current_path)
  else
    match current_path with
    | [] => None
    | _ :: parent => search_upward fs main_doc_name parent
    end.

(** [find_project_root(start_path, main_doc_name)], run in the directory
    [cwd]. *)
Definition find_project_root (fs : node) (cwd : path) (start_path : text)
  (main_doc_name : text) : option path :=
  search_upward fs main_doc_name (rev (path_resolve cwd start_path)).

(** ** The text steps of [main] *)

(** Steps 1 to 4 of [main]: the merge from the main document with an
    empty set of visited files, the preamble, the reflow and the
    indentation. *)
Definition main_tex_content (limit : nat) (fs : node)
  (main_document_path input_dir : path) : outcome text :=
  merged <- merge_tex_files limit fs main_document_path input_dir [] ;;
  let merged_content := fst merged in
  relocated_content <- process_preamble_and_definitions merged_content ;;
  let clean_content := clean_tex_content relocated_content in
  Ok (reindent_tex_content clean_content).

(** ** The output directory of [main] *)

(** [input_dir.with_name(input_dir.name + "_clean")], the output
    directory when none is given: [with_name] raises [ValueError] for
    the root, which has no name. *)
Definition default_output_dir (input_dir : path) : outcome path :=
  match rev input_dir with
  | [] => Raised (str "ValueError")
  | name :: parent => Ok (rev parent ++ [name ++ str "_clean"])
  end.
(** ** Vocabulary of the specifications *)

(** Texts whose braces are correctly nested. *)
Inductive balanced : text -> Prop :=
| balanced_nil : balanced []
| balanced_char (c : ascii) (t : text) :
    c <> lbrace -> c <> rbrace -> balanced t -> balanced (c :: t)
| balanced_group (a b : text) :
    balanced a -> balanced b -> balanced (lbrace :: a ++ rbrace :: b).

Definition opens (t : text) : nat := count_occ ascii_dec t lbrace.
Definition closes (t : text) : nat := count_occ ascii_dec t rbrace.

(** The braces of [rest], read after an opening brace, never rebalance:
    no prefix of [rest] closes more braces than it opens, so the brace
    before [rest] stays open to the end of the text. *)
Definition never_rebalances (rest : text) : Prop :=
  forall n, closes (firstn n rest) <= opens (firstn n rest).

(** Every comment marker of [t] is escaped: it is not the first character
    and the character before it is a backslash. *)
Definition escaped_only (t : text) : Prop :=
  forall i, nth_error t i = Some percent ->
  exists j, i = S j /\ nth_error t j = Some backslash.

(** [t] does not end in a backslash. *)
Definition no_trailing_backslash (t : text) : Prop :=
  forall u, t <> u ++ [backslash].

(** The character of [t] before offset [i], if any. *)
Definition char_before (t : text) (i : nat) : option ascii :=
  match i with
  | 0 => None
  | S j => nth_error t j
  end.

(** What [sub] writes for a token. *)
Definition render (s : text) (tok : token) : text :=
  match tok with
  | Hit _ => s
  | Lit a => [a]
  end.

(** The number of characters a line comment takes after its marker:
    through the newline that ends the line, or to the end of the text. *)
Fixpoint comment_length (u : text) : nat :=
  match u with
  | [] => 0
  | a :: u' => if Ascii.eqb a nl then 1 else S (comment_length u')
  end.

(** The scan of the line-comment removal, resumed at [t] with [skip]
    characters of a comment still to drop. *)
Definition strip_scan (prev : option ascii) (t : text) (skip : nat) : text :=
  flat_map (render []) (scan RE_LINE_COMMENT 0 prev t skip).

(** The last character read after [t], when [prev] was the last one
    before it. *)
Definition last_opt (t : text) (prev : option ascii) : option ascii :=
  match rev t with
  | a :: _ => Some a
  | [] => prev
  end.

(** The value of [indent_level] at which the loop of
    [reindent_tex_content] emits each line; for a blank line, which is
    emitted without indentation, the level the loop holds then. *)
Fixpoint indent_levels (lines : list text) (indent_level : Z) : list Z :=
  match lines with
  | [] => []
  | line :: lines' =>
      let line := strip line in
      match line with
      | [] => indent_level :: indent_levels lines' indent_level
      | _ :: _ =>
          if (startswith line (str "\end") || startswith line (str "\right"))%bool
          then
            let indent_level := Z.max 0 (indent_level + line_delta line) in
            indent_level :: indent_levels lines' indent_level
          else
            indent_level
              :: indent_levels lines' (Z.max 0 (indent_level + line_delta line))
      end
  end.

(** A line as emitted at a level: empty when blank, and otherwise its
    stripped text after one [indent_str] per level. *)
Definition emitted (line_level : text * Z) : text :=
  match strip (fst line_level) with
  | [] => []
  | _ :: _ =>
      repeat_text indent_str (snd line_level) ++ strip (fst line_level)
  end.

(** The offsets of a text, in order. *)
Definition positions (content : text) : list nat :=
  List.seq 0 (length content).

(** The character at an offset is a blank. *)
Definition space_at (content : text) (i : nat) : bool :=
  isspace (nth i content " "%char).

(** The removal loop run on the offsets of the content instead of on its
    characters: the offsets of the characters that stay. *)
Definition surviving (content : text) : outcome (list nat) :=
  delete_ranges (space_at content) (positions content)
    (removal_coords content).

(** An offset lies in a range. *)
Definition in_range (i : nat) (r : nat * nat) : Prop :=
  fst r <= i /\ i < snd r.

(** What a list of ranges owes to the matches of a pattern: distinct
    starts, each the start of a match. *)
Definition ranges_of_matches (r : regex) (content : text) (co : coords) : Prop :=
  NoDup (map fst co)
  /\ forall x, In x co -> exists m, In m (finditer r content) /\ fst x = m_start m.

(** The character after the backslash that begins a declaration: of an
    import, of a macro definition, of a color definition. *)
Definition kind_package (c : ascii) : Prop := c = "u"%char.
Definition kind_command (c : ascii) : Prop := (c = "r" \/ c = "n" \/ c = "p")%char.
Definition kind_color (c : ascii) : Prop := c = "d"%char.

(** *** What a pattern matches *)

(** [matches r cur w cur']: read at the position [cur], the pattern [r]
    can consume the text [w] and leave the scan at [cur'].  This is the
    meaning of a pattern without the order in which [re] tries the
    alternatives. *)
Inductive matches : regex -> cursor -> text -> cursor -> Prop :=
| matches_eps cur : matches Eps cur [] cur
| matches_cls p b a t :
    p a = true ->
    matches (Cls p) (Cursor b (a :: t)) [a] (Cursor (Some a) t)
| matches_seq a b c1 w1 c2 w2 c3 :
    matches a c1 w1 c2 -> matches b c2 w2 c3 ->
    matches (Seq a b) c1 (w1 ++ w2) c3
| matches_alt_l a b c1 w c2 :
    matches a c1 w c2 -> matches (Alt a b) c1 w c2
| matches_alt_r a b c1 w c2 :
    matches b c1 w c2 -> matches (Alt a b) c1 w c2
| matches_star_nil a cur : matches (Star a) cur [] cur
| matches_star_step a c1 w1 c2 w2 c3 :
    matches a c1 w1 c2 -> w1 <> [] -> matches (Star a) c2 w2 c3 ->
    matches (Star a) c1 (w1 ++ w2) c3
| matches_lazy_nil a cur : matches (Lazy a) cur [] cur
| matches_lazy_step a c1 w1 c2 w2 c3 :
    matches a c1 w1 c2 -> w1 <> [] -> matches (Lazy a) c2 w2 c3 ->
    matches (Lazy a) c1 (w1 ++ w2) c3
| matches_group n a c1 w c2 :
    matches a c1 w c2 -> matches (Group n a) c1 w c2
| matches_not_after p cur :
    holds_opt p (before cur) = false -> matches (NotAfter p) cur [] cur
| matches_not_before p cur :
    holds_opt p (hd_error (rest cur)) = false ->
    matches (NotBefore p) cur [] cur
| matches_word_boundary cur :
    at_word_boundary cur = true -> matches WordBoundary cur [] cur
| matches_end_of_text cur :
    at_end_of_text cur = true -> matches EndOfText cur [] cur.

(** The matcher with the fuel of a repetition made explicit. *)
Definition exec_fuel {R : Type} (r : regex) (fuel : nat) (cur : cursor)
  (c : caps) (k : cursor -> caps -> option R) : option R :=
  match r with
  | Star a => star_loop (exec a) true k fuel cur c
  | Lazy a => star_loop (exec a) false k fuel cur c
  | _ => exec r cur c k
  end.

(** A text of blanks only. *)
Definition blank (w : text) : Prop := forallb isspace w = true.

(** A name the splitter's name pattern accepts. *)
Definition accepted_name (n : text) : Prop :=
  exists c1 c2, matches RE_ENV_NAMES c1 n c2.

(** A begin command and an end command for an accepted name: the command
    word, then the name in braces, with blanks allowed around the opening
    brace and around the name. *)
Definition env_command (word cmd : text) : Prop :=
  exists w1 w2 n w3,
    cmd = word ++ w1 ++ lbrace :: w2 ++ n ++ w3 ++ [rbrace]
    /\ blank w1 /\ blank w2 /\ blank w3 /\ accepted_name n.

Definition begin_command : text -> Prop := env_command (str "\begin").
Definition end_command : text -> Prop := env_command (str "\end").

(** A pattern without look-around: what it matches does not depend on
    the text around the match. *)
Fixpoint context_free (r : regex) : bool :=
  match r with
  | Eps | Cls _ => true
  | Seq a b | Alt a b => (context_free a && context_free b)%bool
  | Star a | Lazy a | Group _ a => context_free a
  | NotAfter _ | NotBefore _ | WordBoundary | EndOfText => false
  end.

(** *** A project with an inclusion cycle *)

(** The directory [p] holds [main.tex], which includes [a/x]; [a/x.tex]
    includes [../b/y] and [b/y.tex] includes [../a/x]. *)
Definition cycle_a : node :=
  Dir [(str "x.tex", File (str "\input{../b/y}"))].

Definition cycle_b : node :=
  Dir [(str "y.tex", File (str "\input{../a/x}"))].

Definition cycle_p : node :=
  Dir [(str "main.tex", File (str "\input{a/x}"));
       (str "a", cycle_a); (str "b", cycle_b)].

Definition cycle_project : node := Dir [(str "p", cycle_p)].

(** The way from [a] over [b] back to [a]. *)
Definition detour : path := [str ".."; str "b"; str ".."; str "a"].

(** The paths under which the merge meets [a/x.tex] and [b/y.tex] for the
    [k]-th time after the first. *)
Definition path_x (k : nat) : path :=
  [str "p"; str "a"] ++ concat (repeat detour k) ++ [str "x.tex"].

Definition path_y (k : nat) : path :=
  [str "p"; str "a"] ++ concat (repeat detour k)
  ++ [str ".."; str "b"; str "y.tex"].

(** *** The shape of a merged text *)

(** Every comment marker of [t] is escaped, when [prev] is the character
    before [t]. *)
Definition escaped_after (prev : option ascii) (t : text) : Prop :=
  forall i, nth_error t i = Some percent ->
  match i with
  | 0 => prev = Some backslash
  | S j => nth_error t j = Some backslash
  end.

(** No part of [t] is a text the pattern [r] matches. *)
Definition no_match (r : regex) (t : text) : Prop :=
  forall p1 w p2, t = p1 ++ w ++ p2 ->
  ~ exists c1 c2, matches r c1 w c2.

(** No part of [t] is an inclusion command. *)
Definition no_inclusion (t : text) : Prop := no_match RE_INPUT t.

(** The comments the merger writes in place of a file or an inclusion. *)
Definition placeholder (n : text) : Prop :=
  (exists p, n = note_skipping p)
  \/ (exists p, n = note_file_not_found p)
  \/ (exists p e, n = note_error_reading p e)
  \/ (exists f, n = note_included_not_found f).

(** A merged text: stretches of text without unescaped comment marker
    and without inclusion command, and placeholders. *)
Inductive merged : text -> Prop :=
| merged_nil : merged []
| merged_text (t rest : text) :
    escaped_only t -> no_inclusion t -> merged rest -> merged (t ++ rest)
| merged_note (n rest : text) :
    placeholder n -> merged rest -> merged (n ++ rest).

(** Every match of [r] ends in a character that is not a backslash. *)
Definition ends_unescaped (r : regex) : Prop :=
  forall c1 w c2, matches r c1 w c2 ->
  exists w' x, w = w' ++ [x] /\ x <> backslash.

(** *** More vocabulary *)

(** A text read after [S n] braces were opened, up to the brace that
    closes the first of them: [n] closing braces, each after a correctly
    nested stretch, and a correctly nested stretch at the end. *)
Inductive closes_levels : nat -> text -> Prop :=
| closes_none (b : text) : balanced b -> closes_levels 0 b
| closes_more (n : nat) (b rest : text) :
    balanced b -> closes_levels n rest ->
    closes_levels (S n) (b ++ rbrace :: rest).

(** The name [_extract_packages] files an import under: the first of
    the names in its braces, stripped. *)
Definition package_name (command_text : text) : text :=
  match search RE_PKG_NAME_EXTRACTOR command_text with
  | Some name_match =>
      strip (hd [] (split_on "," (group command_text name_match 1)))
  | None => []
  end.

(** The import is one the name pattern reads a name from. *)
Definition has_package_name (command_text : text) : Prop :=
  search RE_PKG_NAME_EXTRACTOR command_text <> None.

(** What [sub] writes from a position on: the scan resumed at [t], the
    character before it being [prev], with [skip] characters of a match
    still to pass. *)
Definition sub_scan (r : regex) (s : text) (prev : option ascii) (t : text)
  (skip : nat) : text :=
  flat_map (render s) (scan r 0 prev t skip).

(** The number of characters of the class [p] that begin [u]. *)
Fixpoint leading (p : ascii -> bool) (u : text) : nat :=
  match u with
  | a :: u' => if p a then S (leading p u') else 0
  | [] => 0
  end.

(** The number of characters from the start of [u] through the last
    newline among the blanks that begin [u], if there is one. *)
Fixpoint blank_run (u : text) : option nat :=
  match u with
  | a :: u' =>
      if isspace a then
        match blank_run u' with
        | Some n => Some (S n)
        | None => if Ascii.eqb a nl then Some 1 else None
        end
      else None
  | [] => None
  end.

(** No two spaces in a row. *)
Definition no_double_space (t : text) : Prop :=
  contains t (str "  ") = false.

(** No three newlines in a row, that is, no two blank lines in a row. *)
Definition single_blank_lines (t : text) : Prop :=
  contains t [nl; nl; nl] = false.

(** A newline may stay in reflowed text when the character before it is
    a newline, or the character after it a backslash or a newline. *)
Definition break_kept (prev next : option ascii) : Prop :=
  prev = Some nl \/ next = Some backslash \/ next = Some nl.

(** Every newline of [t] is one that may stay, [prev] being the
    character before [t]. *)
Definition lines_joined_after (prev : option ascii) (t : text) : Prop :=
  forall i, nth_error t i = Some nl ->
  break_kept (match i with 0 => prev | S j => nth_error t j end)
    (nth_error t (S i)).

Definition lines_joined (t : text) : Prop := lines_joined_after None t.

(** No line of [t] begins with a blank: a blank other than a newline
    comes after a character that is not a newline.  [prev] is the
    character before [t]. *)
Definition no_indentation_after (prev : option ascii) (t : text) : Prop :=
  forall i c, nth_error t i = Some c -> isspace c = true -> c <> nl ->
  exists b, match i with 0 => prev | S j => nth_error t j end = Some b
            /\ b <> nl.

Definition no_indentation (t : text) : Prop := no_indentation_after None t.

(** The newline [a], read after [prev] and before [u], is one the reflow
    replaces by a space. *)
Definition joins (prev : option ascii) (a : ascii) (u : text) : bool :=
  (Ascii.eqb nl a
   && negb (holds_opt (Ascii.eqb nl) prev)
   && negb (holds_opt (fun x => Ascii.eqb x backslash || Ascii.eqb x nl)
              (hd_error u)))%bool.

(** A merged text whose placeholders are of the kind [note]. *)
Inductive merged_with (note : text -> Prop) : text -> Prop :=
| merged_with_nil : merged_with note []
| merged_with_text (t rest : text) :
    escaped_only t -> no_inclusion t -> merged_with note rest ->
    merged_with note (t ++ rest)
| merged_with_note (n rest : text) :
    note n -> merged_with note rest -> merged_with note (n ++ rest).

(** The placeholders for a file met again, for a file that cannot be
    read, and for an inclusion whose target does not exist. *)
Definition read_note (n : text) : Prop :=
  (exists p, n = note_skipping p)
  \/ (exists p e, n = note_error_reading p e)
  \/ (exists f, n = note_included_not_found f).

(** *** Projects without [".."] *)

(** No component of the path is [".."]. *)
Definition dotdot_free (p : path) : bool :=
  forallb (fun comp => negb (text_eqb comp (str ".."))) p.

(** The inclusion commands of a file name no path with a [".."]. *)
Definition plain_inclusions (content : text) : bool :=
  forallb
    (fun m =>
       dotdot_free (path_parts (included_filename (strip_comments content) m)))
    (finditer RE_INPUT (strip_comments content)).

(** The paths without [".."] that lead from a node to the nodes below
    it, and the texts of the files below it. *)
Fixpoint all_paths (n : node) : list path :=
  []
  :: match n with
     | Dir entries =>
         (fix go (es : list (text * node)) : list path :=
            match es with
            | [] => []
            | (name, x) :: es' => map (cons name) (all_paths x) ++ go es'
            end) entries
     | _ => []
     end.

Fixpoint all_files (n : node) : list text :=
  match n with
  | File content => [content]
  | Unreadable _ => []
  | Dir entries =>
      (fix go (es : list (text * node)) : list text :=
         match es with
         | [] => []
         | (_, x) :: es' => all_files x ++ go es'
         end) entries
  end.

(** The number of paths of [paths] not yet in [visited]. *)
Definition unvisited (paths visited : list path) : nat :=
  length (filter (fun q => negb (path_mem q visited)) paths).
(** * Part II.  Properties *)

(** ** The balanced-delimiter scanner *)

Lemma eqb_lbrace_rbrace : Ascii.eqb rbrace lbrace = false.
Proof. reflexivity. Qed.

Lemma scan_braces_balanced (body : text) :
  balanced body ->
  forall (rest : text) (i : nat) (l : Z), (0 < l)%Z ->
  scan_braces (body ++ rest) i l = scan_braces rest (i + length body) l.
Proof.
  induction 1 as [| c t Hl Hr _ IH | a b _ IHa _ IHb]; intros rest i l Hpos.
  - simpl. now rewrite Nat.add_0_r.
  - simpl. apply Ascii.eqb_neq in Hl, Hr. rewrite Hl, Hr.
    destruct (Z.eqb_spec l 0); [lia|].
    rewrite IH by assumption. f_equal. lia.
  - change ((lbrace :: a ++ rbrace :: b) ++ rest)
      with (lbrace :: (a ++ rbrace :: b) ++ rest).
    rewrite <- app_assoc. cbn [scan_braces]. rewrite Ascii.eqb_refl.
    destruct (Z.eqb_spec (l + 1) 0); [lia|].
    rewrite IHa by lia. cbn [app scan_braces].
    rewrite eqb_lbrace_rbrace, Ascii.eqb_refl.
    replace (l + 1 - 1)%Z with l by lia.
    destruct (Z.eqb_spec l 0); [lia|].
    rewrite IHb by assumption. f_equal.
    cbn [length]. rewrite length_app. cbn [length]. lia.
Qed.

Lemma scan_braces_open (rest : text) :
  forall (i : nat) (l : Z), (0 < l)%Z ->
  (forall n, (Z.of_nat (closes (firstn n rest))
              < Z.of_nat (opens (firstn n rest)) + l)%Z) ->
  scan_braces rest i l = (-1)%Z.
Proof.
  induction rest as [| c rest IH]; intros i l Hpos Hnever; [reflexivity|].
  cbn [scan_braces].
  assert (H1 := Hnever 1). cbn [firstn] in H1. unfold closes, opens in H1.
  cbn [count_occ] in H1.
  assert (Hstep : forall n,
    closes (firstn (S n) (c :: rest))
      = (if ascii_dec c rbrace then 1 else 0) + closes (firstn n rest)
    /\ opens (firstn (S n) (c :: rest))
      = (if ascii_dec c lbrace then 1 else 0) + opens (firstn n rest)).
  { intro n. unfold closes, opens. cbn [firstn count_occ].
    destruct (ascii_dec c rbrace), (ascii_dec c lbrace); split; reflexivity. }
  destruct (Ascii.eqb_spec c lbrace) as [-> | Hl].
  - destruct (Z.eqb_spec (l + 1) 0); [lia|].
    apply IH; [lia|]. intro m. specialize (Hnever (S m)).
    destruct (Hstep m) as [Hc Ho]. rewrite Hc, Ho in Hnever.
    destruct (ascii_dec lbrace rbrace); [discriminate|].
    destruct (ascii_dec lbrace lbrace); [|contradiction]. lia.
  - destruct (Ascii.eqb_spec c rbrace) as [-> | Hr].
    + destruct (ascii_dec rbrace rbrace); [|contradiction].
      destruct (ascii_dec rbrace lbrace); [discriminate|].
      destruct (Z.eqb_spec (l - 1) 0); [lia|].
      apply IH; [lia|]. intro m. specialize (Hnever (S m)).
      destruct (Hstep m) as [Hc Ho]. rewrite Hc, Ho in Hnever.
      destruct (ascii_dec rbrace rbrace); [|contradiction].
      destruct (ascii_dec rbrace lbrace); [discriminate|]. lia.
    + destruct (Z.eqb_spec l 0); [lia|].
      apply IH; [lia|]. intro m. specialize (Hnever (S m)).
      destruct (Hstep m) as [Hc Ho]. rewrite Hc, Ho in Hnever.
      destruct (ascii_dec c rbrace); [contradiction|].
      destruct (ascii_dec c lbrace); [contradiction|]. lia.
Qed.

Lemma nth_error_middle (pre : text) (c : ascii) (rest : text) :
  nth_error (pre ++ c :: rest) (length pre) = Some c.
Proof. induction pre; simpl; auto. Qed.

Lemma skipn_middle (pre : text) (c : ascii) (rest : text) :
  skipn (S (length pre)) (pre ++ c :: rest) = rest.
Proof. induction pre; simpl; auto. Qed.

(** C5.  When the brace at [start_index] is followed by a correctly nested
    body and its closing brace, the scanner returns the offset of that
    closing brace; when the braces read after it never rebalance before
    the text ends, it returns the sentinel [-1]. *)
Theorem find_balanced_braces_partner (pre : text) :
  (forall body post : text,
      balanced body ->
      _find_balanced_braces (pre ++ lbrace :: body ++ rbrace :: post)
        (length pre)
      = Z.of_nat (length pre + 1 + length body))
  /\ (forall rest : text,
      never_rebalances rest ->
      _find_balanced_braces (pre ++ lbrace :: rest) (length pre) = (-1)%Z).
Proof.
  split.
  - intros body post Hbal. unfold _find_balanced_braces.
    rewrite nth_error_middle, Ascii.eqb_refl, skipn_middle.
    rewrite scan_braces_balanced by (assumption || lia).
    cbn [scan_braces]. rewrite eqb_lbrace_rbrace, Ascii.eqb_refl.
    cbn. f_equal. lia.
  - intros rest Hnever. unfold _find_balanced_braces.
    rewrite nth_error_middle, Ascii.eqb_refl, skipn_middle.
    apply scan_braces_open; [lia|]. intro n. specialize (Hnever n). lia.
Qed.

(** The scanner on ["a{b{c}d}e"] from offset 1, and on ["{a{b}"] from
    offset 0. *)
Lemma find_balanced_braces_partner_witness :
  _find_balanced_braces (str "a{b{c}d}e") 1 = 7%Z
  /\ _find_balanced_braces (str "{a{b}") 0 = (-1)%Z.
Proof.
  assert (Hbal : balanced (str "b{c}d")).
  { apply balanced_char; [discriminate | discriminate |].
    apply (balanced_group (str "c") (str "d"));
      repeat (apply balanced_char; [discriminate | discriminate |]);
      apply balanced_nil. }
  assert (Hopen : never_rebalances (str "a{b}")).
  { intro n. do 5 (destruct n as [| n]; [vm_compute; lia|]).
    vm_compute; lia. }
  split.
  - exact (proj1 (find_balanced_braces_partner (str "a"))
             (str "b{c}d") (str "e") Hbal).
  - exact (proj2 (find_balanced_braces_partner []) (str "a{b}") Hopen).
Defined.

(** ** The matcher and the scan *)

(** One step of a greedy repetition of a character class. *)
Lemma exec_star_cls {R : Type} (p : ascii -> bool) (b : option ascii)
  (t : text) (c : caps) (k : cursor -> caps -> option R) :
  exec (Star (Cls p)) (Cursor b t) c k =
  match t with
  | a :: t' =>
      if p a then
        match exec (Star (Cls p)) (Cursor (Some a) t') c k with
        | Some x => Some x
        | None => k (Cursor b t) c
        end
      else k (Cursor b t) c
  | [] => k (Cursor b t) c
  end.
Proof.
  destruct t as [| a t']; [reflexivity|].
  cbn [exec rest length star_loop]. destruct (p a); [|reflexivity].
  replace (length t' <? S (length t')) with true
    by (symmetry; apply Nat.ltb_lt; lia).
  reflexivity.
Qed.

(** One step of a non-greedy repetition of a character class. *)
Lemma exec_lazy_cls {R : Type} (p : ascii -> bool) (b : option ascii)
  (t : text) (c : caps) (k : cursor -> caps -> option R) :
  exec (Lazy (Cls p)) (Cursor b t) c k =
  match k (Cursor b t) c with
  | Some x => Some x
  | None =>
      match t with
      | a :: t' =>
          if p a then exec (Lazy (Cls p)) (Cursor (Some a) t') c k else None
      | [] => None
      end
  end.
Proof.
  destruct t as [| a t'].
  - cbn [exec rest length star_loop]. destruct (k (Cursor b []) c); reflexivity.
  - cbn [exec rest length star_loop].
    destruct (k (Cursor b (a :: t')) c); [reflexivity|].
    destruct (p a); [|reflexivity].
    replace (length t' <? S (length t')) with true
      by (symmetry; apply Nat.ltb_lt; lia).
    reflexivity.
Qed.

Lemma sub_render (r : regex) (s t : text) :
  sub r s t = flat_map (render s) (tokens r t).
Proof. reflexivity. Qed.

(** The output of [sub] does not depend on the offsets the scan records. *)
Lemma render_scan_total (r : regex) (s : text) (total total' : nat) (t : text) :
  forall prev skip,
  flat_map (render s) (scan r total prev t skip)
  = flat_map (render s) (scan r total' prev t skip).
Proof.
  induction t as [| a t IH]; intros prev skip.
  - cbn [scan]. destruct skip; [|reflexivity].
    destruct (exec_at r prev []) as [[n c]|]; reflexivity.
  - cbn [scan]. destruct skip as [| skip]; [|apply IH].
    destruct (exec_at r prev (a :: t)) as [[[| n] c]|];
      cbn [flat_map render app]; now rewrite IH.
Qed.

(** The equations of the matcher, one per construct. *)
Section ExecEquations.

Context {R : Type}.
Variables (cur : cursor) (c : caps) (k : cursor -> caps -> option R).

Lemma exec_Eps : exec Eps cur c k = k cur c.
Proof. reflexivity. Qed.

Lemma exec_Cls (p : ascii -> bool) :
  exec (Cls p) cur c k =
  match rest cur with
  | a :: t => if p a then k (Cursor (Some a) t) c else None
  | [] => None
  end.
Proof. reflexivity. Qed.

Lemma exec_Seq (a b : regex) :
  exec (Seq a b) cur c k = exec a cur c (fun cur' c' => exec b cur' c' k).
Proof. reflexivity. Qed.

Lemma exec_Alt (a b : regex) :
  exec (Alt a b) cur c k =
  match exec a cur c k with
  | Some x => Some x
  | None => exec b cur c k
  end.
Proof. reflexivity. Qed.

Lemma exec_Group (n : nat) (a : regex) :
  exec (Group n a) cur c k =
  exec a cur c
    (fun cur' c' =>
       k cur' ((n, (length (rest cur), length (rest cur'))) :: c')).
Proof. reflexivity. Qed.

Lemma exec_NotAfter (p : ascii -> bool) :
  exec (NotAfter p) cur c k =
  if holds_opt p (before cur) then None else k cur c.
Proof. reflexivity. Qed.

Lemma exec_NotBefore (p : ascii -> bool) :
  exec (NotBefore p) cur c k =
  if holds_opt p (hd_error (rest cur)) then None else k cur c.
Proof. reflexivity. Qed.

Lemma exec_WordBoundary :
  exec WordBoundary cur c k = if at_word_boundary cur then k cur c else None.
Proof. reflexivity. Qed.

Lemma exec_EndOfText :
  exec EndOfText cur c k = if at_end_of_text cur then k cur c else None.
Proof. reflexivity. Qed.

End ExecEquations.

Lemma seq_cons (r r' : regex) (rs : list regex) :
  seq (r :: r' :: rs) = Seq r (seq (r' :: rs)).
Proof. reflexivity. Qed.

Lemma comment_length_le (u : text) : comment_length u <= length u.
Proof.
  induction u as [| y u IH]; cbn; [lia|]. destruct (Ascii.eqb y nl); lia.
Qed.

(** *** Where the scan finds its matches *)

Lemma char_before_app (pre t : text) :
  char_before (pre ++ t) (length pre) = last_opt pre None.
Proof.
  unfold last_opt. destruct pre as [| a pre] using rev_ind; [reflexivity|].
  rewrite rev_app_distr, length_app, Nat.add_comm. cbn [length rev app Nat.add char_before].
  rewrite <- app_assoc. cbn [app]. apply nth_error_middle.
Qed.

Lemma skipn_app_length (pre t : text) : skipn (length pre) (pre ++ t) = t.
Proof. induction pre; simpl; auto. Qed.

Lemma last_opt_snoc (pre : text) (a : ascii) (prev : option ascii) :
  last_opt (pre ++ [a]) prev = Some a.
Proof. unfold last_opt. now rewrite rev_app_distr. Qed.

(** Every match the scan reports is what the matcher finds at the
    offset where the match starts. *)
Lemma scan_hit (r : regex) (s : text) (m : rmatch) (t : text) :
  forall pre skip,
  s = pre ++ t ->
  In (Hit m) (scan r (length s) (last_opt pre None) t skip) ->
  exists n c,
    length pre <= m_start m /\ m_start m <= length s
    /\ exec_at r (char_before s (m_start m)) (skipn (m_start m) s) = Some (n, c)
    /\ m = make_match (length s) (skipn (m_start m) s) n c.
Proof.
  induction t as [| a t IH]; intros pre skip Hs Hin.
  - rewrite app_nil_r in Hs. subst pre.
    cbn [scan] in Hin. destruct skip; [|contradiction].
    destruct (exec_at r (last_opt s None) []) as [[n c]|] eqn:E; [|contradiction].
    destruct Hin as [Hm | []]. injection Hm as <-.
    cbn [make_match m_start length]. rewrite Nat.sub_0_r.
    exists n, c.
    pose proof (char_before_app s []) as Hc. rewrite app_nil_r in Hc.
    pose proof (skipn_app_length s []) as Hk. rewrite app_nil_r in Hk.
    rewrite Hc, Hk. repeat split; try lia; assumption.
  - assert (Hnext : s = (pre ++ [a]) ++ t) by (now rewrite <- app_assoc).
    assert (Hstart : length s - length (a :: t) = length pre).
    { subst s. rewrite length_app. lia. }
    assert (Hrec : forall skip',
      In (Hit m) (scan r (length s) (Some a) t skip') ->
      exists n c,
        length pre <= m_start m /\ m_start m <= length s
        /\ exec_at r (char_before s (m_start m)) (skipn (m_start m) s) = Some (n, c)
        /\ m = make_match (length s) (skipn (m_start m) s) n c).
    { intros skip' H. rewrite <- (last_opt_snoc pre a None) in H.
      destruct (IH _ _ Hnext H) as (n & c & H1 & H2 & H3 & H4).
      exists n, c. rewrite length_app in H1. cbn [length] in H1.
      repeat split; try lia; assumption. }
    assert (Hhere : forall n c,
      exec_at r (last_opt pre None) (a :: t) = Some (n, c) ->
      Hit (make_match (length s) (a :: t) n c) = Hit m ->
      exists n c,
        length pre <= m_start m /\ m_start m <= length s
        /\ exec_at r (char_before s (m_start m)) (skipn (m_start m) s) = Some (n, c)
        /\ m = make_match (length s) (skipn (m_start m) s) n c).
    { intros n c E Hm. injection Hm as <-. exists n, c.
      cbn [m_start make_match]. rewrite Hstart.
      assert (length pre <= length s) by (subst s; rewrite length_app; lia).
      pose proof (char_before_app pre (a :: t)) as Hc. rewrite <- Hs in Hc.
      pose proof (skipn_app_length pre (a :: t)) as Hk. rewrite <- Hs in Hk.
      rewrite Hc, Hk. repeat split; try lia; try assumption. }
    cbn [scan] in Hin. destruct skip as [| skip]; [|now apply Hrec in Hin].
    destruct (exec_at r (last_opt pre None) (a :: t)) as [[[| n] c]|] eqn:E.
    + destruct Hin as [Hm | [Hm | Hin]]; [eapply Hhere; eauto | discriminate | eauto].
    + destruct Hin as [Hm | Hin]; [eapply Hhere; eauto | eauto].
    + destruct Hin as [Hm | Hin]; [discriminate | eauto].
Qed.

Lemma in_finditer (r : regex) (s : text) (m : rmatch) :
  In m (finditer r s) <-> In (Hit m) (tokens r s).
Proof.
  unfold finditer. rewrite in_flat_map. split.
  - intros [[a | m'] [Hin H]]; [contradiction|]. destruct H as [<- | []]. exact Hin.
  - intro H. exists (Hit m). split; [exact H | now left].
Qed.

(** [finditer] is sound: each match it yields starts at an offset of the
    subject where the matcher succeeds, and records what it consumed. *)
Lemma finditer_sound (r : regex) (s : text) (m : rmatch) :
  In m (finditer r s) ->
  exists n c,
    m_start m <= length s
    /\ exec_at r (char_before s (m_start m)) (skipn (m_start m) s) = Some (n, c)
    /\ m_end m = m_start m + n
    /\ m_text m = firstn n (skipn (m_start m) s).
Proof.
  intro H. apply in_finditer in H. unfold tokens in H.
  destruct (@scan_hit r s m s [] 0 eq_refl H) as (n & c & _ & H2 & H3 & H4).
  exists n, c. repeat split; try assumption.
  - rewrite H4 at 1. cbn [m_end make_match]. rewrite H4 at 2.
    cbn [m_start make_match]. reflexivity.
  - rewrite H4 at 1. reflexivity.
Qed.

(** *** The matcher against the meaning of patterns *)

Lemma matches_rest (r : regex) (c1 : cursor) (w : text) (c2 : cursor) :
  matches r c1 w c2 ->
  rest c1 = w ++ rest c2 /\ before c2 = last_opt w (before c1).
Proof.
  induction 1; cbn [rest before app]; try (split; reflexivity).
  - destruct IHmatches1 as [Ea Eb], IHmatches2 as [Ec Ed]. split.
    + now rewrite Ea, Ec, app_assoc.
    + rewrite Ed, Eb. unfold last_opt. rewrite rev_app_distr.
      destruct (rev w2); reflexivity.
  - assumption.
  - assumption.
  - destruct IHmatches1 as [Ea Eb], IHmatches2 as [Ec Ed]. split.
    + now rewrite Ea, Ec, app_assoc.
    + rewrite Ed, Eb. unfold last_opt. rewrite rev_app_distr.
      destruct (rev w2); reflexivity.
  - destruct IHmatches1 as [Ea Eb], IHmatches2 as [Ec Ed]. split.
    + now rewrite Ea, Ec, app_assoc.
    + rewrite Ed, Eb. unfold last_opt. rewrite rev_app_distr.
      destruct (rev w2); reflexivity.
  - assumption.
Qed.

Lemma matches_length (r : regex) (c1 : cursor) (w : text) (c2 : cursor) :
  matches r c1 w c2 -> length (rest c1) = length w + length (rest c2).
Proof.
  intro H. apply matches_rest in H. destruct H as [-> _]. apply length_app.
Qed.

(** Soundness of a repetition, given that of its body. *)
Lemma star_loop_sound {R : Type} (a : regex) (greedy : bool)
  (k : cursor -> caps -> option R) :
  (forall cur c (k' : cursor -> caps -> option R) x,
      exec a cur c k' = Some x ->
      exists w cur' c', matches a cur w cur' /\ k' cur' c' = Some x) ->
  forall fuel cur c x,
  star_loop (exec a) greedy k fuel cur c = Some x ->
  exists w cur' c',
    matches (if greedy then Star a else Lazy a) cur w cur'
    /\ k cur' c' = Some x.
Proof.
  intros Hbody. induction fuel as [| fuel IH]; intros cur c x H.
  - cbn [star_loop] in H. exists [], cur, c.
    split; [destruct greedy; constructor | exact H].
  - cbn [star_loop] in H.
    assert (Hmore : forall y,
      exec a cur c
        (fun cur' c' =>
           if length (rest cur') <? length (rest cur)
           then star_loop (exec a) greedy k fuel cur' c' else None) = Some y ->
      exists w cur' c',
        matches (if greedy then Star a else Lazy a) cur w cur'
        /\ k cur' c' = Some y).
    { intros y Hy. apply Hbody in Hy. destruct Hy as (w1 & c2 & c' & Hm & Hk).
      destruct (Nat.ltb_spec (length (rest c2)) (length (rest cur))) as [Hlt | _];
        [|discriminate].
      apply IH in Hk. destruct Hk as (w2 & c3 & c'' & Hm2 & Hk2).
      exists (w1 ++ w2), c3, c''. split; [|exact Hk2].
      assert (w1 <> []).
      { intros ->. apply matches_length in Hm. cbn in Hm. lia. }
      destruct greedy; econstructor; eassumption. }
    assert (Hstop : forall y, k cur c = Some y ->
      exists w cur' c',
        matches (if greedy then Star a else Lazy a) cur w cur'
        /\ k cur' c' = Some y).
    { intros y Hy. exists [], cur, c.
      split; [destruct greedy; constructor | exact Hy]. }
    destruct greedy.
    + destruct (exec a cur c _) as [y|] eqn:E.
      * injection H as <-. now apply Hmore.
      * now apply Hstop.
    + destruct (k cur c) as [y|] eqn:E.
      * injection H as <-. now apply Hstop.
      * now apply Hmore.
Qed.

(** The matcher is sound: a result it returns was accepted by the
    continuation at the end of a match of the pattern. *)
Lemma exec_sound {R : Type} (r : regex) :
  forall cur c (k : cursor -> caps -> option R) x,
  exec r cur c k = Some x ->
  exists w cur' c', matches r cur w cur' /\ k cur' c' = Some x.
Proof.
  induction r as [| p | a IHa b IHb | a IHa b IHb | a IHa | a IHa | n a IHa
                  | p | p | |]; intros cur c k x H.
  - exists [], cur, c. split; [constructor | exact H].
  - rewrite exec_Cls in H. destruct cur as [b [| a t]]; [discriminate|].
    cbn [rest] in H. destruct (p a) eqn:E; [|discriminate].
    exists [a], (Cursor (Some a) t), c. split; [now constructor | exact H].
  - rewrite exec_Seq in H. apply IHa in H.
    destruct H as (w1 & c2 & c' & Hm1 & H). apply IHb in H.
    destruct H as (w2 & c3 & c'' & Hm2 & H).
    exists (w1 ++ w2), c3, c''. split; [econstructor; eassumption | exact H].
  - rewrite exec_Alt in H. destruct (exec a cur c k) as [y|] eqn:E.
    + injection H as <-. apply IHa in E. destruct E as (w & c2 & c' & Hm & Hk).
      exists w, c2, c'. split; [now apply matches_alt_l | exact Hk].
    + apply IHb in H. destruct H as (w & c2 & c' & Hm & Hk).
      exists w, c2, c'. split; [now apply matches_alt_r | exact Hk].
  - exact (star_loop_sound a true k IHa _ _ _ _ H).
  - exact (star_loop_sound a false k IHa _ _ _ _ H).
  - rewrite exec_Group in H. apply IHa in H.
    destruct H as (w & c2 & c' & Hm & Hk). eexists w, c2, _.
    split; [now constructor | exact Hk].
  - rewrite exec_NotAfter in H. destruct (holds_opt p (before cur)) eqn:E;
      [discriminate|]. exists [], cur, c. split; [now constructor | exact H].
  - rewrite exec_NotBefore in H.
    destruct (holds_opt p (hd_error (rest cur))) eqn:E; [discriminate|].
    exists [], cur, c. split; [now constructor | exact H].
  - rewrite exec_WordBoundary in H. destruct (at_word_boundary cur) eqn:E;
      [|discriminate]. exists [], cur, c. split; [now constructor | exact H].
  - rewrite exec_EndOfText in H. destruct (at_end_of_text cur) eqn:E;
      [|discriminate]. exists [], cur, c. split; [now constructor | exact H].
Qed.

(** The matcher is complete: where the pattern has a match after which
    the continuation accepts, whatever the captures, it returns a
    result. *)
Lemma exec_complete {R : Type} (r : regex) (c1 : cursor) (w : text)
  (c2 : cursor) :
  matches r c1 w c2 ->
  forall fuel (k : cursor -> caps -> option R) c,
  length (rest c1) <= fuel ->
  (forall c', k c2 c' <> None) ->
  exec_fuel r fuel c1 c k <> None.
Proof.
  induction 1 as [cur | p b a t Hp | a b c1 w1 c2 w2 c3 H1 IH1 H2 IH2
                  | a b c1 w c2 H IH | a b c1 w c2 H IH
                  | a cur | a c1 w1 c2 w2 c3 H1 IH1 Hw H2 IH2
                  | a cur | a c1 w1 c2 w2 c3 H1 IH1 Hw H2 IH2
                  | n a c1 w c2 H IH | p cur Hp | p cur Hp | cur Hp | cur Hp];
    intros fuel k c Hfuel Hk; cbn [exec_fuel].
  - rewrite exec_Eps. apply Hk.
  - rewrite exec_Cls. cbn [rest]. rewrite Hp. apply Hk.
  - rewrite exec_Seq.
    assert (E1 : forall r (k' : cursor -> caps -> option R) c0,
               exec_fuel r (length (rest c1)) c1 c0 k' = exec r c1 c0 k')
      by (intros r; destruct r; reflexivity).
    rewrite <- E1. apply IH1; [lia|]. intro c'.
    assert (E2 : forall r (k' : cursor -> caps -> option R) c0,
               exec_fuel r (length (rest c2)) c2 c0 k' = exec r c2 c0 k')
      by (intros r; destruct r; reflexivity).
    rewrite <- E2. apply IH2; [lia | exact Hk].
  - rewrite exec_Alt.
    assert (E1 : forall r (k' : cursor -> caps -> option R) c0,
               exec_fuel r (length (rest c1)) c1 c0 k' = exec r c1 c0 k')
      by (intros r; destruct r; reflexivity).
    destruct (exec a c1 c k) eqn:E; [discriminate|].
    exfalso. rewrite <- E1 in E. revert E. apply IH; [lia | exact Hk].
  - rewrite exec_Alt.
    assert (E1 : forall r (k' : cursor -> caps -> option R) c0,
               exec_fuel r (length (rest c1)) c1 c0 k' = exec r c1 c0 k')
      by (intros r; destruct r; reflexivity).
    destruct (exec a c1 c k) eqn:E; [discriminate|].
    rewrite <- E1. apply IH; [lia | exact Hk].
  - destruct fuel; cbn [star_loop]; [apply Hk|].
    destruct (exec a cur c _); [discriminate | apply Hk].
  - assert (E1 : forall r (k' : cursor -> caps -> option R) c0,
               exec_fuel r (length (rest c1)) c1 c0 k' = exec r c1 c0 k')
      by (intros r; destruct r; reflexivity).
    pose proof (matches_length _ _ _ _ H1) as Hlen.
    assert (length w1 <> 0) by (destruct w1; [contradiction | discriminate]).
    destruct fuel as [| fuel]; [lia|]. cbn [star_loop].
    destruct (exec a c1 c _) eqn:E; [discriminate|]. exfalso.
    rewrite <- E1 in E. revert E. apply IH1; [lia|]. intro c'.
    destruct (Nat.ltb_spec (length (rest c2)) (length (rest c1))); [|lia].
    apply (IH2 fuel k c'); [lia | exact Hk].
  - destruct fuel; cbn [star_loop]; [apply Hk|].
    destruct (k cur c) eqn:E; [discriminate|]. exfalso. now apply (Hk c).
  - assert (E1 : forall r (k' : cursor -> caps -> option R) c0,
               exec_fuel r (length (rest c1)) c1 c0 k' = exec r c1 c0 k')
      by (intros r; destruct r; reflexivity).
    pose proof (matches_length _ _ _ _ H1) as Hlen.
    assert (length w1 <> 0) by (destruct w1; [contradiction | discriminate]).
    destruct fuel as [| fuel]; [lia|]. cbn [star_loop].
    destruct (k c1 c); [discriminate|].
    rewrite <- E1. apply IH1; [lia|]. intro c'.
    destruct (Nat.ltb_spec (length (rest c2)) (length (rest c1))); [|lia].
    apply (IH2 fuel k c'); [lia | exact Hk].
  - rewrite exec_Group.
    assert (E1 : forall r (k' : cursor -> caps -> option R) c0,
               exec_fuel r (length (rest c1)) c1 c0 k' = exec r c1 c0 k')
      by (intros r; destruct r; reflexivity).
    rewrite <- E1. apply IH; [lia|]. intro c'. apply Hk.
  - rewrite exec_NotAfter, Hp. apply Hk.
  - rewrite exec_NotBefore, Hp. apply Hk.
  - rewrite exec_WordBoundary, Hp. apply Hk.
  - rewrite exec_EndOfText, Hp. apply Hk.
Qed.

Lemma exec_complete_at {R : Type} (r : regex) (c1 : cursor) (w : text)
  (c2 : cursor) (k : cursor -> caps -> option R) (c : caps) :
  matches r c1 w c2 ->
  (forall c', k c2 c' <> None) ->
  exec r c1 c k <> None.
Proof.
  intros Hm Hk.
  replace (exec r c1 c k) with (exec_fuel r (length (rest c1)) c1 c k)
    by (destruct r; reflexivity).
  now apply (exec_complete r c1 w c2 Hm).
Qed.

(** *** Inversion of matches *)

Lemma matches_seq_inv (a b : regex) (c1 : cursor) (w : text) (c3 : cursor) :
  matches (Seq a b) c1 w c3 ->
  exists w1 c2 w2, w = w1 ++ w2 /\ matches a c1 w1 c2 /\ matches b c2 w2 c3.
Proof. inversion 1; subst. eauto 6. Qed.

Lemma matches_group_inv (n : nat) (a : regex) (c1 : cursor) (w : text)
  (c2 : cursor) :
  matches (Group n a) c1 w c2 -> matches a c1 w c2.
Proof. now inversion 1. Qed.

Lemma matches_cls_inv (p : ascii -> bool) (c1 : cursor) (w : text) (c2 : cursor) :
  matches (Cls p) c1 w c2 -> exists a, w = [a] /\ p a = true.
Proof. inversion 1; subst. eauto. Qed.

Lemma matches_chr_inv (a : ascii) (c1 : cursor) (w : text) (c2 : cursor) :
  matches (chr a) c1 w c2 -> w = [a].
Proof.
  intro H. apply matches_cls_inv in H. destruct H as (x & -> & Hx).
  apply Ascii.eqb_eq in Hx. now subst.
Qed.

Lemma matches_lit_inv (s : text) :
  forall c1 w c2, matches (lit_text s) c1 w c2 -> w = s.
Proof.
  induction s as [| a s IH]; intros c1 w c2 H.
  - now inversion H.
  - destruct s as [| b s].
    + now apply matches_chr_inv in H.
    + cbn [lit_text] in H. apply matches_seq_inv in H.
      destruct H as (w1 & c' & w2 & -> & H1 & H2).
      apply matches_chr_inv in H1. apply IH in H2. now subst.
Qed.

Lemma matches_star_cls_inv (p : ascii -> bool) (c1 : cursor) (w : text)
  (c2 : cursor) :
  matches (Star (Cls p)) c1 w c2 -> forallb p w = true.
Proof.
  intro H. remember (Star (Cls p)) as r eqn:Er. revert Er.
  induction H; intro Er; try discriminate; [reflexivity|].
  injection Er as ->. apply matches_cls_inv in H.
  destruct H as (x & -> & Hx). cbn [app forallb]. rewrite Hx. now apply IHmatches2.
Qed.

(** *** Building matches *)

Lemma matches_lit (s : text) :
  forall b t, matches (lit_text s) (Cursor b (s ++ t)) s (Cursor (last_opt s b) t).
Proof.
  induction s as [| a s IH]; intros b t; [constructor|].
  destruct s as [| x s].
  - cbn [lit_text app]. unfold chr. constructor. apply Ascii.eqb_refl.
  - change (lit_text (a :: x :: s)) with (Seq (chr a) (lit_text (x :: s))).
    replace (last_opt (a :: x :: s) b) with (last_opt (x :: s) (Some a)).
    + apply (matches_seq (chr a) (lit_text (x :: s)) _ [a] (Cursor (Some a) ((x :: s) ++ t))).
      * unfold chr. constructor. apply Ascii.eqb_refl.
      * apply IH.
    + unfold last_opt. cbn [rev]. destruct (rev s); reflexivity.
Qed.

Lemma matches_star_cls (p : ascii -> bool) (w : text) :
  forallb p w = true ->
  forall b t, matches (Star (Cls p)) (Cursor b (w ++ t)) w (Cursor (last_opt w b) t).
Proof.
  induction w as [| a w IH]; intros H b t; [constructor|].
  cbn [forallb] in H. apply andb_prop in H. destruct H as [Ha Hw].
  replace (last_opt (a :: w) b) with (last_opt w (Some a))
    by (unfold last_opt; cbn [rev]; destruct (rev w); reflexivity).
  apply (matches_star_step (Cls p) _ [a] (Cursor (Some a) (w ++ t)) w).
  - now constructor.
  - discriminate.
  - now apply IH.
Qed.

Lemma matches_chr (a : ascii) (b : option ascii) (t : text) :
  matches (chr a) (Cursor b (a :: t)) [a] (Cursor (Some a) t).
Proof. unfold chr. constructor. apply Ascii.eqb_refl. Qed.

(** A match of a pattern without look-around can be moved to any place
    where the matched text stands. *)
Lemma matches_context_free (r : regex) (c1 : cursor) (w : text) (c2 : cursor) :
  matches r c1 w c2 -> context_free r = true ->
  forall b t, matches r (Cursor b (w ++ t)) w (Cursor (last_opt w b) t).
Proof.
  induction 1; cbn [context_free]; intros Hcf b' t'; try discriminate.
  - constructor.
  - now constructor.
  - apply andb_prop in Hcf. destruct Hcf as [Ha Hb].
    rewrite <- app_assoc.
    replace (last_opt (w1 ++ w2) b') with (last_opt w2 (last_opt w1 b')).
    + eapply matches_seq; [apply IHmatches1 | apply IHmatches2]; assumption.
    + unfold last_opt. rewrite rev_app_distr. destruct (rev w2); reflexivity.
  - apply andb_prop in Hcf. apply matches_alt_l. now apply IHmatches.
  - apply andb_prop in Hcf. apply matches_alt_r. now apply IHmatches.
  - constructor.
  - rewrite <- app_assoc.
    replace (last_opt (w1 ++ w2) b') with (last_opt w2 (last_opt w1 b')).
    + eapply matches_star_step; [apply IHmatches1 | | apply IHmatches2]; assumption.
    + unfold last_opt. rewrite rev_app_distr. destruct (rev w2); reflexivity.
  - constructor.
  - rewrite <- app_assoc.
    replace (last_opt (w1 ++ w2) b') with (last_opt w2 (last_opt w1 b')).
    + eapply matches_lazy_step; [apply IHmatches1 | | apply IHmatches2]; assumption.
    + unfold last_opt. rewrite rev_app_distr. destruct (rev w2); reflexivity.
  - constructor. now apply IHmatches.
Qed.

(** *** Matches found by the scan *)

(** What one attempt finds is a match of the pattern, and the count it
    returns is the length of the matched text. *)
Lemma exec_at_matches (r : regex) (prev : option ascii) (u : text)
  (n : nat) (c : caps) :
  exec_at r prev u = Some (n, c) ->
  exists w after,
    u = w ++ after /\ n = length w
    /\ matches r (Cursor prev u) w (Cursor (last_opt w prev) after).
Proof.
  unfold exec_at. intro H. apply exec_sound in H.
  destruct H as (w & [b' after] & c' & Hm & Hk). cbn beta in Hk.
  injection Hk as <- _.
  destruct (matches_rest _ _ _ _ Hm) as [Hrest Hbefore]. cbn [rest before] in *.
  exists w, after. subst u b'. repeat split; [|exact Hm].
  rewrite length_app. lia.
Qed.

Lemma split_tokens_odd (toks : list token) :
  forall acc i span,
  nth_error (split_tokens toks acc) (2 * i + 1) = Some span ->
  exists m, In (Hit m) toks /\ span = m_text m.
Proof.
  induction toks as [| [a | m] toks IH]; intros acc i span H.
  - cbn [split_tokens] in H. replace (2 * i + 1) with (S (2 * i)) in H by lia.
    cbn [nth_error] in H. destruct (2 * i) in H; discriminate.
  - cbn [split_tokens] in H. destruct (IH _ _ _ H) as (m & Hin & Hm).
    exists m. split; [now right | exact Hm].
  - cbn [split_tokens] in H. destruct i as [| i].
    + cbn in H. injection H as <-. exists m. split; [now left | reflexivity].
    + replace (2 * S i + 1) with (S (S (2 * i + 1))) in H by lia.
      cbn [nth_error] in H. destruct (IH _ _ _ H) as (m' & Hin & Hm).
      exists m'. split; [now right | exact Hm].
Qed.

(** The parts of odd index of a split are texts the pattern matches,
    each at its place in the subject. *)
Lemma split_odd_matches (r : regex) (t : text) (i : nat) (span : text) :
  nth_error (split r t) (2 * i + 1) = Some span ->
  exists pre after c,
    t = pre ++ span ++ after
    /\ exec_at r (last_opt pre None) (span ++ after) = Some (length span, c).
Proof.
  intro H. apply split_tokens_odd in H. destruct H as (m & Hin & ->).
  apply in_finditer in Hin.
  destruct (finditer_sound _ _ _ Hin) as (n & c & Hle & Hexec & _ & Htext).
  destruct (exec_at_matches _ _ _ _ _ Hexec) as (w & after & Hu & Hn & _).
  exists (firstn (m_start m) t), after, c.
  assert (Hw : m_text m = w).
  { rewrite Htext, Hu, Hn. rewrite firstn_app, Nat.sub_diag, firstn_O, app_nil_r.
    apply firstn_all. }
  rewrite Hw. split.
  - rewrite <- Hu. symmetry. apply firstn_skipn.
  - rewrite <- Hu, <- Hn.
    replace (last_opt (firstn (m_start m) t) None)
      with (char_before t (m_start m)); [exact Hexec|].
    pose proof (char_before_app (firstn (m_start m) t) (skipn (m_start m) t))
      as Hc.
    rewrite firstn_skipn, firstn_length_le in Hc by exact Hle. exact Hc.
Qed.

(** A non-greedy run of any characters stops at the first place where
    the continuation accepts. *)
Lemma exec_lazy_first {R : Type} (p : ascii -> bool) (t : text) :
  forall (b : option ascii) (c : caps) (k : cursor -> caps -> option R) x,
  exec (Lazy (Cls p)) (Cursor b t) c k = Some x ->
  exists w t',
    t = w ++ t'
    /\ k (Cursor (last_opt w b) t') c = Some x
    /\ forall w1 w2, w = w1 ++ w2 -> w2 <> [] ->
       k (Cursor (last_opt w1 b) (w2 ++ t')) c = None.
Proof.
  induction t as [| a t IH]; intros b c k x H; rewrite exec_lazy_cls in H.
  - destruct (k (Cursor b []) c) eqn:E; [|discriminate].
    injection H as <-. exists [], []. repeat split; [exact E|].
    intros w1 w2 Hw. destruct w1, w2; try discriminate. contradiction.
  - destruct (k (Cursor b (a :: t)) c) eqn:E.
    + injection H as <-. exists [], (a :: t). repeat split; [exact E|].
      intros w1 w2 Hw. destruct w1, w2; try discriminate. contradiction.
    + destruct (p a); [|discriminate]. apply IH in H.
      destruct H as (w & t' & -> & Hk & Hmin).
      exists (a :: w), t'. repeat split.
      * replace (last_opt (a :: w) b) with (last_opt w (Some a))
          by (unfold last_opt; cbn [rev]; destruct (rev w); reflexivity).
        exact Hk.
      * intros w1 w2 Hw Hw2. destruct w1 as [| a' w1].
        -- cbn [app] in Hw. subst w2. exact E.
        -- injection Hw as <- Hw.
           replace (last_opt (a :: w1) b) with (last_opt w1 (Some a))
             by (unfold last_opt; cbn [rev]; destruct (rev w1); reflexivity).
           now apply Hmin.
Qed.

(** ** Line comments *)

Lemma exec_line_comment_tail (L : nat) (u : text) :
  forall b : option ascii,
  exec (Star dot) (Cursor b u) []
    (fun cur' c' =>
       exec (Alt (chr nl) EndOfText) cur' c'
         (fun cur c => Some (L - length (rest cur), c)))
  = Some (L - (length u - comment_length u), []).
Proof.
  induction u as [| x u IH]; intro b.
  - reflexivity.
  - unfold dot at 1. rewrite exec_star_cls. fold dot. cbn [comment_length].
    destruct (Ascii.eqb_spec x nl) as [-> | Hx].
    + cbn. do 2 f_equal. lia.
    + cbn [negb]. rewrite IH. reflexivity.
Qed.

Lemma exec_at_line_comment (prev : option ascii) (t : text) :
  exec_at RE_LINE_COMMENT prev t =
  match t with
  | a :: u =>
      if (Ascii.eqb a percent && negb (holds_opt (Ascii.eqb backslash) prev))%bool
      then Some (S (comment_length u), [])
      else None
  | [] => None
  end.
Proof.
  unfold exec_at, RE_LINE_COMMENT. rewrite !seq_cons. cbn [seq].
  rewrite exec_Seq, exec_NotAfter. cbn [before].
  destruct (holds_opt (Ascii.eqb backslash) prev).
  - destruct t as [| a u]; [reflexivity|]. now rewrite andb_false_r.
  - rewrite exec_Seq. unfold chr at 1. rewrite exec_Cls. cbn [rest].
    destruct t as [| a u]; [reflexivity|].
    rewrite andb_true_r. rewrite (Ascii.eqb_sym a percent).
    change (Ascii.eqb "%" a) with (Ascii.eqb percent a).
    destruct (Ascii.eqb percent a); [|reflexivity].
    rewrite exec_Seq, exec_line_comment_tail.
    pose proof (comment_length_le u). cbn [length]. do 2 f_equal. lia.
Qed.

Lemma strip_scan_nil (prev : option ascii) (skip : nat) :
  strip_scan prev [] skip = [].
Proof.
  unfold strip_scan. cbn [scan]. destruct skip; [|reflexivity].
  rewrite exec_at_line_comment. reflexivity.
Qed.

Lemma strip_scan_skip (prev : option ascii) (a : ascii) (t : text) (k : nat) :
  strip_scan prev (a :: t) (S k) = strip_scan (Some a) t k.
Proof. reflexivity. Qed.

Lemma strip_scan_cons (prev : option ascii) (a : ascii) (t : text) :
  strip_scan prev (a :: t) 0 =
  if (Ascii.eqb a percent && negb (holds_opt (Ascii.eqb backslash) prev))%bool
  then strip_scan (Some a) t (comment_length t)
  else a :: strip_scan (Some a) t 0.
Proof.
  unfold strip_scan. cbn [scan]. rewrite exec_at_line_comment.
  destruct (Ascii.eqb a percent && negb (holds_opt (Ascii.eqb backslash) prev))%bool;
    reflexivity.
Qed.

Lemma strip_line_comments_scan (t : text) :
  strip_line_comments t = strip_scan None t 0.
Proof.
  unfold strip_line_comments, strip_scan. rewrite sub_render.
  apply render_scan_total.
Qed.

(** A comment in progress drops the next [length u] characters. *)
Lemma strip_scan_drop (u : text) :
  forall prev rest,
  strip_scan prev (u ++ rest) (length u) = strip_scan (last_opt u prev) rest 0.
Proof.
  induction u as [| a u IH]; intros prev rest; [reflexivity|].
  cbn [app length]. rewrite strip_scan_skip, IH. f_equal.
  unfold last_opt. cbn [rev]. destruct (rev u); reflexivity.
Qed.

(** The scan only asks of the character before it whether it is a
    backslash. *)
Lemma strip_scan_prev (prev prev' : option ascii) (t : text) :
  holds_opt (Ascii.eqb backslash) prev = holds_opt (Ascii.eqb backslash) prev' ->
  strip_scan prev t 0 = strip_scan prev' t 0.
Proof.
  intro H. destruct t as [| a t].
  - now rewrite !strip_scan_nil.
  - now rewrite !strip_scan_cons, H.
Qed.

Lemma comment_length_no_nl (c rest : text) :
  ~ In nl c -> comment_length (c ++ nl :: rest) = length (c ++ [nl]).
Proof.
  induction c as [| a c IH]; intro H.
  - reflexivity.
  - cbn [app comment_length length].
    destruct (Ascii.eqb_spec a nl) as [-> | _]; [exfalso; apply H; now left|].
    rewrite IH; [reflexivity|]. intro Hin. apply H. now right.
Qed.

Lemma comment_length_to_end (c : text) :
  ~ In nl c -> comment_length c = length c.
Proof.
  induction c as [| a c IH]; intro H; [reflexivity|].
  cbn [comment_length length].
  destruct (Ascii.eqb_spec a nl) as [-> | _]; [exfalso; apply H; now left|].
  rewrite IH; [reflexivity|]. intro Hin. apply H. now right.
Qed.

(** Text in which every marker is escaped is copied. *)
Lemma strip_scan_escaped (pre : text) :
  forall prev rest,
  (forall i, nth_error pre i = Some percent ->
             match i with
             | 0 => prev = Some backslash
             | S j => nth_error pre j = Some backslash
             end) ->
  strip_scan prev (pre ++ rest) 0 = pre ++ strip_scan (last_opt pre prev) rest 0.
Proof.
  induction pre as [| a pre IH]; intros prev rest H; [reflexivity|].
  cbn [app]. rewrite strip_scan_cons.
  replace (Ascii.eqb a percent && negb (holds_opt (Ascii.eqb backslash) prev))%bool
    with false.
  - rewrite IH.
    + do 2 f_equal. unfold last_opt. cbn [rev]. destruct (rev pre) eqn:E.
      * reflexivity.
      * reflexivity.
    + intros [| j] Hi.
      * specialize (H 1 Hi). cbn in H. exact H.
      * exact (H (S (S j)) Hi).
  - symmetry. destruct (Ascii.eqb_spec a percent) as [-> | _]; [|reflexivity].
    specialize (H 0 eq_refl). cbn in H. subst prev. reflexivity.
Qed.

Lemma last_opt_no_backslash (pre : text) :
  no_trailing_backslash pre ->
  holds_opt (Ascii.eqb backslash) (last_opt pre None) = false.
Proof.
  intro H. unfold last_opt. destruct (rev pre) as [| a r] eqn:E; [reflexivity|].
  cbn [holds_opt]. destruct (Ascii.eqb_spec backslash a) as [<- | _]; [|reflexivity].
  exfalso. apply (H (rev r)).
  rewrite <- (rev_involutive pre), E. reflexivity.
Qed.

(** The first unescaped marker of a text starts a comment. *)
Lemma strip_first_comment (pre u : text) :
  escaped_only pre -> no_trailing_backslash pre ->
  strip_scan None (pre ++ percent :: u) 0
  = pre ++ strip_scan (Some percent) u (comment_length u).
Proof.
  intros Hesc Hlast. rewrite strip_scan_escaped.
  - f_equal. rewrite strip_scan_cons, Ascii.eqb_refl.
    now rewrite last_opt_no_backslash.
  - intros i Hi. destruct (Hesc i Hi) as [j [-> Hj]]. exact Hj.
Qed.

Lemma comment_length_app_nl (h rest : text) :
  comment_length (h ++ nl :: rest) = comment_length (h ++ [nl]).
Proof.
  induction h as [| a h IH]; [reflexivity|].
  cbn [app comment_length]. now rewrite IH.
Qed.

(** After a newline no comment is in progress: the scan of a text splits
    at each of its newlines. *)
Lemma strip_scan_resync (h rest : text) :
  forall prev skip,
  skip <= comment_length (h ++ nl :: rest) ->
  strip_scan prev (h ++ nl :: rest) skip
  = strip_scan prev (h ++ [nl]) skip ++ strip_scan (Some nl) rest 0.
Proof.
  induction h as [| a h IH]; intros prev skip Hskip.
  - cbn [app comment_length] in *. rewrite Ascii.eqb_refl in Hskip.
    destruct skip as [| skip].
    + rewrite !strip_scan_cons. change (Ascii.eqb nl percent) with false.
      cbn [andb]. now rewrite strip_scan_nil.
    + rewrite !strip_scan_skip. assert (skip = 0) as -> by lia.
      now rewrite strip_scan_nil.
  - cbn [app] in *. destruct skip as [| skip].
    + rewrite !strip_scan_cons.
      destruct (Ascii.eqb a percent && negb (holds_opt (Ascii.eqb backslash) prev))%bool.
      * rewrite (comment_length_app_nl h rest).
        apply IH. rewrite (comment_length_app_nl h rest). lia.
      * cbn [app]. f_equal. apply IH. lia.
    + rewrite !strip_scan_skip. apply IH.
      cbn [comment_length] in Hskip. destruct (Ascii.eqb a nl); lia.
Qed.

Lemma strip_comment_to_end (pre c : text) :
  escaped_only pre -> no_trailing_backslash pre -> ~ In nl c ->
  strip_scan None (pre ++ percent :: c) 0 = pre.
Proof.
  intros Hesc Hlast Hc. rewrite strip_first_comment by assumption.
  rewrite comment_length_to_end by assumption.
  rewrite <- (app_nil_r c) at 1. rewrite strip_scan_drop, strip_scan_nil.
  apply app_nil_r.
Qed.

Lemma strip_comment_line (pre c post : text) :
  escaped_only pre -> no_trailing_backslash pre -> ~ In nl c ->
  strip_scan None (pre ++ percent :: c ++ nl :: post) 0
  = pre ++ strip_scan None post 0.
Proof.
  intros Hesc Hlast Hc. rewrite strip_first_comment by assumption.
  rewrite comment_length_no_nl by assumption.
  change (c ++ nl :: post) with (c ++ [nl] ++ post). rewrite app_assoc.
  rewrite strip_scan_drop. f_equal. apply strip_scan_prev.
  unfold last_opt. rewrite rev_app_distr. reflexivity.
Qed.

(** C10.  When the first unescaped marker of a line starts a comment, the
    removal takes the comment together with the newline that ends the
    line: what precedes the marker is followed at once by what the
    removal leaves of the text after that newline, and so by the first
    character of the next line when that is not a marker itself.  [head]
    is the text before the line, empty or ending in a newline. *)
Theorem line_comment_takes_newline (head line c post : text) :
  head = [] \/ (exists h, head = h ++ [nl]) ->
  escaped_only line -> no_trailing_backslash line -> ~ In nl c ->
  strip_line_comments (head ++ line ++ percent :: c ++ nl :: post)
  = strip_line_comments head ++ line ++ strip_line_comments post
  /\ forall x post', post = x :: post' -> x <> percent ->
     strip_line_comments (head ++ line ++ percent :: c ++ nl :: post)
     = strip_line_comments head ++ line ++ x :: strip_scan (Some x) post' 0.
Proof.
  intros Hhead Hesc Hlast Hc.
  assert (Heq : strip_line_comments (head ++ line ++ percent :: c ++ nl :: post)
                = strip_line_comments head ++ line ++ strip_line_comments post).
  { rewrite !strip_line_comments_scan. destruct Hhead as [-> | [h ->]].
    - rewrite strip_scan_nil. cbn [app]. now apply strip_comment_line.
    - rewrite <- app_assoc. cbn [app]. rewrite strip_scan_resync.
      + f_equal.
        rewrite (@strip_scan_prev (Some nl) None) by reflexivity.
        now apply strip_comment_line.
      + lia. }
  split; [exact Heq|].
  intros x post' -> Hx. rewrite Heq. do 2 f_equal.
  rewrite strip_line_comments_scan, strip_scan_cons.
  destruct (Ascii.eqb_spec x percent); [contradiction|reflexivity].
Qed.

Lemma hd_error_skipn (t : text) : forall i, hd_error (skipn i t) = nth_error t i.
Proof.
  induction t as [| a t IH]; intros [| i]; try reflexivity. cbn. apply IH.
Qed.

(** C7.  On a line with an escaped marker [\%] and then a first unescaped
    marker, the removal takes the unescaped marker and what follows it and
    nothing else: the escaped marker and all the text before the
    unescaped one stay.  And no comment the removal finds, in any text,
    starts at a marker that follows a backslash. *)
Theorem line_comment_escaped_marker :
  (forall a b c : text,
      escaped_only (a ++ str "\%" ++ b) ->
      no_trailing_backslash (a ++ str "\%" ++ b) ->
      ~ In nl c ->
      strip_line_comments (a ++ str "\%" ++ b ++ percent :: c)
      = a ++ str "\%" ++ b)
  /\ (forall (t : text) (m : rmatch),
      In m (finditer RE_LINE_COMMENT t) ->
      nth_error t (m_start m) = Some percent
      /\ char_before t (m_start m) <> Some backslash).
Proof.
  split.
  - intros a b c Hesc Hlast Hc. rewrite strip_line_comments_scan.
    replace (a ++ str "\%" ++ b ++ percent :: c)
      with ((a ++ str "\%" ++ b) ++ percent :: c)
      by (now rewrite <- !app_assoc).
    now apply strip_comment_to_end.
  - intros t m Hin.
    destruct (finditer_sound _ _ _ Hin) as (n & c & _ & Hexec & _).
    rewrite exec_at_line_comment in Hexec.
    rewrite <- hd_error_skipn.
    destruct (skipn (m_start m) t) as [| x u]; [discriminate|].
    destruct (Ascii.eqb_spec x percent) as [-> | _]; [|discriminate].
    cbn [andb] in Hexec. split; [reflexivity|].
    intro Hb. rewrite Hb in Hexec. discriminate.
Qed.

Lemma escaped_only_check (t : text) :
  (forall i, i < length t -> nth_error t i = Some percent ->
             exists j, i = S j /\ nth_error t j = Some backslash) ->
  escaped_only t.
Proof.
  intros H i Hi. apply H; [|exact Hi].
  apply nth_error_Some. rewrite Hi. discriminate.
Qed.

Lemma no_trailing_backslash_check (t : text) :
  hd_error (rev t) <> Some backslash -> no_trailing_backslash t.
Proof.
  intros H u ->. apply H. now rewrite rev_app_distr.
Qed.

(** The line ["50\% of x % note"] loses [% note] only; in ["a\%b%c"] the
    one comment starts at offset 4. *)
Lemma line_comment_escaped_marker_witness :
  strip_line_comments (str "50\% of x % note") = str "50\% of x "
  /\ map m_start (finditer RE_LINE_COMMENT (str "a\%b%c")) = [4].
Proof.
  split.
  - refine (proj1 line_comment_escaped_marker (str "50") (str " of x ")
              (str " note") _ _ _).
    + apply escaped_only_check. intros i Hi.
      do 10 (destruct i as [| i]; [try discriminate; eauto|]).
      cbn in Hi. lia.
    + apply no_trailing_backslash_check. discriminate.
    + intros [H | [H | [H | [H | [H | []]]]]]; discriminate.
  - reflexivity.
Defined.

(** In ["a" LF "x\%y %note" LF "z"] the comment goes with its newline:
    ["x\%y "] is followed at once by ["z"]. *)
Lemma line_comment_takes_newline_witness :
  strip_line_comments (str "a" ++ [nl] ++ str "x\%y %note" ++ [nl] ++ str "z")
  = str "a" ++ [nl] ++ str "x\%y z".
Proof.
  refine (proj1 (line_comment_takes_newline (str "a" ++ [nl]) (str "x\%y ")
                   (str "note") (str "z") _ _ _ _)).
  - right. now exists (str "a").
  - apply escaped_only_check. intros i Hi.
    do 5 (destruct i as [| i]; [try discriminate; eauto|]).
    cbn in Hi. lia.
  - apply no_trailing_backslash_check. discriminate.
  - intros [H | [H | [H | [H | []]]]]; discriminate.
Defined.

(** ** The recursive merger on a cycle *)

Lemma walk_detour (rest : path) :
  walk [cycle_p; cycle_project] cycle_a (detour ++ rest)
  = walk [cycle_p; cycle_project] cycle_a rest.
Proof. reflexivity. Qed.

Lemma walk_detours (k : nat) (rest : path) :
  walk [cycle_p; cycle_project] cycle_a (concat (repeat detour k) ++ rest)
  = walk [cycle_p; cycle_project] cycle_a rest.
Proof.
  induction k as [| k IH]; [reflexivity|].
  cbn [repeat concat]. rewrite <- app_assoc, walk_detour. exact IH.
Qed.

Lemma resolve_under_a (rest : path) :
  resolve cycle_project (str "p" :: str "a" :: rest)
  = walk [cycle_p; cycle_project] cycle_a rest.
Proof. reflexivity. Qed.

Lemma read_path_x (k : nat) :
  read_file cycle_project (path_x k) = Content (str "\input{../b/y}").
Proof.
  unfold read_file, path_x. cbn [app]. now rewrite resolve_under_a, walk_detours.
Qed.

Lemma read_path_y (k : nat) :
  read_file cycle_project (path_y k) = Content (str "\input{../a/x}").
Proof.
  unfold read_file, path_y. cbn [app]. now rewrite resolve_under_a, walk_detours.
Qed.

Lemma exists_path_x (k : nat) : path_exists cycle_project (path_x k) = true.
Proof.
  unfold path_exists, path_x. cbn [app]. now rewrite resolve_under_a, walk_detours.
Qed.

Lemma exists_path_y (k : nat) : path_exists cycle_project (path_y k) = true.
Proof.
  unfold path_exists, path_y. cbn [app]. now rewrite resolve_under_a, walk_detours.
Qed.

Lemma removelast_snoc {A : Type} (l : list A) (x : A) : removelast (l ++ [x]) = l.
Proof. apply removelast_last. Qed.

Lemma parent_path_x (k : nat) :
  path_parent (path_x k) = [str "p"; str "a"] ++ concat (repeat detour k).
Proof.
  unfold path_parent, path_x. rewrite app_assoc. apply removelast_snoc.
Qed.

Lemma parent_path_y (k : nat) :
  path_parent (path_y k)
  = [str "p"; str "a"] ++ concat (repeat detour k) ++ [str ".."; str "b"].
Proof.
  unfold path_parent, path_y.
  change [str ".."; str "b"; str "y.tex"] with ([str ".."; str "b"] ++ [str "y.tex"]).
  rewrite !app_assoc. rewrite removelast_snoc. reflexivity.
Qed.

Lemma length_path_x (k : nat) : length (path_x k) = 3 + 4 * k.
Proof.
  unfold path_x. rewrite !length_app. cbn [length].
  assert (length (concat (repeat detour k)) = 4 * k).
  { induction k as [| k IH]; [reflexivity|]. cbn [repeat concat].
    rewrite length_app, IH. cbn [length detour]. lia. }
  lia.
Qed.

Lemma length_path_y (k : nat) : length (path_y k) = 5 + 4 * k.
Proof.
  unfold path_y. rewrite !length_app. cbn [length].
  assert (length (concat (repeat detour k)) = 4 * k).
  { induction k as [| k IH]; [reflexivity|]. cbn [repeat concat].
    rewrite length_app, IH. cbn [length detour]. lia. }
  lia.
Qed.

Lemma path_y_next (k : nat) :
  (([str "p"; str "a"] ++ concat (repeat detour k) ++ [str ".."; str "b"])
   ++ [str ".."; str "a"; str "x.tex"])
  = path_x (S k).
Proof.
  unfold path_x.
  assert (H : forall k, concat (repeat detour (S k))
                        = concat (repeat detour k) ++ detour).
  { clear. induction k as [| k IH]; [reflexivity|].
    cbn [repeat concat] in *. rewrite IH at 1. now rewrite app_assoc. }
  rewrite H. rewrite <- !app_assoc. reflexivity.
Qed.

(** A path longer than all processed paths is not among them. *)
Lemma path_mem_longer (p : path) (processed : list path) :
  (forall q, In q processed -> length q < length p) ->
  path_mem p processed = false.
Proof.
  intro H. unfold path_mem. destruct (in_dec path_eq_dec p processed) as [Hin|];
    [|reflexivity].
  specialize (H p Hin). lia.
Qed.

Lemma is_relative_to_p (rest : path) :
  is_relative_to (str "p" :: rest) [str "p"] = true.
Proof. reflexivity. Qed.

(** One round of the cycle: the merge of [a/x.tex] calls that of
    [b/y.tex] under a longer path, which calls that of [a/x.tex] under a
    path longer still. *)
Lemma merge_cycle_overflows (limit : nat) :
  forall (k : nat) (processed : list path),
  ((forall q, In q processed -> length q < length (path_x k)) ->
   merge_tex_files limit cycle_project (path_x k) [str "p"] processed
   = RecursionError)
  /\ ((forall q, In q processed -> length q < length (path_y k)) ->
      merge_tex_files limit cycle_project (path_y k) [str "p"] processed
      = RecursionError).
Proof.
  induction limit as [| limit IH]; intros k processed; [split; reflexivity|].
  split; intro Hshort; cbn [merge_tex_files];
    rewrite (path_mem_longer _ _ Hshort).
  - rewrite read_path_x.
    change (strip_comments (str "\input{../b/y}")) with (str "\input{../b/y}").
    change (tokens RE_INPUT (str "\input{../b/y}"))
      with [Hit (Match 0 14 (str "\input{../b/y}") [(1, (7, 13))])].
    cbn [sub_state]. unfold replace_input at 1.
    change (included_filename (str "\input{../b/y}")
              (Match 0 14 (str "\input{../b/y}") [(1, (7, 13))]))
      with (str "../b/y.tex").
    unfold final_path. rewrite parent_path_x.
    change (path_join ([str "p"; str "a"] ++ concat (repeat detour k))
              (str "../b/y.tex"))
      with (([str "p"; str "a"] ++ concat (repeat detour k))
            ++ [str ".."; str "b"; str "y.tex"]).
    rewrite <- app_assoc. fold (path_y k). rewrite !exists_path_y.
    unfold path_y at 1. cbn [app]. rewrite is_relative_to_p.
    fold (path_y k).
    rewrite (proj2 (IH k (path_x k :: processed))); [reflexivity|].
    intros q [<- | Hq].
    + rewrite length_path_x, length_path_y. lia.
    + specialize (Hshort q Hq). rewrite length_path_x in Hshort.
      rewrite length_path_y. lia.
  - rewrite read_path_y.
    change (strip_comments (str "\input{../a/x}")) with (str "\input{../a/x}").
    change (tokens RE_INPUT (str "\input{../a/x}"))
      with [Hit (Match 0 14 (str "\input{../a/x}") [(1, (7, 13))])].
    cbn [sub_state]. unfold replace_input at 1.
    change (included_filename (str "\input{../a/x}")
              (Match 0 14 (str "\input{../a/x}") [(1, (7, 13))]))
      with (str "../a/x.tex").
    unfold final_path. rewrite parent_path_y.
    change (path_join ([str "p"; str "a"] ++ concat (repeat detour k)
                       ++ [str ".."; str "b"]) (str "../a/x.tex"))
      with (([str "p"; str "a"] ++ concat (repeat detour k)
             ++ [str ".."; str "b"]) ++ [str ".."; str "a"; str "x.tex"]).
    rewrite path_y_next. rewrite !exists_path_x.
    unfold path_x at 1. cbn [app]. rewrite is_relative_to_p.
    fold (path_x (S k)).
    rewrite (proj1 (IH (S k) (path_y k :: processed))); [reflexivity|].
    intros q [<- | Hq].
    + rewrite length_path_x, length_path_y. lia.
    + specialize (Hshort q Hq). rewrite length_path_y in Hshort.
      rewrite length_path_x. lia.
Qed.

(** A path that is in the set is answered by the placeholder, without
    reading the file. *)
Lemma merge_skips_processed (limit : nat) (fs : node)
  (tex_file_path project_root : path) (processed_files : list path) :
  In tex_file_path processed_files ->
  merge_tex_files (S limit) fs tex_file_path project_root processed_files
  = Ok (note_skipping tex_file_path, processed_files).
Proof.
  intro H. cbn [merge_tex_files]. unfold path_mem.
  now destruct (in_dec path_eq_dec tex_file_path processed_files).
Qed.

(** C4 (the code at the failing input).  In [cycle_project] the files
    [a/x.tex] and [b/y.tex] include each other by paths relative to
    their own directories.  Each inclusion is met under a path with more
    [..] components than all paths in the set, so no path is ever found
    in the set: whatever the recursion limit, the merge of [main.tex]
    exceeds it. *)
Theorem merge_cycle_never_returns (limit : nat) :
  merge_tex_files limit cycle_project [str "p"; str "main.tex"] [str "p"] []
  = RecursionError.
Proof.
  destruct limit as [| limit]; [reflexivity|].
  cbn [merge_tex_files].
  change (path_mem [str "p"; str "main.tex"] []) with false. cbv iota.
  change (read_file cycle_project [str "p"; str "main.tex"])
    with (Content (str "\input{a/x}")). cbv iota.
  change (strip_comments (str "\input{a/x}")) with (str "\input{a/x}").
  change (tokens RE_INPUT (str "\input{a/x}"))
    with [Hit (Match 0 11 (str "\input{a/x}") [(1, (7, 10))])].
  cbn [sub_state]. unfold replace_input at 1.
  change (included_filename (str "\input{a/x}")
            (Match 0 11 (str "\input{a/x}") [(1, (7, 10))]))
    with (str "a/x.tex").
  unfold final_path.
  change (path_join (path_parent [str "p"; str "main.tex"]) (str "a/x.tex"))
    with (path_x 0).
  rewrite !exists_path_x.
  change (is_relative_to (path_x 0) [str "p"]) with true. cbv iota.
  assert (E : merge_tex_files limit cycle_project (path_x 0) [str "p"]
                (@cons path [str "p"; str "main.tex"] nil) = RecursionError).
  { apply (proj1 (merge_cycle_overflows limit 0 [[str "p"; str "main.tex"]])).
    intros q [<- | []]. rewrite length_path_x. cbn. lia. }
  rewrite E. reflexivity.
Qed.

(** ** The shape of the merged text *)

Lemma escaped_after_cons (prev : option ascii) (a : ascii) (t : text) :
  escaped_after prev (a :: t)
  <-> (a = percent -> prev = Some backslash) /\ escaped_after (Some a) t.
Proof.
  unfold escaped_after. split.
  - intro H. split.
    + intros ->. exact (H 0 eq_refl).
    + intros [| j] Hi.
      * specialize (H 1 Hi). cbn in H. congruence.
      * exact (H (S (S j)) Hi).
  - intros [H0 H] [| [| j]] Hi.
    + cbn in Hi. injection Hi as ->. now apply H0.
    + specialize (H 0 Hi). cbn in *. congruence.
    + exact (H (S j) Hi).
Qed.

Lemma escaped_after_nil (prev : option ascii) : escaped_after prev [].
Proof. intros [| i] H; discriminate. Qed.

Lemma escaped_only_after (t : text) : escaped_only t <-> escaped_after None t.
Proof.
  unfold escaped_only, escaped_after. split; intros H i Hi; specialize (H i Hi).
  - destruct H as (j & -> & Hj). exact Hj.
  - destruct i as [| j]; [discriminate | eauto].
Qed.

(** After a character that is not a backslash, a text whose markers are
    escaped is one whose markers are escaped in the text itself. *)
Lemma escaped_after_unescaped (prev : option ascii) (t : text) :
  prev <> Some backslash -> escaped_after prev t -> escaped_only t.
Proof.
  intros Hp H. apply escaped_only_after. intros [| j] Hi.
  - now specialize (H 0 Hi).
  - exact (H (S j) Hi).
Qed.

Lemma escaped_after_weaken (prev : option ascii) (t : text) :
  escaped_after None t -> escaped_after prev t.
Proof.
  intros H [| j] Hi; [now specialize (H 0 Hi) | exact (H (S j) Hi)].
Qed.

Lemma escaped_after_app (prev : option ascii) (a b : text) :
  escaped_after prev a -> escaped_after (last_opt a prev) b ->
  escaped_after prev (a ++ b).
Proof.
  revert prev. induction a as [| x a IH]; intros prev Ha Hb; [exact Hb|].
  cbn [app]. apply escaped_after_cons. apply escaped_after_cons in Ha.
  destruct Ha as [H0 Ha]. split; [exact H0|]. apply IH; [exact Ha|].
  replace (last_opt a (Some x)) with (last_opt (x :: a) prev); [exact Hb|].
  unfold last_opt. cbn [rev]. destruct (rev a); reflexivity.
Qed.

Lemma escaped_only_app (a b : text) :
  escaped_only a -> escaped_only b -> escaped_only (a ++ b).
Proof.
  rewrite !escaped_only_after. intros Ha Hb.
  apply escaped_after_app; [exact Ha | now apply escaped_after_weaken].
Qed.

Lemma last_opt_cons (a : ascii) (l : text) (prev : option ascii) :
  last_opt (a :: l) prev = last_opt l (Some a).
Proof. unfold last_opt. cbn [rev]. destruct (rev l); reflexivity. Qed.

Lemma no_match_nil (r : regex) : ends_unescaped r -> no_match r [].
Proof.
  intros Hend p1 w p2 H (c1 & c2 & Hm).
  destruct (Hend _ _ _ Hm) as (w' & x & -> & _).
  destruct p1; [|discriminate]. destruct w'; discriminate.
Qed.

(** What an attempt that succeeds tells, for a pattern whose matches end
    unescaped. *)
Lemma exec_at_ends (r : regex) (prev : option ascii) (t : text) (n : nat)
  (c : caps) :
  ends_unescaped r ->
  exec_at r prev t = Some (n, c) ->
  n <> 0 /\ n <= length t /\ last_opt (firstn n t) prev <> Some backslash.
Proof.
  intros Hend H. apply exec_at_matches in H.
  destruct H as (w & after & -> & -> & Hm).
  destruct (Hend _ _ _ Hm) as (w' & x & -> & Hx).
  rewrite firstn_app, Nat.sub_diag, firstn_O, app_nil_r, firstn_all.
  rewrite !length_app. cbn [length]. repeat split; try lia.
  rewrite last_opt_snoc. congruence.
Qed.

(** The scan with a stateful replacement, piece by piece: the output
    begins with the characters up to the next match, in which no marker
    is unescaped and nothing matches, and goes on with replacements and
    further such pieces.  [M] is what is to hold of the output: it holds
    of the empty text, of a piece before a text it holds of, and of a
    replacement before a text it holds of. *)
Lemma sub_state_pieces {St : Type} (r : regex) (M : text -> Prop)
  (repl : rmatch -> St -> outcome (text * St)) (total : nat) :
  context_free r = true ->
  ends_unescaped r ->
  M [] ->
  (forall piece rest, escaped_only piece -> no_match r piece -> M rest ->
                      M (piece ++ rest)) ->
  (forall m st x st' rest, repl m st = Ok (x, st') -> M rest -> M (x ++ rest)) ->
  forall (t : text) (prev : option ascii) (skip : nat) (st : St)
         (out : text) (st' : St),
  escaped_after prev t ->
  skip <= length t ->
  (skip <> 0 -> last_opt (firstn skip t) prev <> Some backslash) ->
  sub_state repl (scan r total prev t skip) st = Ok (out, st') ->
  exists piece rest tail,
    out = piece ++ rest /\ M rest
    /\ escaped_after (last_opt (firstn skip t) prev) piece
    /\ no_match r piece
    /\ skipn skip t = piece ++ tail.
Proof.
  intros Hcf Hend Mnil Mpiece Mrepl.
  induction t as [| a t IH]; intros prev skip st out st' Hesc Hskip Hlast Hsub.
  - assert (skip = 0) as -> by (cbn in Hskip; lia).
    cbn [scan] in Hsub. destruct (exec_at r prev []) as [[n c]|] eqn:E.
    + destruct (exec_at_ends _ _ _ _ _ Hend E) as (H1 & H2 & _).
      cbn in H2. lia.
    + cbn [sub_state] in Hsub. injection Hsub as <- <-.
      exists [], [], []. repeat split; auto using escaped_after_nil, no_match_nil.
  - cbn [scan] in Hsub. destruct skip as [| skip].
    + destruct (exec_at r prev (a :: t)) as [[n c]|] eqn:E.
      * destruct (exec_at_ends _ _ _ _ _ Hend E) as (Hn & Hlen & Hx).
        destruct n as [| n]; [contradiction|]. cbn [sub_state] in Hsub.
        destruct (repl (make_match total (a :: t) (S n) c) st)
          as [[x st1] | |] eqn:Er; try discriminate.
        cbn [bind fst snd] in Hsub.
        destruct (sub_state repl (scan r total (Some a) t n) st1)
          as [[out2 st2] | |] eqn:E2; try discriminate.
        cbn [bind fst snd] in Hsub. injection Hsub as <- <-.
        cbn [firstn] in Hx. rewrite last_opt_cons in Hx.
        apply escaped_after_cons in Hesc. destruct Hesc as [_ Hesc].
        destruct (IH (Some a) n st1 out2 st2 Hesc) as
          (piece & rest & tail & -> & Hm & Hp & Hno & Htail);
          [cbn [length] in Hlen; lia | intros _; exact Hx | exact E2|].
        exists [], (x ++ piece ++ rest), (a :: t).
        repeat split; auto using escaped_after_nil, no_match_nil.
        apply (Mrepl _ _ _ _ _ Er). apply Mpiece; [|exact Hno | exact Hm].
        exact (escaped_after_unescaped _ _ Hx Hp).
      * cbn [sub_state] in Hsub.
        destruct (sub_state repl (scan r total (Some a) t 0) st)
          as [[out2 st2] | |] eqn:E2; try discriminate.
        cbn [bind fst snd] in Hsub. injection Hsub as <- <-.
        apply escaped_after_cons in Hesc. destruct Hesc as [H0 Hesc].
        destruct (IH (Some a) 0 st out2 st2 Hesc) as
          (piece & rest & tail & -> & Hm & Hp & Hno & Htail);
          [lia | intros H; contradiction | exact E2|].
        cbn [firstn skipn] in *. unfold last_opt in Hp |- *. cbn [rev] in Hp |- *.
        exists (a :: piece), rest, tail. repeat split; auto.
        -- apply escaped_after_cons. split; assumption.
        -- intros p1 w p2 Heq (c1 & c2 & Hw). destruct p1 as [| y p1].
           ++ cbn [app] in Heq.
              pose proof (matches_context_free _ _ _ _ Hw Hcf prev (p2 ++ tail))
                as Hhere.
              assert (Ht : a :: t = w ++ p2 ++ tail).
              { rewrite Htail, app_assoc, <- Heq. reflexivity. }
              rewrite <- Ht in Hhere.
              unfold exec_at in E. revert E.
              apply (exec_complete_at _ _ _ _ _ _ Hhere). discriminate.
           ++ injection Heq as _ Heq. apply (Hno p1 w p2 Heq). eauto.
        -- now rewrite Htail.
    + apply escaped_after_cons in Hesc. destruct Hesc as [_ Hesc].
      cbn [firstn] in Hlast. rewrite last_opt_cons in Hlast.
      destruct (IH (Some a) skip st out st' Hesc) as
        (piece & rest & tail & -> & Hm & Hp & Hno & Htail);
        [cbn [length] in Hskip; lia | intros _; apply Hlast; discriminate
        | exact Hsub|].
      exists piece, rest, tail. cbn [firstn skipn]. rewrite last_opt_cons.
      repeat split; auto.
Qed.

Lemma ends_unescaped_seq (a b : regex) :
  ends_unescaped b -> ends_unescaped (Seq a b).
Proof.
  intros Hb c1 w c3 H. apply matches_seq_inv in H.
  destruct H as (w1 & c2 & w2 & -> & _ & H2).
  destruct (Hb _ _ _ H2) as (w' & x & -> & Hx).
  exists (w1 ++ w'), x. now rewrite app_assoc.
Qed.

Lemma ends_unescaped_rbrace : ends_unescaped (chr "}").
Proof.
  intros c1 w c2 H. apply matches_chr_inv in H. subst.
  exists [], "}"%char. split; [reflexivity | discriminate].
Qed.

Lemma ends_unescaped_input : ends_unescaped RE_INPUT.
Proof.
  unfold RE_INPUT. rewrite !seq_cons. cbn [seq].
  repeat apply ends_unescaped_seq. apply ends_unescaped_rbrace.
Qed.

Lemma forallb_last (p : ascii -> bool) (w : text) :
  forallb p w = true -> w <> [] ->
  exists w' x, w = w' ++ [x] /\ p x = true.
Proof.
  intros H Hne. destruct w as [| a w] using rev_ind; [contradiction|].
  rewrite forallb_app in H. apply andb_prop in H. destruct H as [_ H].
  cbn in H. rewrite andb_true_r in H. eauto.
Qed.

(** The end of a block comment: the closing brace, blanks, and a newline
    if there is one. *)
Lemma ends_unescaped_block_end :
  ends_unescaped (Seq (chr "}") (Seq (Star ws) (opt (chr nl)))).
Proof.
  intros c1 w c4 H. apply matches_seq_inv in H.
  destruct H as (w1 & c2 & w23 & -> & H1 & H).
  apply matches_seq_inv in H. destruct H as (w2 & c3 & w3 & -> & H2 & H3).
  apply matches_chr_inv in H1. unfold ws in H2.
  apply matches_star_cls_inv in H2. subst w1.
  assert (Hopt : w3 = [nl] \/ w3 = []).
  { unfold opt in H3. inversion H3; subst.
    - left. now apply (matches_chr_inv nl c3 w3 c4).
    - right. match goal with Hm : matches Eps _ _ _ |- _ => now inversion Hm end. }
  destruct Hopt as [-> | ->].
  - exists ("}"%char :: w2), nl. split; [reflexivity | discriminate].
  - rewrite app_nil_r. destruct w2 as [| a w2].
    + exists [], "}"%char. split; [reflexivity | discriminate].
    + destruct (forallb_last isspace (a :: w2) H2) as (w' & x & Hw & Hx);
        [discriminate|].
      exists ("}"%char :: w'), x. split.
      * cbn [app]. now rewrite Hw.
      * intros ->. discriminate.
Qed.

Lemma ends_unescaped_block_comment : ends_unescaped RE_BLOCK_COMMENT.
Proof.
  unfold RE_BLOCK_COMMENT. rewrite !seq_cons. cbn [seq].
  do 14 apply ends_unescaped_seq. apply ends_unescaped_block_end.
Qed.

Lemma comment_length_zero (t : text) : comment_length t = 0 -> t = [].
Proof.
  destruct t as [| a t]; [reflexivity|]. cbn [comment_length].
  destruct (Ascii.eqb a nl); discriminate.
Qed.

(** What the line-comment removal leaves has escaped markers only. *)
Lemma strip_scan_output (t : text) :
  forall prev skip,
  (skip = 0 -> escaped_after prev (strip_scan prev t skip))
  /\ (skip = comment_length t -> escaped_after None (strip_scan prev t skip)).
Proof.
  induction t as [| a t IH]; intros prev skip.
  - rewrite strip_scan_nil. split; intros _; apply escaped_after_nil.
  - assert (Hafter : forall x, x <> backslash ->
              escaped_after None (strip_scan (Some x) t 0)).
    { intros x Hx. apply escaped_only_after.
      apply (escaped_after_unescaped (Some x)); [congruence|].
      now apply (proj1 (IH (Some x) 0)). }
    assert (Hcomment : escaped_after None
                         (strip_scan (Some a) t (comment_length t))).
    { now apply (proj2 (IH (Some a) (comment_length t))). }
    split.
    + intros ->. rewrite strip_scan_cons.
      destruct (Ascii.eqb a percent && negb (holds_opt (Ascii.eqb backslash) prev))%bool
        eqn:E.
      * now apply escaped_after_weaken.
      * apply escaped_after_cons. split; [|now apply (proj1 (IH (Some a) 0))].
        intros ->. rewrite Ascii.eqb_refl in E. cbn [andb] in E.
        apply negb_false_iff in E. destruct prev as [x|]; [|discriminate].
        cbn [holds_opt] in E. apply Ascii.eqb_eq in E. now subst.
    + intros ->. cbn [comment_length].
      destruct (Ascii.eqb_spec a nl) as [-> | Hnl].
      * rewrite strip_scan_skip. apply Hafter. discriminate.
      * rewrite strip_scan_skip. exact Hcomment.
Qed.

Lemma strip_line_comments_escaped (t : text) :
  escaped_only (strip_line_comments t).
Proof.
  rewrite strip_line_comments_scan. apply escaped_only_after.
  now apply (proj1 (strip_scan_output t None 0)).
Qed.

Lemma sub_state_const {St : Type} (s : text) (toks : list token) (st : St) :
  sub_state (fun _ st => Ok (s, st)) toks st = Ok (flat_map (render s) toks, st).
Proof.
  induction toks as [| [a | m] toks IH]; cbn [sub_state flat_map render].
  - reflexivity.
  - now rewrite IH.
  - cbn [bind fst snd]. now rewrite IH.
Qed.

(** Removing the matches of a pattern whose matches end unescaped leaves
    the markers escaped. *)
Lemma sub_empty_escaped (r : regex) (t : text) :
  context_free r = true -> ends_unescaped r ->
  escaped_only t -> escaped_only (sub r [] t).
Proof.
  intros Hcf Hend Ht.
  pose proof (sub_state_const [] (tokens r t) tt) as Hsub.
  unfold tokens in Hsub at 1.
  assert (Mpiece : forall piece rest, escaped_only piece -> no_match r piece ->
                     escaped_only rest -> escaped_only (piece ++ rest))
    by (intros piece rest Hp _ Hr; now apply escaped_only_app).
  assert (Mrepl : forall (m : rmatch) (st : unit) (x : text) (st' : unit)
                    (rest : text),
                    (fun _ (st : unit) => Ok ([], st)) m st = Ok (x, st') ->
                    escaped_only rest -> escaped_only (x ++ rest))
    by (intros m st x st' rest Hx Hr; injection Hx as <- _; exact Hr).
  assert (Mnil : escaped_only []) by (intros i Hi; destruct i; discriminate).
  destruct (sub_state_pieces r escaped_only _ (length t) Hcf Hend Mnil Mpiece
              Mrepl t None 0 tt _ tt (proj1 (escaped_only_after t) Ht)
              (Nat.le_0_l _) (fun H => False_ind _ (H eq_refl)) Hsub)
    as (piece & rest & tail & Hout & Hrest & Hpiece & _).
  rewrite sub_render, Hout. apply escaped_only_app; [|exact Hrest].
  now apply escaped_only_after.
Qed.

Lemma strip_comments_escaped (content : text) :
  escaped_only (strip_comments content).
Proof.
  unfold strip_comments. apply sub_empty_escaped.
  - reflexivity.
  - apply ends_unescaped_block_comment.
  - apply strip_line_comments_escaped.
Qed.

Lemma merged_app (a b : text) : merged a -> merged b -> merged (a ++ b).
Proof.
  induction 1 as [| t rest Ht Hn _ IH | n rest Hn _ IH]; intro Hb.
  - exact Hb.
  - rewrite <- app_assoc. apply merged_text; auto.
  - rewrite <- app_assoc. apply merged_note; auto.
Qed.

Lemma merged_placeholder (n : text) : placeholder n -> merged n.
Proof.
  intro H. rewrite <- (app_nil_r n). apply merged_note; [exact H | constructor].
Qed.




(** ** The preamble assembler *)

Lemma collect_packages_coords (ms : list rmatch) :
  forall (d : dict) (co : coords),
  (d <> [] -> co <> []) ->
  fst (collect_packages ms d co) <> [] -> snd (collect_packages ms d co) <> [].
Proof.
  induction ms as [| m ms IH]; intros d co H; [exact H|].
  cbn [collect_packages].
  destruct (search RE_PKG_NAME_EXTRACTOR (m_text m)) as [name_match|];
    [|now apply IH].
  apply IH. intros _. destruct co; discriminate.
Qed.

Lemma extract_packages_none (content : text) :
  snd (_extract_packages content) = [] -> fst (_extract_packages content) = [].
Proof.
  unfold _extract_packages.
  pose proof (collect_packages_coords (finditer RE_USEPACKAGE_CMD content)
                [] [] (fun H => False_ind _ (H eq_refl))) as Hinv.
  destruct (collect_packages (finditer RE_USEPACKAGE_CMD content) [] [])
    as [[| kv d] co]; [reflexivity|].
  cbn [fst snd] in *. intros ->. exfalso. now apply Hinv.
Qed.

Lemma extract_definitions_none (content : text) (ty : def_type) :
  all_definitions content ty = [] -> _extract_definitions content ty = ([], []).
Proof. unfold _extract_definitions. now intros ->. Qed.




(** With a document class the second run can differ too: [\b] is kept
    for its occurrence in the definition of [\a], which is dropped, and so
    is dropped itself when the output is assembled again. *)
Lemma assembler_drops_helper_on_second_run :
  let content :=
    str "\documentclass{article}\newcommand{\a}{\b}\newcommand{\b}{x}text" in
  let once :=
    str "\documentclass{article}" ++ [nl; nl] ++ str "\newcommand{\b}{x}text" in
  process_preamble_and_definitions content = Ok once
  /\ process_preamble_and_definitions once
     = Ok (str "\documentclass{article}text").
Proof. cbv zeta. split; vm_compute; reflexivity. Qed.

(** *** The removal loop on offsets *)

Lemma extend_back_map {A B : Type} (f : A -> B) (sp : B -> bool) (l : list A) :
  forall start,
  extend_back sp (map f l) start = extend_back (fun x => sp (f x)) l start.
Proof.
  induction start as [| j IH]; [reflexivity|].
  cbn [extend_back]. rewrite nth_error_map.
  destruct (nth_error l j) as [x|]; [|reflexivity].
  cbn [option_map]. destruct (sp (f x)); [exact IH | reflexivity].
Qed.

Lemma del_slice_map {A B : Type} (f : A -> B) (l : list A) (a b : nat) :
  del_slice (map f l) a b = map f (del_slice l a b).
Proof.
  unfold del_slice. destruct (a <? b); [|reflexivity].
  now rewrite firstn_map, skipn_map, map_app.
Qed.

(** The loop does to a list of characters what it does to the list of
    their offsets. *)
Lemma delete_ranges_map {A B : Type} (f : A -> B) (sp : B -> bool)
  (all_coords : coords) :
  forall l : list A,
  delete_ranges sp (map f l) all_coords
  = (r <- delete_ranges (fun x => sp (f x)) l all_coords ;; Ok (map f r)).
Proof.
  induction all_coords as [| [s e] rest IH]; intro l; [reflexivity|].
  cbn [delete_ranges]. rewrite extend_back_map.
  destruct (extend_back (fun x => sp (f x)) l s) as [s' | err |]; cbn [bind];
    try reflexivity.
  rewrite del_slice_map. apply IH.
Qed.

Lemma map_nth_positions (content : text) (d : ascii) :
  map (fun i => nth i content d) (positions content) = content.
Proof.
  unfold positions. induction content as [| a t IH]; [reflexivity|].
  cbn [length List.seq map nth]. f_equal.
  rewrite <- seq_shift, map_map. exact IH.
Qed.

Lemma body_content_surviving (content : text) :
  body_content content
  = (keep <- surviving content ;;
     Ok (map (fun i => nth i content " "%char) keep)).
Proof.
  unfold body_content, surviving, space_at.
  rewrite <- (delete_ranges_map (fun i => nth i content " "%char) isspace).
  now rewrite map_nth_positions.
Qed.

Lemma sorted_drop_middle {A : Type} (R : A -> A -> Prop) (l1 l2 l3 : list A) :
  StronglySorted R (l1 ++ l2 ++ l3) -> StronglySorted R (l1 ++ l3).
Proof.
  induction l1 as [| a l1 IH]; cbn [app]; intro H.
  - induction l2 as [| b l2 IH2]; [exact H|].
    apply IH2. cbn [app] in H. now inversion H.
  - inversion H as [| ? ? Hs Hf]; subst. constructor; [now apply IH|].
    rewrite !Forall_app in *. tauto.
Qed.

Lemma sorted_del_slice (l : list nat) (a b : nat) :
  StronglySorted lt l -> StronglySorted lt (del_slice l a b).
Proof.
  intro H. unfold del_slice. destruct (a <? b) eqn:E; [|exact H].
  apply Nat.ltb_lt in E.
  apply (sorted_drop_middle lt (firstn a l) (firstn (b - a) (skipn a l))).
  replace (skipn b l) with (skipn (b - a) (skipn a l))
    by (rewrite skipn_skipn; f_equal; lia).
  now rewrite !firstn_skipn.
Qed.

Lemma sorted_above (l : list nat) :
  StronglySorted lt l ->
  forall lo, Forall (le lo) l ->
  forall i x, nth_error l i = Some x -> lo + i <= x.
Proof.
  induction 1 as [| a l Hs IH Hf]; intros lo Hlo i x Hi.
  - destruct i; discriminate.
  - inversion Hlo as [| ? ? Ha Hl]; subst. destruct i as [| i].
    + injection Hi as <-. lia.
    + cbn in Hi. assert (Hx : S a + i <= x).
      { apply (IH (S a)); [|exact Hi].
        eapply Forall_impl; [|exact Hf]. intros y Hy. exact Hy. }
      lia.
Qed.

Lemma sorted_skipn_above (l : list nat) (e x : nat) :
  StronglySorted lt l -> In x (skipn e l) -> e <= x.
Proof.
  intros Hs Hin. apply In_nth_error in Hin. destruct Hin as [i Hi].
  rewrite nth_error_skipn in Hi.
  assert (H0 : Forall (le 0) l) by (apply Forall_forall; intros; lia).
  pose proof (sorted_above l Hs 0 H0 _ _ Hi). lia.
Qed.

Lemma sorted_seq (n : nat) : forall lo, StronglySorted lt (List.seq lo n).
Proof.
  induction n as [| n IH]; intro lo; cbn [List.seq]; constructor; [apply IH|].
  apply Forall_forall. intros x Hx. apply in_seq in Hx. lia.
Qed.

Lemma firstn_seq0 (a : nat) :
  forall lo m, a <= m -> firstn a (List.seq lo m) = List.seq lo a.
Proof.
  induction a as [| a IH]; intros lo m H; [reflexivity|].
  destruct m as [| m]; [lia|]. cbn [List.seq firstn]. f_equal.
  apply IH. lia.
Qed.

Lemma prefix_firstn (cur : list nat) (a m : nat) :
  firstn m cur = List.seq 0 m -> a <= m -> firstn a cur = List.seq 0 a.
Proof.
  intros Hm Ha. rewrite <- (firstn_seq0 a 0 m Ha), <- Hm, firstn_firstn.
  f_equal. lia.
Qed.

Lemma prefix_nth (cur : list nat) (m j : nat) :
  firstn m cur = List.seq 0 m -> j < m -> nth_error cur j = Some j.
Proof.
  intros Hm Hj.
  rewrite <- (firstn_skipn m cur), nth_error_app1.
  - rewrite Hm. rewrite nth_error_nth' with (d := 0) by (rewrite length_seq; lia).
    now rewrite seq_nth.
  - rewrite Hm, length_seq. exact Hj.
Qed.

(** Below an untouched prefix the inner loop reads the original
    characters: it stops at or before [start], over blanks only. *)
Lemma extend_back_prefix (sp : nat -> bool) (cur : list nat) (m : nat) :
  firstn m cur = List.seq 0 m ->
  forall start, start <= m ->
  exists start',
    extend_back sp cur start = Ok start' /\ start' <= start
    /\ forall j, start' <= j < start -> sp j = true.
Proof.
  intro Hm. induction start as [| j IH]; intro Hle.
  - exists 0. repeat split; [lia|]. intros j Hj. lia.
  - cbn [extend_back]. rewrite (prefix_nth cur m j Hm) by lia.
    destruct (sp j) eqn:Ej.
    + destruct IH as (s' & H1 & H2 & H3); [lia|].
      exists s'. repeat split; [exact H1 | lia |].
      intros i Hi. destruct (Nat.eq_dec i j) as [-> | Hne]; [exact Ej|].
      apply H3. lia.
    + exists (S j). repeat split; [lia|]. intros i Hi. lia.
Qed.

Lemma in_firstn {A : Type} (x : A) (n : nat) (l : list A) :
  In x (firstn n l) -> In x l.
Proof.
  intro H. rewrite <- (firstn_skipn n l). apply in_or_app. now left.
Qed.

Lemma in_skipn {A : Type} (x : A) (n : nat) (l : list A) :
  In x (skipn n l) -> In x l.
Proof.
  intro H. rewrite <- (firstn_skipn n l). apply in_or_app. now right.
Qed.

(** The invariant of the removal loop, on the offsets [cur] that remain:
    they are in increasing order, those below [m] are all there, the
    characters from [m] up to [b] are blanks, and every range still to
    remove starts below [b] at a character that is not a blank. *)
Lemma delete_ranges_positions (sp : nat -> bool) (all_coords : coords) :
  forall (cur : list nat) (m b : nat),
  StronglySorted lt cur ->
  firstn m cur = List.seq 0 m ->
  m <= b ->
  (forall j, m <= j < b -> sp j = true) ->
  StronglySorted (fun x y : nat * nat => fst y < fst x) all_coords ->
  (forall r, In r all_coords -> fst r < b /\ sp (fst r) = false) ->
  exists final,
    delete_ranges sp cur all_coords = Ok final
    /\ StronglySorted lt final
    /\ (forall x, In x final -> In x cur)
    /\ forall x r, In x final -> In r all_coords -> ~ in_range x r.
Proof.
  induction all_coords as [| [s e] rest IH]; intros cur m b Hs Hm Hmb Hsp Hco Hr.
  - exists cur. repeat split; auto.
  - destruct (Hr (s, e) (or_introl eq_refl)) as [Hsb Hss]. cbn [fst] in *.
    assert (Hsm : s < m).
    { destruct (Nat.lt_ge_cases s m) as [H | H]; [exact H|].
      rewrite Hsp in Hss by lia. discriminate. }
    destruct (extend_back_prefix sp cur m Hm s) as (s' & He & Hle & Hblank);
      [lia|].
    inversion Hco as [| ? ? Hco' Hlt]; subst.
    destruct (IH (del_slice cur s' e) s' s) as (final & Hd & Hf & Hin & Hout).
    + now apply sorted_del_slice.
    + unfold del_slice. destruct (s' <? e).
      * rewrite firstn_app.
        assert (Hlen : length (firstn s' cur) = s').
        { rewrite (prefix_firstn cur s' m Hm) by lia. apply length_seq. }
        rewrite Hlen, Nat.sub_diag, firstn_O, app_nil_r, firstn_firstn.
        replace (Nat.min s' s') with s' by lia.
        apply (prefix_firstn cur s' m Hm). lia.
      * apply (prefix_firstn cur s' m Hm). lia.
    + exact Hle.
    + exact Hblank.
    + exact Hco'.
    + intros r Hin. split; [|apply Hr; now right].
      rewrite Forall_forall in Hlt. exact (Hlt r Hin).
    + assert (Hsub : forall x, In x (del_slice cur s' e) -> In x cur).
      { intros x. unfold del_slice. destruct (s' <? e); [|auto].
        rewrite in_app_iff. intros [H | H].
        - eapply in_firstn; eauto.
        - eapply in_skipn; eauto. }
      exists final. cbn [delete_ranges]. rewrite He. cbn [bind].
      repeat split; auto.
      intros x r Hx [<- | Hrest]; [|now apply Hout].
      unfold in_range. cbn [fst snd]. intros [H1 H2].
      specialize (Hin x Hx). unfold del_slice in Hin.
      destruct (s' <? e) eqn:E.
      * apply in_app_iff in Hin. destruct Hin as [Hin | Hin].
        -- rewrite (prefix_firstn cur s' m Hm) in Hin by lia.
           apply in_seq in Hin. lia.
        -- apply (sorted_skipn_above cur e x Hs) in Hin. lia.
      * apply Nat.ltb_ge in E. lia.
Qed.

(** *** The order of removal *)

Lemma insert_by_perm {A : Type} (leb : A -> A -> bool) (x : A) (l : list A) :
  Permutation (insert_by leb x l) (x :: l).
Proof.
  induction l as [| y l IH]; [reflexivity|]. cbn [insert_by].
  destruct (leb x y); [reflexivity|].
  rewrite IH. apply perm_swap.
Qed.

Lemma sorted_by_perm {A : Type} (leb : A -> A -> bool) (l : list A) :
  Permutation (sorted_by leb l) l.
Proof.
  induction l as [| x l IH]; [reflexivity|].
  unfold sorted_by in *. cbn [fold_right]. rewrite insert_by_perm.
  now constructor.
Qed.

Lemma insert_descending (x : nat * nat) (l : coords) :
  StronglySorted (fun a b : nat * nat => fst b <= fst a) l ->
  StronglySorted (fun a b : nat * nat => fst b <= fst a)
    (insert_by (fun a b => fst b <=? fst a) x l).
Proof.
  induction 1 as [| y l Hs IH Hf]; cbn [insert_by].
  - repeat constructor.
  - destruct (Nat.leb_spec (fst y) (fst x)) as [Hle | Hlt].
    + constructor; [now constructor|]. constructor; [exact Hle|].
      eapply Forall_impl; [|exact Hf]. cbn. intros z Hz. lia.
    + constructor; [exact IH|].
      apply Forall_forall. intros z Hz.
      apply (Permutation_in _ (insert_by_perm _ x l)) in Hz.
      destruct Hz as [<- | Hz]; [lia|].
      rewrite Forall_forall in Hf. now apply Hf.
Qed.

Lemma sort_descending_sorted (l : coords) :
  StronglySorted (fun a b : nat * nat => fst b <= fst a) (sort_descending l).
Proof.
  unfold sort_descending, sorted_by.
  induction l as [| x l IH]; cbn [fold_right]; [constructor|].
  now apply insert_descending.
Qed.

Lemma sorted_strict (l : coords) :
  StronglySorted (fun a b : nat * nat => fst b <= fst a) l ->
  NoDup (map fst l) ->
  StronglySorted (fun a b : nat * nat => fst b < fst a) l.
Proof.
  induction 1 as [| x l Hs IH Hf]; intro Hnd; [constructor|].
  cbn [map] in Hnd. inversion Hnd as [| ? ? Hx Hnd']; subst.
  constructor; [now apply IH|].
  apply Forall_forall. intros y Hy. rewrite Forall_forall in Hf.
  specialize (Hf y Hy). cbn in Hf.
  assert (fst y <> fst x).
  { intro E. apply Hx. rewrite <- E. now apply in_map. }
  lia.
Qed.

(** Ranges with distinct starts are removed from the last to the first. *)
Lemma sort_descending_strict (l : coords) :
  NoDup (map fst l) ->
  StronglySorted (fun a b : nat * nat => fst b < fst a) (sort_descending l).
Proof.
  intro H. apply sorted_strict; [apply sort_descending_sorted|].
  apply (Permutation_NoDup (l := map fst l)); [|exact H].
  apply Permutation_map. symmetry. apply sorted_by_perm.
Qed.

Lemma sort_descending_in (l : coords) (r : nat * nat) :
  In r (sort_descending l) <-> In r l.
Proof.
  split; apply Permutation_in; [|symmetry]; apply sorted_by_perm.
Qed.

(** *** Where matches start *)

Lemma hits_starts_nodup (r : regex) (s : text) (t : text) :
  forall pre skip,
  s = pre ++ t ->
  NoDup (map m_start
           (flat_map (fun tok => match tok with Hit m => [m] | Lit _ => [] end)
              (scan r (length s) (last_opt pre None) t skip))).
Proof.
  induction t as [| a t IH]; intros pre skip Hs.
  - cbn [scan]. destruct skip; [|constructor].
    destruct (exec_at r (last_opt pre None) []) as [[n c]|]; cbn;
      repeat constructor. intros [].
  - assert (Hnext : s = (pre ++ [a]) ++ t) by (now rewrite <- app_assoc).
    assert (Hrec : forall skip',
      NoDup (map m_start
           (flat_map (fun tok => match tok with Hit m => [m] | Lit _ => [] end)
              (scan r (length s) (Some a) t skip')))).
    { intro skip'. rewrite <- (last_opt_snoc pre a None). now apply IH. }
    assert (Hlater : forall skip' n c,
      ~ In (m_start (make_match (length s) (a :: t) n c))
          (map m_start
             (flat_map (fun tok => match tok with Hit m => [m] | Lit _ => [] end)
                (scan r (length s) (Some a) t skip')))).
    { intros skip' n c Hin. apply in_map_iff in Hin.
      destruct Hin as (m & Hm & Hin). apply in_flat_map in Hin.
      destruct Hin as ([x | m'] & Htok & Hin'); [contradiction|].
      destruct Hin' as [<- | []].
      rewrite <- (last_opt_snoc pre a None) in Htok.
      destruct (scan_hit r s m' t (pre ++ [a]) skip' Hnext Htok)
        as (n' & c' & Hlo & _).
      rewrite length_app in Hlo. cbn [length] in Hlo.
      cbn [make_match m_start] in Hm. subst s. rewrite length_app in Hm.
      cbn [length] in Hm. lia. }
    cbn [scan]. destruct skip as [| skip]; [|apply Hrec].
    destruct (exec_at r (last_opt pre None) (a :: t)) as [[[| n] c]|];
      cbn [flat_map app map]; try apply Hrec;
      constructor; try apply Hrec; apply Hlater.
Qed.

Lemma finditer_starts_nodup (r : regex) (s : text) :
  NoDup (map m_start (finditer r s)).
Proof. exact (hits_starts_nodup r s s [] 0 eq_refl). Qed.

Lemma nodup_map_filter {A B : Type} (f : A -> B) (g : A -> bool) (l : list A) :
  NoDup (map f l) -> NoDup (map f (filter g l)).
Proof.
  induction l as [| x l IH]; intro H; [constructor|].
  cbn [map] in H. inversion H as [| ? ? Hx Hnd]; subst.
  cbn [filter]. destruct (g x); [|now apply IH].
  cbn [map]. constructor; [|now apply IH].
  intro Hin. apply Hx. apply in_map_iff in Hin.
  destruct Hin as (y & Hy & Hin). apply filter_In in Hin.
  apply in_map_iff. exists y. tauto.
Qed.

(** *** How the declarations start *)

Lemma exec_lit_text {R : Type} (w : text) :
  forall (p : option ascii) (t : text) (c : caps)
         (k : cursor -> caps -> option R),
  exec (lit_text w) (Cursor p t) c k =
  if startswith t w
  then k (Cursor (last_opt w p) (skipn (length w) t)) c
  else None.
Proof.
  induction w as [| a w IH]; intros p t c k; [now destruct t|].
  assert (Hstep : exec (lit_text (a :: w)) (Cursor p t) c k
                  = match t with
                    | x :: t' =>
                        if Ascii.eqb a x
                        then exec (lit_text w) (Cursor (Some x) t') c k
                        else None
                    | [] => None
                    end).
  { destruct w as [| b w]; [|reflexivity].
    cbn [lit_text]. unfold chr. rewrite exec_Cls. cbn [rest].
    destruct t as [| x t']; reflexivity. }
  rewrite Hstep. destruct t as [| x t']; [reflexivity|].
  cbn [startswith length skipn].
  destruct (Ascii.eqb_spec a x) as [<- | _]; [|reflexivity].
  rewrite IH. cbn [andb]. destruct (startswith t' w); [|reflexivity].
  f_equal. unfold last_opt. cbn [rev].
  destruct (rev w) as [| y r] eqn:E; reflexivity.
Qed.

Lemma startswith_prefix (w : text) :
  forall t, startswith t w = true -> t = w ++ skipn (length w) t.
Proof.
  induction w as [| a w IH]; intros t H; [reflexivity|].
  destruct t as [| x t]; [discriminate|]. cbn [startswith] in H.
  apply andb_prop in H. destruct H as [Hx Ht].
  apply Ascii.eqb_eq in Hx. subst x. cbn [app length skipn]. f_equal.
  now apply IH.
Qed.

Lemma startswith_app (w t : text) : startswith (w ++ t) w = true.
Proof.
  induction w as [| a w IH]; [now destruct t|].
  cbn [app startswith]. now rewrite Ascii.eqb_refl, IH.
Qed.

Lemma nth_error_of_skipn (t : text) (s : nat) (a b : ascii) (u : text) :
  skipn s t = a :: b :: u ->
  nth_error t s = Some a /\ nth_error t (S s) = Some b.
Proof.
  intro H. split.
  - now rewrite <- hd_error_skipn, H.
  - replace (S s) with (s + 1) by lia.
    now rewrite <- nth_error_skipn, H.
Qed.

Lemma usepackage_head (prev : option ascii) (t : text) (x : nat * caps) :
  exec_at RE_USEPACKAGE_CMD prev t = Some x ->
  exists u, t = "\"%char :: "u"%char :: u.
Proof.
  unfold exec_at, RE_USEPACKAGE_CMD, lit. rewrite seq_cons, exec_Seq, exec_lit_text.
  destruct (startswith t (str "\usepackage")) eqn:E; [|discriminate].
  intros _. apply startswith_prefix in E. rewrite E. eexists. reflexivity.
Qed.

Lemma color_head (prev : option ascii) (t : text) (x : nat * caps) :
  exec_at (RE_DEF_HEAD Color) prev t = Some x ->
  exists u, t = "\"%char :: "d"%char :: u.
Proof.
  unfold exec_at, RE_DEF_HEAD, lit. rewrite seq_cons, exec_Seq, exec_lit_text.
  destruct (startswith t (str "\definecolor")) eqn:E; [|discriminate].
  intros _. apply startswith_prefix in E. rewrite E. eexists. reflexivity.
Qed.

Lemma command_head (prev : option ascii) (t : text) (x : nat * caps) :
  exec_at (RE_DEF_HEAD Command) prev t = Some x ->
  exists c u, t = "\"%char :: c :: u
              /\ (c = "r" \/ c = "n" \/ c = "p")%char.
Proof.
  unfold exec_at, RE_DEF_HEAD. rewrite seq_cons, exec_Seq.
  unfold chr at 1. rewrite exec_Cls. cbn [rest].
  destruct t as [| a t]; [discriminate|].
  destruct (Ascii.eqb_spec "\"%char a) as [<- | _]; [|discriminate].
  rewrite seq_cons, exec_Seq. cbn [alt]. unfold lit at 1 2 3.
  rewrite !exec_Alt, !exec_lit_text.
  destruct (startswith t (str "renew")) eqn:E1.
  { intros _. apply startswith_prefix in E1. rewrite E1.
    eexists _, _. split; [reflexivity | now left]. }
  destruct (startswith t (str "new")) eqn:E2.
  { intros _. apply startswith_prefix in E2. rewrite E2.
    eexists _, _. split; [reflexivity | right; now left]. }
  destruct (startswith t (str "provide")) eqn:E3.
  { intros _. apply startswith_prefix in E3. rewrite E3.
    eexists _, _. split; [reflexivity | right; now right]. }
  discriminate.
Qed.

(** *** The ranges of the declarations *)

Lemma collect_packages_snd (ms : list rmatch) :
  forall (d : dict) (co : coords),
  snd (collect_packages ms d co)
  = co ++ map (fun m => (m_start m, m_end m))
            (filter (fun m => is_some (search RE_PKG_NAME_EXTRACTOR (m_text m)))
               ms).
Proof.
  induction ms as [| m ms IH]; intros d co; cbn [collect_packages filter].
  - cbn [map]. now rewrite app_nil_r.
  - destruct (search RE_PKG_NAME_EXTRACTOR (m_text m)); cbn [is_some].
    + rewrite IH, <- app_assoc. reflexivity.
    + apply IH.
Qed.

Lemma package_ranges (content : text) :
  ranges_of_matches RE_USEPACKAGE_CMD content (snd (_extract_packages content)).
Proof.
  unfold _extract_packages.
  pose proof (collect_packages_snd (finditer RE_USEPACKAGE_CMD content) [] [])
    as Hsnd.
  destruct (collect_packages (finditer RE_USEPACKAGE_CMD content) [] [])
    as [[| kv d] co]; cbn [snd] in *.
  - split; [constructor | intros x []].
  - subst co. cbn [app]. split.
    + rewrite map_map. cbn [fst].
      apply (nodup_map_filter m_start). apply finditer_starts_nodup.
    + intros x Hx. apply in_map_iff in Hx. destruct Hx as (m & <- & Hm).
      apply filter_In in Hm. exists m. split; [tauto | reflexivity].
Qed.

Lemma record_definition_start (content : text) (m : rmatch) (d : definition) :
  In d (record_definition content m) -> d_start d = m_start m.
Proof.
  unfold record_definition. destruct (group_start m 3) as [b|]; [|intros []].
  destruct (_find_balanced_braces content b =? -1)%Z; [intros []|].
  intros [<- | []]. reflexivity.
Qed.

Lemma definitions_starts (content : text) (ms : list rmatch) :
  NoDup (map m_start ms) ->
  NoDup (map d_start (flat_map (record_definition content) ms))
  /\ forall d, In d (flat_map (record_definition content) ms) ->
     exists m, In m ms /\ d_start d = m_start m.
Proof.
  induction ms as [| m ms IH]; intro Hnd.
  - split; [constructor | intros d []].
  - cbn [map] in Hnd. inversion Hnd as [| ? ? Hm Hnd']; subst.
    destruct (IH Hnd') as [IH1 IH2]. cbn [flat_map].
    assert (Hall : forall d, In d (record_definition content m ++
                                   flat_map (record_definition content) ms) ->
                   exists m', In m' (m :: ms) /\ d_start d = m_start m').
    { intros d Hd. apply in_app_iff in Hd. destruct Hd as [Hd | Hd].
      - exists m. split; [now left | now apply (record_definition_start content)].
      - destruct (IH2 d Hd) as (m' & H1 & H2). exists m'. split; [now right | exact H2]. }
    split; [|exact Hall].
    assert (Hone : record_definition content m = []
                   \/ exists d, record_definition content m = [d]).
    { unfold record_definition. destruct (group_start m 3); [|now left].
      destruct (_find_balanced_braces content n =? -1)%Z; [now left|].
      right. eexists. reflexivity. }
    destruct Hone as [-> | [d Hd]]; [exact IH1|].
    rewrite Hd. cbn [app map]. constructor; [|exact IH1].
    intro Hin. apply in_map_iff in Hin. destruct Hin as (d' & Hs & Hd').
    destruct (IH2 d' Hd') as (m' & Hm' & Hs').
    apply Hm. apply in_map_iff. exists m'. split; [|exact Hm'].
    rewrite <- Hs', Hs. apply (record_definition_start content). rewrite Hd. now left.
Qed.

Lemma definition_ranges_all (content : text) (ty : def_type) :
  snd (_extract_definitions content ty)
  = map (fun d => (d_start d, d_end d)) (all_definitions content ty).
Proof.
  unfold _extract_definitions. now destruct (all_definitions content ty).
Qed.

Lemma used_definitions_all (content : text) (ty : def_type) :
  fst (_extract_definitions content ty)
  = collect_used content ty (all_definitions content ty) [].
Proof.
  unfold _extract_definitions. now destruct (all_definitions content ty).
Qed.

Lemma definition_ranges (content : text) (ty : def_type) :
  ranges_of_matches (RE_DEF_HEAD ty) content
    (snd (_extract_definitions content ty)).
Proof.
  rewrite definition_ranges_all. unfold all_definitions.
  destruct (definitions_starts content (finditer (RE_DEF_HEAD ty) content)
              (finditer_starts_nodup _ _)) as [H1 H2].
  split.
  - now rewrite map_map.
  - intros x Hx. apply in_map_iff in Hx. destruct Hx as (d & <- & Hd).
    exact (H2 d Hd).
Qed.

(** A range of a pattern whose matches all begin with a backslash and
    then a character of [kind] starts at such a place of the content. *)
Lemma range_start_chars (r : regex) (kind : ascii -> Prop) (content : text)
  (co : coords) :
  (forall prev t x, exec_at r prev t = Some x ->
                    exists c u, t = "\"%char :: c :: u /\ kind c) ->
  ranges_of_matches r content co ->
  forall x, In x co ->
  nth_error content (fst x) = Some "\"%char
  /\ exists c, nth_error content (S (fst x)) = Some c /\ kind c.
Proof.
  intros Hhead [_ Hco] x Hx. destruct (Hco x Hx) as (m & Hm & ->).
  destruct (finditer_sound _ _ _ Hm) as (n & c & _ & Hexec & _).
  destruct (Hhead _ _ _ Hexec) as (k & u & Hskip & Hk).
  destruct (nth_error_of_skipn _ _ _ _ _ Hskip) as [H1 H2].
  split; [exact H1 | now exists k].
Qed.

Lemma package_start_chars (content : text) (x : nat * nat) :
  In x (snd (_extract_packages content)) ->
  nth_error content (fst x) = Some "\"%char
  /\ exists c, nth_error content (S (fst x)) = Some c /\ kind_package c.
Proof.
  apply (range_start_chars RE_USEPACKAGE_CMD kind_package);
    [|apply package_ranges].
  intros prev t y H. destruct (usepackage_head _ _ _ H) as [u ->].
  now exists "u"%char, u.
Qed.

Lemma definition_start_chars (content : text) (ty : def_type) (x : nat * nat) :
  In x (snd (_extract_definitions content ty)) ->
  nth_error content (fst x) = Some "\"%char
  /\ exists c, nth_error content (S (fst x)) = Some c
               /\ match ty with
                  | Command => kind_command c
                  | Color => kind_color c
                  end.
Proof.
  apply (range_start_chars (RE_DEF_HEAD ty)); [|apply definition_ranges].
  intros prev t y H. destruct ty.
  - destruct (command_head _ _ _ H) as (c & u & -> & Hc). now exists c, u.
  - destruct (color_head _ _ _ H) as [u ->]. now exists "d"%char, u.
Qed.

(** The ranges of all declarations have distinct starts. *)
Lemma all_ranges_nodup (content : text) :
  NoDup (map fst
           (snd (_extract_packages content)
            ++ snd (_extract_definitions content Command)
            ++ snd (_extract_definitions content Color))).
Proof.
  rewrite !map_app.
  apply NoDup_app; [apply package_ranges | apply NoDup_app |].
  - apply definition_ranges.
  - apply definition_ranges.
  - intros s H1 H2. apply in_map_iff in H1, H2.
    destruct H1 as (x & <- & Hx), H2 as (y & Hy & Hy').
    destruct (definition_start_chars _ _ _ Hx) as (_ & c & Hc & Hk).
    destruct (definition_start_chars _ _ _ Hy') as (_ & c' & Hc' & Hk').
    rewrite Hy, Hc in Hc'. injection Hc' as <-.
    unfold kind_command, kind_color in *. subst c.
    destruct Hk as [H | [H | H]]; discriminate.
  - intros s H1 H2. apply in_map_iff in H1. destruct H1 as (x & <- & Hx).
    destruct (package_start_chars _ _ Hx) as (_ & c & Hc & Hk).
    unfold kind_package in Hk. subst c.
    apply in_app_iff in H2. destruct H2 as [H2 | H2];
      apply in_map_iff in H2; destruct H2 as (y & Hy & Hy');
      destruct (definition_start_chars _ _ _ Hy') as (_ & c' & Hc' & Hk');
      rewrite Hy, Hc in Hc'; injection Hc' as <-;
      unfold kind_command, kind_color in *;
      [destruct Hk' as [H | [H | H]]; discriminate | discriminate].
Qed.

Lemma removal_coords_start (content : text) (x : nat * nat) :
  In x (removal_coords content) ->
  fst x < length content /\ space_at content (fst x) = false.
Proof.
  intro Hx. unfold removal_coords in Hx.
  apply (proj1 (sort_descending_in _ _)) in Hx.
  assert (H : nth_error content (fst x) = Some "\"%char).
  { apply in_app_iff in Hx. destruct Hx as [Hx | Hx];
      [now apply package_start_chars|].
    apply in_app_iff in Hx. destruct Hx as [Hx | Hx];
      now apply definition_start_chars in Hx. }
  split.
  - apply nth_error_Some. rewrite H. discriminate.
  - unfold space_at. now rewrite (nth_error_nth _ _ _ H).
Qed.

(** The removal never reads past the end of the list, and the offsets
    that stay are in order and outside every range removed. *)
Lemma surviving_spec (content : text) :
  exists keep,
    surviving content = Ok keep
    /\ StronglySorted lt keep
    /\ (forall i, In i keep -> i < length content)
    /\ forall i x, In i keep -> In x (removal_coords content) -> ~ in_range i x.
Proof.
  destruct (delete_ranges_positions (space_at content) (removal_coords content)
              (positions content) (length content) (length content))
    as (keep & H1 & H2 & H3 & H4).
  - apply sorted_seq.
  - unfold positions. apply firstn_all2. rewrite length_seq. lia.
  - lia.
  - intros j Hj. lia.
  - apply sort_descending_strict, all_ranges_nodup.
  - apply removal_coords_start.
  - exists keep. repeat split; auto.
    intros i Hi. apply H3 in Hi. unfold positions in Hi. apply in_seq in Hi. lia.
Qed.

(** *** The kept map *)

Lemma text_eqb_refl (a : text) : text_eqb a a = true.
Proof. unfold text_eqb. destruct (text_eq_dec a a); congruence. Qed.

Lemma text_eqb_neq (a b : text) : a <> b -> text_eqb a b = false.
Proof. unfold text_eqb. destruct (text_eq_dec a b); congruence. Qed.

Lemma text_eqb_spec (a b : text) : reflect (a = b) (text_eqb a b).
Proof.
  unfold text_eqb. destruct (text_eq_dec a b); now constructor.
Qed.

Lemma dict_get_set (k k' v : text) (d : dict) :
  dict_get k (dict_set k' v d) = if text_eqb k' k then Some v else dict_get k d.
Proof.
  induction d as [| [k0 v0] d IH]; cbn [dict_set dict_get]; [reflexivity|].
  destruct (text_eqb_spec k0 k') as [-> | Hne]; cbn [dict_get].
  - destruct (text_eqb k' k); reflexivity.
  - rewrite IH. destruct (text_eqb_spec k0 k) as [-> | _]; [|reflexivity].
    now rewrite text_eqb_neq by congruence.
Qed.

Lemma collect_used_app (content : text) (ty : def_type) (l1 l2 : list definition) :
  forall used,
  collect_used content ty (l1 ++ l2) used
  = collect_used content ty l2 (collect_used content ty l1 used).
Proof.
  induction l1 as [| d l1 IH]; intro used; [reflexivity|].
  cbn [app collect_used]. apply IH.
Qed.

(** Definitions of other names leave an entry as it is. *)
Lemma collect_used_other (content : text) (ty : def_type) (name : text)
  (defs : list definition) :
  forall used,
  (forall d, In d defs -> d_name d <> name) ->
  dict_get name (collect_used content ty defs used) = dict_get name used.
Proof.
  induction defs as [| d defs IH]; intros used H; [reflexivity|].
  cbn [collect_used]. rewrite IH by (intros; apply H; now right).
  destruct (1 <? usage_count content ty (d_name d)); [|reflexivity].
  rewrite dict_get_set, text_eqb_neq; [reflexivity|]. apply H. now left.
Qed.

(** A name that occurs once at most gets no entry. *)
Lemma collect_used_unused (content : text) (ty : def_type) (name : text)
  (defs : list definition) :
  forall used,
  usage_count content ty name <= 1 ->
  dict_get name (collect_used content ty defs used) = dict_get name used.
Proof.
  induction defs as [| d defs IH]; intros used H; [reflexivity|].
  cbn [collect_used]. rewrite IH by assumption.
  destruct (Nat.ltb_spec 1 (usage_count content ty (d_name d))) as [Hlt | _];
    [|reflexivity].
  rewrite dict_get_set, text_eqb_neq; [reflexivity|].
  intro E. rewrite E in Hlt. lia.
Qed.

(** The last definition of a name that occurs more than once is the one
    entered. *)
Lemma collect_used_last (content : text) (ty : def_type)
  (l1 l2 : list definition) (d : definition) :
  (forall d', In d' l2 -> d_name d' <> d_name d) ->
  1 < usage_count content ty (d_name d) ->
  dict_get (d_name d) (collect_used content ty (l1 ++ d :: l2) [])
  = Some (d_text d).
Proof.
  intros Hl2 Hcount. rewrite collect_used_app. cbn [collect_used].
  rewrite collect_used_other by assumption.
  apply Nat.ltb_lt in Hcount. rewrite Hcount.
  now rewrite dict_get_set, text_eqb_refl.
Qed.

Lemma last_of_name (name : text) (defs : list definition) :
  (exists d, In d defs /\ d_name d = name) ->
  exists l1 d l2,
    defs = l1 ++ d :: l2 /\ d_name d = name
    /\ forall d', In d' l2 -> d_name d' <> name.
Proof.
  induction defs as [| x defs IH]; intros (d & Hin & Hname); [destruct Hin|].
  destruct (in_dec text_eq_dec name (map d_name defs)) as [Hlater | Hnone].
  - apply in_map_iff in Hlater. destruct Hlater as (d' & Hn & Hd').
    destruct IH as (l1 & y & l2 & -> & Hy & Hl2); [now exists d'|].
    exists (x :: l1), y, l2. repeat split; auto.
  - destruct Hin as [-> | Hin].
    + exists [], d, defs. repeat split; auto.
      intros d' Hd' E. apply Hnone. apply in_map_iff. now exists d'.
    + exfalso. apply Hnone. apply in_map_iff. now exists d.
Qed.

(** C1 (amended).  Of the macro or color definitions recorded in a text:
    a name is in the kept map exactly when it occurs more than once in
    the whole text, so a definition whose name occurs nowhere else is
    not kept; the kept map holds, for a name defined several times and
    occurring more than once, the text of its last definition; and the
    removal deletes every definition site: the body is the content
    restricted to offsets, in order, none of which lies in the range of
    a recorded definition. *)
Theorem extractor_keeps_used_definitions (content : text) (ty : def_type) :
  let defs := all_definitions content ty in
  let used := fst (_extract_definitions content ty) in
  (forall d, In d defs ->
     (dict_get (d_name d) used <> None
      <-> 1 < usage_count content ty (d_name d)))
  /\ (forall d, In d defs -> usage_count content ty (d_name d) <= 1 ->
        dict_get (d_name d) used = None)
  /\ (forall l1 d l2,
        defs = l1 ++ d :: l2 ->
        (forall d', In d' l2 -> d_name d' <> d_name d) ->
        1 < usage_count content ty (d_name d) ->
        dict_get (d_name d) used = Some (d_text d))
  /\ exists keep,
       body_content content = Ok (map (fun i => nth i content " "%char) keep)
       /\ StronglySorted lt keep
       /\ forall i, In i keep ->
          i < length content
          /\ forall d, In d defs -> ~ (d_start d <= i < d_end d).
Proof.
  cbv zeta. rewrite used_definitions_all.
  assert (Hunused : forall d, In d (all_definitions content ty) ->
            usage_count content ty (d_name d) <= 1 ->
            dict_get (d_name d)
              (collect_used content ty (all_definitions content ty) []) = None).
  { intros d _ H. now rewrite collect_used_unused. }
  repeat split.
  - intro Hget. destruct (Nat.lt_ge_cases 1 (usage_count content ty (d_name d)))
      as [Hlt | Hge]; [exact Hlt|].
    exfalso. apply Hget. now apply Hunused.
  - intros Hcount Hget.
    destruct (last_of_name (d_name d) (all_definitions content ty))
      as (l1 & d' & l2 & Hdefs & Hname & Hl2); [now exists d|].
    rewrite Hdefs, <- Hname, collect_used_last in Hget.
    + discriminate.
    + now rewrite Hname.
    + now rewrite Hname.
  - exact Hunused.
  - intros l1 d l2 -> Hl2 Hcount. now apply collect_used_last.
  - destruct (surviving_spec content) as (keep & Hk & Hsorted & Hlt & Hout).
    exists keep. rewrite body_content_surviving, Hk. cbn [bind].
    repeat split; auto.
    intros d Hd Hin. apply (Hout i (d_start d, d_end d) H); [|exact Hin].
    unfold removal_coords. apply sort_descending_in.
    apply in_or_app. right. destruct ty.
    + apply in_or_app. left. rewrite definition_ranges_all.
      apply in_map_iff. now exists d.
    + apply in_or_app. right. rewrite definition_ranges_all.
      apply in_map_iff. now exists d.
Qed.

(** In ["\newcommand{\a}{1}\newcommand{\b}{2}\renewcommand{\b}{3}\b"] the
    macro [\a] occurs once and is dropped, [\b] is kept with its later
    definition, and the body is what is left without the three sites. *)
Lemma extractor_keeps_used_definitions_witness :
  let content :=
    str "\newcommand{\a}{1}\newcommand{\b}{2}\renewcommand{\b}{3}\b" in
  let used := fst (_extract_definitions content Command) in
  dict_get (str "a") used = None
  /\ dict_get (str "b") used = Some (str "\renewcommand{\b}{3}")
  /\ body_content content = Ok (str "\b").
Proof.
  cbv zeta.
  destruct (extractor_keeps_used_definitions
              (str "\newcommand{\a}{1}\newcommand{\b}{2}\renewcommand{\b}{3}\b")
              Command) as (_ & Hunused & Hlast & keep & Hbody & _).
  split; [|split].
  - apply (Hunused (Definition_ (str "a") (str "\newcommand{\a}{1}") 0 18)).
    + vm_compute. now left.
    + vm_compute. lia.
  - apply (Hlast [Definition_ (str "a") (str "\newcommand{\a}{1}") 0 18;
                  Definition_ (str "b") (str "\newcommand{\b}{2}") 18 36]
                 (Definition_ (str "b") (str "\renewcommand{\b}{3}") 36 56) []).
    + reflexivity.
    + intros d' [].
    + vm_compute. lia.
  - rewrite Hbody. revert Hbody. vm_compute. intro H. injection H as <-.
    reflexivity.
Defined.

(** C1, as stated, fails where a definition stands inside the body of
    another: [\arraystretch] is defined once, inside the definition of
    [\foo], and referenced nowhere else; it is not in the kept map, but
    the kept text of [\foo] carries its definition text into the
    output. *)
Lemma nested_definition_text_stays :
  let content :=
    str "\documentclass{article}" ++ [nl] ++ str "\foo" ++ [nl]
    ++ str "\newcommand{\foo}{\renewcommand{\arraystretch}{1.2}}" in
  let inner :=
    Definition_ (str "arraystretch") (str "\renewcommand{\arraystretch}{1.2}")
      47 80 in
  let output :=
    str "\documentclass{article}" ++ [nl; nl]
    ++ str "\newcommand{\foo}{\renewcommand{\arraystretch}{1.2}}" ++ [nl]
    ++ str "\foo" in
  all_definitions content Command
  = [Definition_ (str "foo")
       (str "\newcommand{\foo}{\renewcommand{\arraystretch}{1.2}}") 29 81;
     inner]
  /\ usage_count content Command (d_name inner) = 1
  /\ dict_get (d_name inner) (fst (_extract_definitions content Command)) = None
  /\ process_preamble_and_definitions content = Ok output
  /\ contains output (d_text inner) = true.
Proof.
  cbv zeta. repeat split; vm_compute; reflexivity.
Qed.

(** ** The protected-block splitter *)

Lemma env_command_of_match (word : text) (c1 : cursor) (w : text) (c2 : cursor) :
  matches (env_command_pattern word) c1 w c2 -> env_command word w.
Proof.
  unfold env_command_pattern. rewrite !seq_cons. cbn [seq]. intro H.
  apply matches_seq_inv in H. destruct H as (x1 & d1 & r1 & -> & H1 & H).
  apply matches_seq_inv in H. destruct H as (x2 & d2 & r2 & -> & H2 & H).
  apply matches_seq_inv in H. destruct H as (x3 & d3 & r3 & -> & H3 & H).
  apply matches_seq_inv in H. destruct H as (x4 & d4 & r4 & -> & H4 & H).
  apply matches_seq_inv in H. destruct H as (x5 & d5 & r5 & -> & H5 & H).
  apply matches_seq_inv in H. destruct H as (x6 & d6 & x7 & -> & H6 & H7).
  apply matches_lit_inv in H1. apply matches_chr_inv in H3, H7.
  apply matches_star_cls_inv in H2, H4, H6. subst.
  exists x2, x4, x5, x6. repeat split; try assumption.
  now exists d4, d5.
Qed.

Lemma env_names_context_free : context_free RE_ENV_NAMES = true.
Proof. reflexivity. Qed.

Lemma match_of_env_command (word cmd : text) (b : option ascii) (t : text) :
  env_command word cmd ->
  exists c2, matches (env_command_pattern word) (Cursor b (cmd ++ t)) cmd c2.
Proof.
  intros (w1 & w2 & n & w3 & -> & B1 & B2 & B3 & (c1 & c2 & Hn)).
  unfold env_command_pattern, ws. rewrite !seq_cons. cbn [seq].
  rewrite <- !app_assoc. cbn [app]. rewrite <- !app_assoc. cbn [app].
  eexists.
  eapply matches_seq; [apply matches_lit|].
  eapply matches_seq; [apply (matches_star_cls isspace w1 B1)|].
  refine (matches_seq _ _ _ [lbrace] _ _ _ (matches_chr lbrace _ _) _).
  eapply matches_seq; [apply (matches_star_cls isspace w2 B2)|].
  eapply matches_seq;
    [apply (matches_context_free _ _ _ _ Hn env_names_context_free)|].
  eapply matches_seq; [apply (matches_star_cls isspace w3 B3)|].
  apply matches_chr.
Qed.

Lemma app_eq_tail {A : Type} (a c b d : list A) :
  a ++ b = c ++ d -> length b = length d -> a = c /\ b = d.
Proof.
  revert c. induction a as [| x a IH]; intros c H Hlen.
  - destruct c as [| y c]; [now split|].
    exfalso. cbn [app] in H. rewrite H in Hlen. cbn [length] in Hlen.
    rewrite length_app in Hlen. lia.
  - destruct c as [| y c].
    + exfalso. cbn [app] in H. rewrite <- H in Hlen. cbn [length] in Hlen.
      rewrite length_app in Hlen. lia.
    + injection H as -> H. destruct (IH c H Hlen) as [-> ->]. now split.
Qed.

(** What the splitter's pattern finds at a place: a begin command, a
    body, and the first end command after the begin command. *)
Lemma protected_block_at (prev : option ascii) (span after : text) (c : caps) :
  exec_at RE_PROTECTED_BLOCKS prev (span ++ after) = Some (length span, c) ->
  exists b body e,
    span = b ++ body ++ e
    /\ begin_command b /\ end_command e
    /\ forall body1 body2 e' tail,
         body = body1 ++ body2 -> body2 <> [] ->
         body2 ++ e ++ after = e' ++ tail -> ~ end_command e'.
Proof.
  unfold exec_at, RE_PROTECTED_BLOCKS. rewrite exec_Group, !seq_cons.
  cbn [seq]. rewrite exec_Seq. intro H.
  apply exec_sound in H. destruct H as (b & [p1 t1] & c1 & Hb & H).
  rewrite exec_Seq in H. unfold dot_all in H. apply exec_lazy_first in H.
  destruct H as (body & t' & -> & He & Hmin).
  apply exec_sound in He. destruct He as (e & [p3 t3] & c3 & He & Hk).
  cbn beta in Hk. cbn [rest] in Hk.
  destruct (matches_rest _ _ _ _ Hb) as [Hr1 _].
  destruct (matches_rest _ _ _ _ He) as [Hr2 _]. cbn [rest] in Hr1, Hr2.
  subst t'. injection Hk as Hlen _.
  assert (Htail : span = b ++ body ++ e /\ after = t3).
  { rewrite !app_assoc in Hr1. apply app_eq_tail in Hr1.
    - destruct Hr1 as [-> ->]. now rewrite <- !app_assoc.
    - pose proof (f_equal (@length ascii) Hr1) as HL.
      rewrite !length_app in HL. rewrite length_app in Hlen. lia. }
  destruct Htail as [-> ->].
  exists b, body, e. repeat split.
  - exact (env_command_of_match _ _ _ _ Hb).
  - exact (env_command_of_match _ _ _ _ He).
  - intros body1 body2 e' tail Hbody Hne Heq Hend.
    specialize (Hmin body1 body2 Hbody Hne). rewrite Heq in Hmin.
    destruct (match_of_env_command (str "\end") e' (last_opt body1 p1) tail Hend)
      as [c2 Hm].
    revert Hmin. apply (exec_complete_at _ _ _ _ _ _ Hm). discriminate.
Qed.

(** C2 (amended).  Each protected span the splitter recognizes is a
    block of the text it splits that starts with a begin command and ends
    with an end command, both for names the splitter's name pattern
    accepts, and the end command is the first one after the begin
    command: no end command for an accepted name starts inside the body
    between them.  The two names need not be equal. *)
Theorem protected_span_shape (content : text) (i : nat) (span : text) :
  nth_error (protected_split content) (2 * i + 1) = Some span ->
  exists before after b body e,
    normalize_lines content = before ++ span ++ after
    /\ span = b ++ body ++ e
    /\ begin_command b /\ end_command e
    /\ forall body1 body2 e' tail,
         body = body1 ++ body2 -> body2 <> [] ->
         body2 ++ e ++ after = e' ++ tail -> ~ end_command e'.
Proof.
  intro H. apply split_odd_matches in H.
  destruct H as (before & after & c & Hcontent & Hexec).
  destruct (protected_block_at _ _ _ _ Hexec) as (b & body & e & H1 & H2 & H3 & H4).
  exists before, after, b, body, e. auto.
Qed.

(** The span of ["a\begin{figure}x\end{figure}b"]. *)
Lemma protected_span_shape_witness :
  exists before after b body e,
    normalize_lines (str "a\begin{figure}x\end{figure}b")
    = before ++ str "\begin{figure}x\end{figure}" ++ after
    /\ str "\begin{figure}x\end{figure}" = b ++ body ++ e
    /\ begin_command b /\ end_command e
    /\ forall body1 body2 e' tail,
         body = body1 ++ body2 -> body2 <> [] ->
         body2 ++ e ++ after = e' ++ tail -> ~ end_command e'.
Proof.
  apply (protected_span_shape (str "a\begin{figure}x\end{figure}b") 0).
  vm_compute. reflexivity.
Defined.

(** C2, as stated, fails: a table that holds a tabular is protected from
    its begin command to the end command of the tabular; the names of
    the two differ, and the caption and the end of the table are left in
    the free text that follows. *)
Lemma protected_span_ends_at_other_name :
  protected_split
    (str "\begin{table}" ++ [nl] ++ str "\begin{tabular}{c}" ++ [nl]
     ++ str "x" ++ [nl] ++ str "\end{tabular}" ++ [nl]
     ++ str "\caption{c}" ++ [nl] ++ str "\end{table}")
  = [ [];
      str "\begin{table}" ++ [nl] ++ str "\begin{tabular}{c}" ++ [nl]
      ++ str "x" ++ [nl] ++ str "\end{tabular}";
      [nl] ++ str "\caption{c}" ++ [nl] ++ str "\end{table}" ].
Proof. vm_compute. reflexivity. Qed.

(** The names of the list that end in a star are pasted into the pattern
    unescaped: an environment [figure*] is not recognized, and [figur],
    which is not in the list, is. *)
Lemma starred_names_in_the_pattern :
  protected_split (str "\begin{figure*}x\end{figure*}")
  = [str "\begin{figure*}x\end{figure*}"]
  /\ protected_split (str "\begin{figur}x\end{figur}")
     = [ []; str "\begin{figur}x\end{figur}"; [] ].
Proof. split; vm_compute; reflexivity. Qed.

(** ** The indentation reconstructor *)

Lemma reindent_lines_levels (lines : list text) :
  forall level,
  reindent_lines lines level
  = map emitted (combine lines (indent_levels lines level)).
Proof.
  induction lines as [| line lines IH]; intro level; [reflexivity|].
  cbn [reindent_lines indent_levels].
  destruct (strip line) as [| a l] eqn:E.
  - cbn [combine map]. unfold emitted at 1. cbn [fst]. rewrite E.
    now rewrite IH.
  - destruct (startswith (a :: l) (str "\end") || startswith (a :: l) (str "\right"))%bool;
      cbn [combine map]; unfold emitted at 1; cbn [fst snd]; rewrite E;
      now rewrite IH.
Qed.

Lemma indent_levels_nonneg (lines : list text) :
  forall level, (0 <= level)%Z ->
  Forall (fun d => (0 <= d)%Z) (indent_levels lines level).
Proof.
  induction lines as [| line lines IH]; intros level Hlevel; [constructor|].
  cbn [indent_levels]. destruct (strip line) as [| a l].
  - constructor; [assumption | now apply IH].
  - destruct (startswith (a :: l) (str "\end") || startswith (a :: l) (str "\right"))%bool.
    + constructor; [lia | apply IH; lia].
    + constructor; [assumption | apply IH; lia].
Qed.

Lemma indent_levels_length (lines : list text) :
  forall level, length (indent_levels lines level) = length lines.
Proof.
  induction lines as [| line lines IH]; intro level; [reflexivity|].
  cbn [indent_levels]. destruct (strip line) as [| a l]; cbn [length].
  - now rewrite IH.
  - destruct (startswith (a :: l) (str "\end") || startswith (a :: l) (str "\right"))%bool;
      cbn [length]; now rewrite IH.
Qed.

(** C8.  Whatever the text, and however many [\end] and [\right] markers
    it has, every line is emitted at a level that is not negative; the
    output is each line at its level; and a blank line is emitted
    empty, without indentation. *)
Theorem reindent_level_never_negative (content : text) :
  let lines := split_on nl content in
  let levels := indent_levels lines 0 in
  length levels = length lines
  /\ Forall (fun d => (0 <= d)%Z) levels
  /\ reindent_tex_content content
     = join [nl] (map emitted (combine lines levels))
  /\ forall line d, strip line = [] -> emitted (line, d) = [].
Proof.
  cbv zeta. repeat split.
  - apply indent_levels_length.
  - apply indent_levels_nonneg. lia.
  - unfold reindent_tex_content. now rewrite reindent_lines_levels.
  - intros line d H. unfold emitted. cbn [fst]. now rewrite H.
Qed.

(** A text with more [\end] markers than [\begin] markers, and a blank
    line: every level is 0 or more, and the blank line is emitted empty. *)
Lemma reindent_level_never_negative_witness :
  Forall (fun d => (0 <= d)%Z)
    (indent_levels
       (split_on nl (str "\end{a}" ++ [nl] ++ str "\end{b}" ++ [nl] ++ str "x"))
       0)
  /\ emitted (str "   ", 2%Z) = [].
Proof.
  destruct (reindent_level_never_negative
              (str "\end{a}" ++ [nl] ++ str "\end{b}" ++ [nl] ++ str "x"))
    as (_ & Hlevels & _ & Hblank).
  split; [exact Hlevels | apply Hblank; reflexivity].
Defined.

(** ** The citation-filtered bibliography builder *)

Lemma read_file_exists (fs : node) (p : path) (content : text) :
  read_file fs p = Content content -> path_exists fs p = true.
Proof.
  unfold read_file, path_exists. destruct (resolve fs p); [reflexivity | discriminate].
Qed.

Lemma kept_entries_none (bib_content : text) (used_citations : list text) :
  (forall m, In m (finditer RE_ENTRY bib_content) ->
             mem_text (entry_key bib_content m) used_citations = false) ->
  kept_entries_text bib_content used_citations = [].
Proof.
  intro H. unfold kept_entries_text.
  induction (finditer RE_ENTRY bib_content) as [| m ms IH]; [reflexivity|].
  cbn [filter]. rewrite (H m) by now left.
  apply IH. intros m' Hm'. apply H. now right.
Qed.

(** C9.  When the source holds no entry whose key is cited and no
    [@string] declaration, [clean_bib_file] returns no file name and
    writes nothing; and step 6 of [main], when that source is the one it
    selects, leaves the document text as it is, its bibliography
    reference included, and writes no file. *)
Theorem bibliography_nothing_to_write
  (fs : node) (input_dir output_dir bib_path : path)
  (used_citations : list text) (bib_content : text) :
  read_file fs bib_path = Content bib_content ->
  (forall m, In m (finditer RE_ENTRY bib_content) ->
             mem_text (entry_key bib_content m) used_citations = false) ->
  string_macros bib_content = [] ->
  clean_bib_file fs bib_path used_citations output_dir = Ok (None, [])
  /\ forall (final_tex_content : text) (bib_match : rmatch),
     all_citations final_tex_content = used_citations ->
     search RE_BIBLIOGRAPHY final_tex_content = Some bib_match ->
     first_existing_bib fs input_dir
       (map strip (split_on "," (group final_tex_content bib_match 1)))
     = Some bib_path ->
     main_bibliography_step fs input_dir output_dir final_tex_content
     = Ok (final_tex_content, []).
Proof.
  intros Hread Hkeys Hmacros.
  assert (Hclean : clean_bib_file fs bib_path used_citations output_dir
                   = Ok (None, [])).
  { unfold clean_bib_file. rewrite (read_file_exists _ _ _ Hread), Hread.
    cbn [negb]. now rewrite (kept_entries_none _ _ Hkeys), Hmacros. }
  split; [exact Hclean|].
  intros final_tex_content bib_match Hused Hsearch Hfirst.
  unfold main_bibliography_step. rewrite Hsearch, Hused.
  destruct used_citations as [| k ks]; [reflexivity|].
  rewrite Hfirst, Hclean. reflexivity.
Qed.

(** A source whose one entry [b] is not among the citations [a], and a
    document that names it. *)
Lemma bibliography_nothing_to_write_witness :
  let fs := Dir [(str "p", Dir [(str "refs.bib",
              File (str "@article{b," ++ [nl] ++ str " title={B}" ++ [nl] ++ str "}"))])] in
  let tex := str "\cite{a}\bibliography{refs}" in
  clean_bib_file fs [str "p"; str "refs.bib"] [str "a"] [str "out"]
  = Ok (None, [])
  /\ main_bibliography_step fs [str "p"] [str "out"] tex = Ok (tex, []).
Proof.
  cbv zeta.
  pose (fs := Dir [(str "p", Dir [(str "refs.bib",
              File (str "@article{b," ++ [nl] ++ str " title={B}" ++ [nl] ++ str "}"))])]).
  pose (tex := str "\cite{a}\bibliography{refs}").
  assert (Hkeys : forall m,
    In m (finditer RE_ENTRY
            (str "@article{b," ++ [nl] ++ str " title={B}" ++ [nl] ++ str "}")) ->
    mem_text (entry_key
            (str "@article{b," ++ [nl] ++ str " title={B}" ++ [nl] ++ str "}") m)
      [str "a"] = false).
  { intros m Hm. vm_compute in Hm. destruct Hm as [<- | []]. reflexivity. }
  destruct (bibliography_nothing_to_write fs [str "p"] [str "out"]
              [str "p"; str "refs.bib"] [str "a"] _ eq_refl Hkeys eq_refl)
    as [Hclean Hstep].
  split; [exact Hclean|].
  destruct (search RE_BIBLIOGRAPHY tex) as [bib_match|] eqn:Hsearch;
    [|vm_compute in Hsearch; discriminate].
  apply (Hstep tex bib_match); [reflexivity | exact Hsearch |].
  vm_compute in Hsearch. injection Hsearch as <-. reflexivity.
Defined.

(** ** The program on examples *)

(** A text the name pattern reads to its end is an accepted name. *)
Lemma accepted_name_check (n : text) :
  exec RE_ENV_NAMES (Cursor None n) []
    (fun cur _ => match rest cur with [] => Some tt | _ :: _ => None end)
  = Some tt ->
  accepted_name n.
Proof.
  intro H. apply exec_sound in H. destruct H as (w & [b t] & c & Hm & Hk).
  cbn [rest] in Hk. destruct t; [|discriminate].
  destruct (matches_rest _ _ _ _ Hm) as [Hrest _]. cbn [rest] in Hrest.
  rewrite app_nil_r in Hrest. subst w. now exists (Cursor None n), (Cursor b []).
Qed.

(** The names of the list that have no star are accepted. *)
Lemma plain_names_accepted :
  Forall (fun name => accepted_name (str name))
    ["figure"; "table"; "tabular"; "verbatim"; "Verbatim"; "lstlisting";
     "equation"; "align"; "itemize"; "enumerate"; "description"]%string.
Proof.
  repeat (constructor; [apply accepted_name_check; vm_compute; reflexivity|]).
  constructor.
Qed.

(** The assembler always returns: its removal loop never reads past the
    end of the list. *)
Lemma process_preamble_returns (content : text) :
  exists out, process_preamble_and_definitions content = Ok out.
Proof.
  unfold process_preamble_and_definitions.
  destruct (surviving_spec content) as (keep & Hk & _).
  rewrite body_content_surviving, Hk. cbn [bind].
  destruct (search RE_DOC_CLASS _), (full_preamble_block content); eauto.
Qed.

(** A paragraph of two lines becomes one line. *)
Example reflow_joins_lines :
  clean_tex_content (str "Hello" ++ [nl] ++ str "world") = str "Hello world".
Proof. vm_compute. reflexivity. Qed.

(** A caption of three lines in a figure becomes one line; the rest of
    the figure stays as it is. *)
Example reflow_collapses_caption :
  clean_tex_content
    (str "\begin{figure}" ++ [nl] ++ str "x" ++ [nl] ++ str "y" ++ [nl]
     ++ str "\caption{a" ++ [nl] ++ str "  long" ++ [nl] ++ str "caption}" ++ [nl]
     ++ str "\end{figure}")
  = str "\begin{figure}" ++ [nl] ++ str "x" ++ [nl] ++ str "y" ++ [nl]
    ++ str "\caption{a long caption}" ++ [nl] ++ str "\end{figure}".
Proof. vm_compute. reflexivity. Qed.

(** Items are indented one level below their list. *)
Example reindent_itemize :
  reindent_tex_content
    (str "\begin{itemize}" ++ [nl] ++ str "\item a" ++ [nl] ++ str "\item b"
     ++ [nl] ++ str "\end{itemize}")
  = str "\begin{itemize}" ++ [nl] ++ str "    \item a" ++ [nl]
    ++ str "    \item b" ++ [nl] ++ str "\end{itemize}".
Proof. vm_compute. reflexivity. Qed.

(** Imports are put after the document class in the order of their
    names, and a duplicate once. *)
Example preamble_sorts_imports :
  process_preamble_and_definitions
    (str "\documentclass{article}" ++ [nl] ++ str "\usepackage{b}" ++ [nl]
     ++ str "\usepackage{a}" ++ [nl] ++ str "\usepackage{b}" ++ [nl] ++ str "text")
  = Ok (str "\documentclass{article}" ++ [nl; nl] ++ str "\usepackage{a}" ++ [nl]
        ++ str "\usepackage{b}" ++ [nl] ++ str "text").
Proof. vm_compute. reflexivity. Qed.

(** A cycle whose files include each other by the same spelling of their
    paths is cut at the second visit. *)
Example merge_cuts_plain_cycle :
  merge_tex_files 4
    (Dir [(str "p", Dir [(str "main.tex", File (str "M\input{a}"));
                         (str "a.tex", File (str "A\input{b}"));
                         (str "b.tex", File (str "B\input{a}"))])])
    [str "p"; str "main.tex"] [str "p"] []
  = Ok (str "MAB% --- SKIPPING RECURSIVE INCLUDE OF a.tex ---" ++ [nl],
        [[str "p"; str "b.tex"]; [str "p"; str "a.tex"];
         [str "p"; str "main.tex"]]).
Proof. vm_compute. reflexivity. Qed.

(** A block comment goes with its delimiter lines. *)
Example strip_block_comment :
  strip_comments
    (str "a" ++ [nl] ++ str "\begin{comment}" ++ [nl] ++ str "x" ++ [nl]
     ++ str "\end{comment}" ++ [nl] ++ str "b")
  = str "a" ++ [nl] ++ str "b".
Proof. vm_compute. reflexivity. Qed.

(** ** More on the balanced-delimiter scanner *)

Lemma closes_levels_char (c : ascii) (n : nat) (t : text) :
  c <> lbrace -> c <> rbrace -> closes_levels n t -> closes_levels n (c :: t).
Proof.
  intros Hl Hr H. destruct H as [b Hb | n b rest Hb Hrest].
  - apply closes_none. now apply balanced_char.
  - change (c :: b ++ rbrace :: rest) with ((c :: b) ++ rbrace :: rest).
    apply closes_more; [now apply balanced_char | assumption].
Qed.

Lemma closes_levels_group (n : nat) (t : text) :
  closes_levels (S n) t -> closes_levels n (lbrace :: t).
Proof.
  intro H. inversion H as [| n' b rest Hb Hrest]; subst.
  destruct Hrest as [b' Hb' | n b' rest' Hb' Hrest'].
  - apply closes_none. now apply balanced_group.
  - replace (lbrace :: b ++ rbrace :: b' ++ rbrace :: rest')
      with ((lbrace :: b ++ rbrace :: b') ++ rbrace :: rest')
      by (cbn [app]; now rewrite <- app_assoc).
    apply closes_more; [now apply balanced_group | assumption].
Qed.

(** What the loop has read when it returns an offset. *)
Lemma scan_braces_closes (rest : text) :
  forall (i n : nat) (j : Z),
  scan_braces rest i (Z.of_nat (S n)) = j -> j <> (-1)%Z ->
  exists body tail,
    rest = body ++ rbrace :: tail /\ closes_levels n body
    /\ j = Z.of_nat (i + length body).
Proof.
  induction rest as [| c rest IH]; intros i n j Hj Hne.
  - cbn in Hj. congruence.
  - cbn [scan_braces] in Hj.
    destruct (Ascii.eqb_spec c lbrace) as [-> | Hl].
    + destruct (Z.eqb_spec (Z.of_nat (S n) + 1) 0) as [H0 | _]; [lia|].
      replace (Z.of_nat (S n) + 1)%Z with (Z.of_nat (S (S n))) in Hj by lia.
      destruct (IH _ _ _ Hj Hne) as (body & tail & -> & Hb & ->).
      exists (lbrace :: body), tail. repeat split.
      * now apply closes_levels_group.
      * cbn [length]. f_equal. lia.
    + destruct (Ascii.eqb_spec c rbrace) as [-> | Hr].
      * destruct n as [| n].
        -- cbn in Hj. exists [], rest. repeat split.
           ++ apply closes_none, balanced_nil.
           ++ cbn [length]. rewrite Nat.add_0_r. now symmetry.
        -- destruct (Z.eqb_spec (Z.of_nat (S (S n)) - 1) 0) as [H0 | _]; [lia|].
           replace (Z.of_nat (S (S n)) - 1)%Z with (Z.of_nat (S n)) in Hj by lia.
           destruct (IH _ _ _ Hj Hne) as (body & tail & -> & Hb & ->).
           exists (rbrace :: body), tail. repeat split.
           ++ apply (closes_more n [] body); [apply balanced_nil | assumption].
           ++ cbn [length]. f_equal. lia.
      * destruct (Z.eqb_spec (Z.of_nat (S n)) 0) as [H0 | _]; [lia|].
        destruct (IH _ _ _ Hj Hne) as (body & tail & -> & Hb & ->).
        exists (c :: body), tail. repeat split.
        -- now apply closes_levels_char.
        -- cbn [length]. f_equal. lia.
Qed.

Lemma nth_error_split_at (t : text) (i : nat) (c : ascii) :
  nth_error t i = Some c ->
  t = firstn i t ++ c :: skipn (S i) t /\ length (firstn i t) = i.
Proof.
  revert i. induction t as [| a t IH]; intros [| i] H; try discriminate.
  - injection H as ->. now split.
  - cbn [nth_error] in H. destruct (IH _ H) as [E L].
    cbn [firstn skipn app length]. split; [now f_equal | now f_equal].
Qed.

(** The text between the brace at [start_index] and the brace at an
    offset the scanner returns is correctly nested. *)
Lemma find_balanced_braces_body (t : text) (start_index : nat) (j : Z) :
  _find_balanced_braces t start_index = j -> j <> (-1)%Z ->
  exists pre body post,
    t = pre ++ lbrace :: body ++ rbrace :: post
    /\ length pre = start_index
    /\ balanced body
    /\ j = Z.of_nat (start_index + 1 + length body).
Proof.
  unfold _find_balanced_braces. intros Hj Hne.
  destruct (nth_error t start_index) as [c|] eqn:E; [|congruence].
  destruct (Ascii.eqb_spec c lbrace) as [-> | _]; [|congruence].
  destruct (nth_error_split_at _ _ _ E) as [Ht Hlen].
  destruct (scan_braces_closes _ (S start_index) 0 j Hj Hne)
    as (body & tail & Hrest & Hb & ->).
  inversion Hb as [b Hbal |]; subst b.
  exists (firstn start_index t), body, tail.
  rewrite <- Hrest. repeat split; try assumption; f_equal; lia.
Qed.

(** X1.  An offset the scanner returns is the offset of a closing brace:
    the character at [start_index] is an opening brace, the text between
    the two braces is correctly nested, and the offset lies after
    [start_index] and inside the text. *)
Theorem find_balanced_braces_sound (t : text) (start_index : nat) (j : Z) :
  _find_balanced_braces t start_index = j -> j <> (-1)%Z ->
  exists pre body post,
    t = pre ++ lbrace :: body ++ rbrace :: post
    /\ length pre = start_index
    /\ balanced body
    /\ j = Z.of_nat (start_index + 1 + length body)
    /\ (Z.of_nat start_index < j < Z.of_nat (length t))%Z.
Proof.
  intros Hj Hne.
  destruct (find_balanced_braces_body _ _ _ Hj Hne)
    as (pre & body & post & Ht & Hlen & Hbal & Hjv).
  exists pre, body, post. repeat split; try assumption; try lia.
  rewrite Ht, length_app. cbn [length]. rewrite length_app. cbn [length]. lia.
Qed.

(** The scanner on ["a{b{c}d}e"] from offset 1. *)
Lemma find_balanced_braces_sound_witness :
  exists pre body post,
    str "a{b{c}d}e" = pre ++ lbrace :: body ++ rbrace :: post
    /\ length pre = 1
    /\ balanced body
    /\ 7%Z = Z.of_nat (1 + 1 + length body)
    /\ (Z.of_nat 1 < 7 < Z.of_nat (length (str "a{b{c}d}e")))%Z.
Proof.
  apply (find_balanced_braces_sound (str "a{b{c}d}e") 1 7%Z).
  - vm_compute. reflexivity.
  - discriminate.
Defined.
(** ** The search for the project root *)

Lemma firstn_rev_snoc (parent : list text) (c : text) (k : nat) :
  k <= length parent ->
  firstn k (rev (c :: parent)) = firstn k (rev parent).
Proof.
  intro Hk. cbn [rev]. rewrite firstn_app, length_rev.
  replace (k - length parent) with 0 by lia. cbn [firstn]. apply app_nil_r.
Qed.

(** The loop returns the longest beginning of the path under which the
    document exists. *)
Lemma search_upward_spec (fs : node) (name : text) (current : list text) :
  match search_upward fs name current with
  | Some root =>
      length root <= length current
      /\ root = firstn (length root) (rev current)
      /\ path_exists fs (path_join root name) = true
      /\ forall k, length root < k <= length current ->
         path_exists fs (path_join (firstn k (rev current)) name) = false
  | None =>
      forall k, k <= length current ->
      path_exists fs (path_join (firstn k (rev current)) name) = false
  end.
Proof.
  induction current as [| c parent IH].
  - cbn [search_upward rev]. destruct (path_exists fs (path_join [] name)) eqn:E.
    + repeat split; [lia | assumption | cbn; lia].
    + intros k _. now rewrite firstn_nil.
  - cbn [search_upward].
    destruct (path_exists fs (path_join (rev (c :: parent)) name)) eqn:E.
    + repeat split.
      * rewrite length_rev. lia.
      * now rewrite firstn_all.
      * assumption.
      * intros k Hk. rewrite length_rev in Hk. lia.
    + assert (Hfull : forall k, k = length (c :: parent) ->
        path_exists fs (path_join (firstn k (rev (c :: parent))) name) = false).
      { intros k ->. rewrite <- (length_rev (c :: parent)), firstn_all.
        exact E. }
      destruct (search_upward fs name parent) as [root|].
      * destruct IH as (Hlen & Hroot & Hex & Hnone).
        repeat split.
        -- cbn [length]. lia.
        -- now rewrite firstn_rev_snoc.
        -- assumption.
        -- intros k Hk. cbn [length] in Hk.
           destruct (Nat.eq_dec k (S (length parent))) as [-> | Hne];
             [now apply Hfull|].
           rewrite firstn_rev_snoc by lia. apply Hnone. lia.
      * intros k Hk. cbn [length] in Hk.
        destruct (Nat.eq_dec k (S (length parent))) as [-> | Hne];
          [now apply Hfull|].
        rewrite firstn_rev_snoc by lia. apply IH. lia.
Qed.

(** X2.  [find_project_root] returns the nearest directory, going up from
    the resolved start path, that holds the main document: the result
    begins the start path, the document exists in it and in no directory
    between it and the start path; it returns [None] only when no
    directory from the start path up to the root holds the document. *)
Theorem find_project_root_nearest (fs : node) (cwd : path)
  (start_path main_doc_name : text) :
  let start := path_resolve cwd start_path in
  match find_project_root fs cwd start_path main_doc_name with
  | Some root =>
      (exists below, start = root ++ below)
      /\ path_exists fs (path_join root main_doc_name) = true
      /\ forall k, length root < k <= length start ->
         path_exists fs (path_join (firstn k start) main_doc_name) = false
  | None =>
      forall k,
      path_exists fs (path_join (firstn k start) main_doc_name) = false
  end.
Proof.
  intro start. unfold find_project_root. fold start.
  pose proof (search_upward_spec fs main_doc_name (rev start)) as H.
  rewrite rev_involutive, length_rev in H.
  assert (Hclamp : forall k, firstn k start = firstn (Nat.min k (length start)) start).
  { intro k. destruct (Nat.le_ge_cases k (length start)) as [Hk | Hk].
    - now rewrite Nat.min_l.
    - rewrite Nat.min_r by assumption. now rewrite !firstn_all2 by lia. }
  destruct (search_upward fs main_doc_name (rev start)) as [root|].
  - destruct H as (Hlen & Hroot & Hex & Hnone). repeat split.
    + exists (skipn (length root) start). rewrite Hroot at 1.
      apply eq_sym, firstn_skipn.
    + assumption.
    + intros k Hk. apply Hnone. lia.
  - intro k. rewrite Hclamp. apply H. apply Nat.le_min_r.
Qed.

(** From [/home/u/proj/sections], the root of a project whose [main.tex]
    lies in [/home/u/proj]; a [".."] in the start path is resolved
    first. *)
Example find_project_root_from_subdirectory :
  let fs :=
    Dir [(str "home",
          Dir [(str "u",
                Dir [(str "proj",
                      Dir [(str "main.tex", File []);
                           (str "sections", Dir [(str "a.tex", File [])])])])])] in
  find_project_root fs [str "home"; str "u"; str "proj"; str "sections"]
    (str ".") (str "main.tex")
  = Some [str "home"; str "u"; str "proj"]
  /\ find_project_root fs [str "home"; str "u"] (str "proj/sections/../sections")
       (str "main.tex")
     = Some [str "home"; str "u"; str "proj"]
  /\ find_project_root fs [str "home"; str "u"] (str ".") (str "main.tex")
     = None.
Proof. vm_compute. repeat split. Qed.
(** ** More on the recursive merger *)

(** A property of the state that every call of the callback keeps is
    kept by the substitution. *)
Lemma sub_state_invariant {St : Type} (I : St -> Prop)
  (repl : rmatch -> St -> outcome (text * St)) (toks : list token) :
  (forall m st x st', I st -> repl m st = Ok (x, st') -> I st') ->
  forall st out st',
  I st -> sub_state repl toks st = Ok (out, st') -> I st'.
Proof.
  intro Hrepl. induction toks as [| [a | m] toks IH]; intros st out st' Hst H.
  - cbn in H. now injection H as _ <-.
  - cbn [sub_state] in H.
    destruct (sub_state repl toks st) as [[o s] | |] eqn:E; cbn in H;
      try discriminate.
    injection H as _ <-. eapply IH; eauto.
  - cbn [sub_state] in H.
    destruct (repl m st) as [[x1 s1] | |] eqn:E1; cbn in H; try discriminate.
    destruct (sub_state repl toks s1) as [[o s] | |] eqn:E2; cbn in H;
      try discriminate.
    injection H as _ <-. eapply IH; [|exact E2]. eapply Hrepl; eauto.
Qed.

(** An exception of the substitution is one of the callback. *)
Lemma sub_state_raised {St : Type} (P : text -> Prop)
  (repl : rmatch -> St -> outcome (text * St)) (toks : list token) :
  (forall m st e, repl m st = Raised e -> P e) ->
  forall st e, sub_state repl toks st = Raised e -> P e.
Proof.
  intro Hrepl. induction toks as [| [a | m] toks IH]; intros st e H.
  - discriminate.
  - cbn [sub_state] in H.
    destruct (sub_state repl toks st) as [[o s] | |] eqn:E; cbn in H;
      try discriminate.
    injection H as <-. eapply IH; eauto.
  - cbn [sub_state] in H.
    destruct (repl m st) as [[x1 s1] | |] eqn:E1; cbn in H; try discriminate.
    + destruct (sub_state repl toks s1) as [[o s] | |] eqn:E2; cbn in H;
        try discriminate.
      injection H as <-. eapply IH; eauto.
    + injection H as <-. eapply Hrepl; eauto.
Qed.

Lemma path_mem_in (p : path) (ps : list path) :
  path_mem p ps = true <-> In p ps.
Proof.
  unfold path_mem. destruct (in_dec path_eq_dec p ps); split; intro H;
    congruence || assumption || contradiction.
Qed.

(** What a merge that returns has done to the set of visited files. *)
Lemma merge_visited (limit : nat) (fs : node) (project_root : path) :
  forall (tex_file_path : path) (processed_files : list path) (out : text)
         (processed' : list path),
  merge_tex_files limit fs tex_file_path project_root processed_files
  = Ok (out, processed') ->
  In tex_file_path processed'
  /\ incl processed_files processed'
  /\ forall q, In q processed' ->
     In q processed_files \/ q = tex_file_path
     \/ is_relative_to q project_root = true.
Proof.
  induction limit as [| limit IH]; intros p processed out processed' H;
    [discriminate|].
  cbn [merge_tex_files] in H.
  destruct (path_mem p processed) eqn:Hmem.
  { injection H as _ <-. apply path_mem_in in Hmem.
    repeat split; [assumption | apply incl_refl | now left]. }
  assert (Hbase :
    In p (p :: processed) /\ incl processed (p :: processed)
    /\ forall q, In q (p :: processed) ->
       In q processed \/ q = p \/ is_relative_to q project_root = true).
  { repeat split; [now left | now apply incl_tl, incl_refl |].
    intros q [<- | Hq]; auto. }
  destruct (read_file fs p) as [content | | e].
  - refine (sub_state_invariant
              (fun st => In p st /\ incl processed st
                 /\ forall q, In q st ->
                    In q processed \/ q = p
                    \/ is_relative_to q project_root = true)
              _ _ _ _ _ _ Hbase H).
    intros m st x st' (Hp & Hincl & Hnew) Hrepl.
    unfold replace_input in Hrepl.
    destruct (path_exists fs _); [|now injection Hrepl as _ <-].
    destruct (is_relative_to _ project_root) eqn:Hrel; [|discriminate].
    destruct (IH _ _ _ _ Hrepl) as (Hf & Hincl' & Hnew').
    repeat split.
    + now apply Hincl'.
    + intros q Hq. now apply Hincl', Hincl.
    + intros q Hq. destruct (Hnew' q Hq) as [Hst | [-> | Hr]]; auto.
  - now injection H as _ <-.
  - now injection H as _ <-.
Qed.

(** X3.  The set of visited files only grows: after a merge that returns,
    it holds the merged file and every file it held before. *)
Theorem merge_visited_grows (limit : nat) (fs : node)
  (tex_file_path project_root : path) (processed_files : list path)
  (out : text) (processed' : list path) :
  merge_tex_files limit fs tex_file_path project_root processed_files
  = Ok (out, processed') ->
  In tex_file_path processed' /\ incl processed_files processed'.
Proof.
  intro H. destruct (merge_visited _ _ _ _ _ _ _ H) as (H1 & H2 & _).
  now split.
Qed.

(** X4.  Every file the merge visits besides the file it was called on
    has a path that begins with the components of the project root: an
    inclusion that leads elsewhere is never read. *)
Theorem merge_visits_under_root (limit : nat) (fs : node)
  (tex_file_path project_root : path) (processed_files : list path)
  (out : text) (processed' : list path) :
  merge_tex_files limit fs tex_file_path project_root processed_files
  = Ok (out, processed') ->
  forall q, In q processed' ->
  In q processed_files \/ q = tex_file_path
  \/ is_relative_to q project_root = true.
Proof.
  intro H. now destruct (merge_visited _ _ _ _ _ _ _ H) as (_ & _ & H3).
Qed.

Lemma merge_raised (limit : nat) (fs : node) (project_root : path) :
  forall (tex_file_path : path) (processed_files : list path) (e : text),
  merge_tex_files limit fs tex_file_path project_root processed_files
  = Raised e ->
  e = str "ValueError".
Proof.
  induction limit as [| limit IH]; intros p processed e H; [discriminate|].
  cbn [merge_tex_files] in H.
  destruct (path_mem p processed); [discriminate|].
  destruct (read_file fs p) as [content | | e']; try discriminate.
  refine (sub_state_raised (fun e => e = str "ValueError") _ _ _ _ _ H).
  intros m st e0 Hrepl. unfold replace_input in Hrepl.
  destruct (path_exists fs _); [|discriminate].
  destruct (is_relative_to _ project_root).
  - eapply IH; eauto.
  - now injection Hrepl as <-.
Qed.


(** A project in which [main.tex] includes [a.tex] and [a.tex] includes
    [main.tex]; [old.tex] was visited before. *)
Lemma merge_visited_grows_witness :
  let visited :=
    [[str "p"; str "a.tex"]; [str "p"; str "main.tex"];
     [str "p"; str "old.tex"]] in
  In [str "p"; str "main.tex"] visited
  /\ incl [[str "p"; str "old.tex"]] visited.
Proof.
  apply (merge_visited_grows 3
           (Dir [(str "p", Dir [(str "main.tex", File (str "M\input{a}"));
                                (str "a.tex", File (str "A\input{main}"))])])
           [str "p"; str "main.tex"] [str "p"] [[str "p"; str "old.tex"]]
           (str "MA% --- SKIPPING RECURSIVE INCLUDE OF main.tex ---" ++ [nl])).
  vm_compute. reflexivity.
Defined.

(** In the same project, [a.tex] is visited as [p/a.tex], under the
    root [p]. *)
Lemma merge_visits_under_root_witness :
  In [str "p"; str "a.tex"] []
  \/ [str "p"; str "a.tex"] = [str "p"; str "main.tex"]
  \/ is_relative_to [str "p"; str "a.tex"] [str "p"] = true.
Proof.
  apply (merge_visits_under_root 3
           (Dir [(str "p", Dir [(str "main.tex", File (str "M\input{a}"));
                                (str "a.tex", File (str "A\input{main}"))])])
           [str "p"; str "main.tex"] [str "p"] []
           (str "MA% --- SKIPPING RECURSIVE INCLUDE OF main.tex ---" ++ [nl])
           [[str "p"; str "a.tex"]; [str "p"; str "main.tex"]]).
  - vm_compute. reflexivity.
  - left. reflexivity.
Defined.


(** *** Files that include nothing *)

(** Without a match, a scan yields the characters of the text. *)
Lemma scan_without_hits (r : regex) (s : text) (total : nat) (t : text) :
  forall prev,
  (forall m, ~ In (Hit m) (scan r total prev t 0)) ->
  scan r total prev t 0 = map Lit t.
Proof.
  induction t as [| a t IH]; intros prev Hno.
  - cbn [scan] in *. destruct (exec_at r prev []) as [[n c]|]; [|reflexivity].
    exfalso. eapply Hno. now left.
  - cbn [scan] in *.
    destruct (exec_at r prev (a :: t)) as [[[| n] c]|].
    + exfalso. eapply Hno. now left.
    + exfalso. eapply Hno. now left.
    + cbn [map]. f_equal. apply IH. intros m Hm. eapply Hno. right. exact Hm.
Qed.

Lemma tokens_without_matches (r : regex) (t : text) :
  count_matches r t = 0 -> tokens r t = map Lit t.
Proof.
  intro H. apply scan_without_hits; [exact []|].
  intros m Hm. apply (proj2 (in_finditer r t m)) in Hm.
  unfold count_matches in H. destruct (finditer r t); [destruct Hm | discriminate].
Qed.

Lemma sub_state_lits {St : Type} (repl : rmatch -> St -> outcome (text * St))
  (t : text) (st : St) :
  sub_state repl (map Lit t) st = Ok (t, st).
Proof.
  induction t as [| a t IH]; [reflexivity|].
  cbn [map sub_state]. now rewrite IH.
Qed.

(** A text without a match is left as it is by [sub]. *)
Lemma sub_with_without_matches (r : regex) (repl : rmatch -> text) (t : text) :
  count_matches r t = 0 -> sub_with r repl t = t.
Proof.
  intro H. unfold sub_with. rewrite (tokens_without_matches _ _ H). clear H.
  induction t as [| a t IH]; [reflexivity|]. cbn [map flat_map app].
  now f_equal.
Qed.

(** X6.  A file that is read and whose text, comments removed, holds no
    inclusion command is merged into that text, whatever the depth of
    nesting still allowed, and is entered in the set of visited files. *)
Theorem merge_file_without_inclusions (limit : nat) (fs : node)
  (tex_file_path project_root : path) (processed_files : list path)
  (content : text) :
  path_mem tex_file_path processed_files = false ->
  read_file fs tex_file_path = Content content ->
  count_matches RE_INPUT (strip_comments content) = 0 ->
  merge_tex_files (S limit) fs tex_file_path project_root processed_files
  = Ok (strip_comments content, tex_file_path :: processed_files).
Proof.
  intros Hmem Hread Hnone. cbn [merge_tex_files].
  rewrite Hmem, Hread, (tokens_without_matches _ _ Hnone).
  apply sub_state_lits.
Qed.

Lemma merge_file_without_inclusions_witness :
  merge_tex_files 1
    (Dir [(str "p", Dir [(str "main.tex",
                          File (str "a % note" ++ [nl] ++ str "b"))])])
    [str "p"; str "main.tex"] [str "p"] []
  = Ok (strip_comments (str "a % note" ++ [nl] ++ str "b"),
        [[str "p"; str "main.tex"]]).
Proof.
  apply (merge_file_without_inclusions 0); vm_compute; reflexivity.
Defined.

(** *** The placeholder for a missing file *)

Lemma merged_with_app (note : text -> Prop) (a b : text) :
  merged_with note a -> merged_with note b -> merged_with note (a ++ b).
Proof.
  induction 1 as [| t rest Ht Hn _ IH | n rest Hn _ IH]; intro Hb.
  - exact Hb.
  - rewrite <- app_assoc. apply merged_with_text; auto.
  - rewrite <- app_assoc. apply merged_with_note; auto.
Qed.

Lemma merged_with_one (note : text -> Prop) (n : text) :
  note n -> merged_with note n.
Proof.
  intro H. rewrite <- (app_nil_r n).
  apply merged_with_note; [exact H | constructor].
Qed.

Lemma read_file_of_existing (fs : node) (p : path) :
  path_exists fs p = true -> read_file fs p <> FileNotFoundError.
Proof.
  unfold path_exists, read_file. destruct (resolve fs p) as [[c | e | d]|];
    discriminate.
Qed.

(** X7.  A merge called on a path that exists never writes the
    placeholder for a missing file: every inclusion is tested for
    existence before it is merged, so the output is made of stretches of
    file text and of the three other placeholders only. *)
Theorem merge_never_reports_missing_file (limit : nat) :
  forall (fs : node) (tex_file_path project_root : path)
         (processed_files : list path) (out : text) (processed' : list path),
  path_exists fs tex_file_path = true ->
  merge_tex_files limit fs tex_file_path project_root processed_files
  = Ok (out, processed') ->
  merged_with read_note out.
Proof.
  induction limit as [| limit IH];
    intros fs tex_file_path project_root processed_files out processed' Hex H;
    [discriminate|].
  cbn [merge_tex_files] in H.
  destruct (path_mem tex_file_path processed_files).
  { injection H as <- _. apply merged_with_one. left. eauto. }
  pose proof (read_file_of_existing _ _ Hex) as Hread.
  destruct (read_file fs tex_file_path) as [content | | e]; [|contradiction|].
  - unfold tokens in H.
    assert (Mrepl : forall (m : rmatch) (st : list path) (x : text)
                      (st' : list path) (rest : text),
              replace_input
                (fun final processed =>
                   merge_tex_files limit fs final project_root processed)
                fs tex_file_path project_root (strip_comments content) m st
              = Ok (x, st') ->
              merged_with read_note rest -> merged_with read_note (x ++ rest)).
    { intros m st x st' rest Hx Hr. unfold replace_input in Hx.
      destruct (path_exists fs
                  (final_path fs tex_file_path project_root
                     (included_filename (strip_comments content) m)))
        eqn:Hfinal.
      - destruct (is_relative_to _ project_root); [|discriminate].
        apply merged_with_app; [|exact Hr]. exact (IH _ _ _ _ _ _ Hfinal Hx).
      - injection Hx as <- _. apply merged_with_note; [|exact Hr].
        right. right. eauto. }
    destruct (sub_state_pieces RE_INPUT (merged_with read_note) _ _ eq_refl
                ends_unescaped_input (merged_with_nil read_note)
                (fun piece rest Hp Hn Hr =>
                   merged_with_text read_note piece rest Hp Hn Hr)
                Mrepl (strip_comments content) None 0 _ _ _
                (proj1 (escaped_only_after _) (strip_comments_escaped content))
                (Nat.le_0_l _) (fun H => False_ind _ (H eq_refl)) H)
      as (piece & rest & tail & -> & Hrest & Hpiece & Hno & _).
    apply merged_with_text;
      [now apply escaped_only_after | exact Hno | exact Hrest].
  - injection H as <- _. apply merged_with_one. right. left. eauto.
Qed.

Lemma merge_never_reports_missing_file_witness :
  merged_with read_note
    (str "A % --- INCLUDED FILE NOT FOUND: m.tex ---" ++ [nl]).
Proof.
  apply (merge_never_reports_missing_file 2
           (Dir [(str "p", Dir [(str "main.tex", File (str "A \input{m}"))])])
           [str "p"; str "main.tex"] [str "p"] [] _
           [[str "p"; str "main.tex"]]).
  - vm_compute. reflexivity.
  - vm_compute. reflexivity.
Defined.

(** *** The bound on nested calls *)

Lemma sub_state_same {St : Type}
  (repl1 repl2 : rmatch -> St -> outcome (text * St)) (toks : list token) :
  (forall m st, repl1 m st <> RecursionError -> repl2 m st = repl1 m st) ->
  forall st,
  sub_state repl1 toks st <> RecursionError ->
  sub_state repl2 toks st = sub_state repl1 toks st.
Proof.
  intro Hrepl. induction toks as [| [a | m] toks IH]; intros st H.
  - reflexivity.
  - cbn [sub_state] in *. rewrite IH; [reflexivity|].
    intro E. rewrite E in H. now apply H.
  - cbn [sub_state] in *. rewrite Hrepl.
    + destruct (repl1 m st) as [[x s1] | e |]; cbn [bind] in *; try reflexivity.
      rewrite IH; [reflexivity|]. intro E. cbn [snd] in *. rewrite E in H.
      now apply H.
    + intro E. rewrite E in H. now apply H.
Qed.

Lemma merge_limit (n : nat) :
  forall (m : nat) (fs : node) (tex_file_path project_root : path)
         (processed_files : list path),
  n <= m ->
  merge_tex_files n fs tex_file_path project_root processed_files
  <> RecursionError ->
  merge_tex_files m fs tex_file_path project_root processed_files
  = merge_tex_files n fs tex_file_path project_root processed_files.
Proof.
  induction n as [| n IH]; intros m fs p root processed Hle H;
    [now contradiction H|].
  destruct m as [| m]; [lia|]. cbn [merge_tex_files] in *.
  destruct (path_mem p processed); [reflexivity|].
  destruct (read_file fs p) as [content | | e]; try reflexivity.
  apply sub_state_same; [|exact H].
  intros mt st Hrepl. unfold replace_input in *.
  destruct (path_exists fs _); [|reflexivity].
  destruct (is_relative_to _ root); [|reflexivity].
  apply IH; [lia | exact Hrepl].
Qed.


(** ** More on the removal of comments *)

(** X9.  Removing the line comments a second time changes nothing: what
    the first removal leaves holds no comment marker the pattern would
    take. *)
Theorem strip_line_comments_idempotent (t : text) :
  strip_line_comments (strip_line_comments t) = strip_line_comments t.
Proof.
  pose proof (strip_line_comments_escaped t) as H.
  apply escaped_only_after in H.
  rewrite (strip_line_comments_scan (strip_line_comments t)).
  pose proof (strip_scan_escaped (strip_line_comments t) None [] H) as E.
  rewrite app_nil_r in E. rewrite E, strip_scan_nil. apply app_nil_r.
Qed.
(** ** More on the indentation *)

(** *** Stripping *)

Lemma lstrip_head (s : text) :
  lstrip s = [] \/ exists c r, lstrip s = c :: r /\ isspace c = false.
Proof.
  induction s as [| a s IH]; [now left|]. cbn [lstrip].
  destruct (isspace a) eqn:E; [assumption|]. right. now exists a, s.
Qed.

Lemma lstrip_nonspace (c : ascii) (r : text) :
  isspace c = false -> lstrip (c :: r) = c :: r.
Proof. intro H. cbn [lstrip]. now rewrite H. Qed.

Lemma lstrip_blanks (w u : text) :
  forallb isspace w = true -> lstrip (w ++ u) = lstrip u.
Proof.
  induction w as [| a w IH]; intro H; [reflexivity|].
  cbn [forallb] in H. apply andb_prop in H as [Ha Hw].
  cbn [app lstrip]. rewrite Ha. now apply IH.
Qed.

Lemma lstrip_idempotent (s : text) : lstrip (lstrip s) = lstrip s.
Proof.
  destruct (lstrip_head s) as [-> | (c & r & -> & Hc)]; [reflexivity|].
  now apply lstrip_nonspace.
Qed.

Lemma lstrip_snoc (x : text) (c : ascii) :
  isspace c = false -> lstrip (x ++ [c]) = lstrip x ++ [c].
Proof.
  intro Hc. induction x as [| a x IH].
  - cbn. now rewrite Hc.
  - cbn [app lstrip]. destruct (isspace a); [assumption | reflexivity].
Qed.

Lemma rstrip_cons (c : ascii) (r : text) :
  isspace c = false -> rstrip (c :: r) = c :: rstrip r.
Proof.
  intro Hc. unfold rstrip. cbn [rev]. rewrite lstrip_snoc by assumption.
  rewrite rev_app_distr. reflexivity.
Qed.

Lemma rstrip_idempotent (s : text) : rstrip (rstrip s) = rstrip s.
Proof. unfold rstrip. now rewrite rev_involutive, lstrip_idempotent. Qed.

(** A stripped text is empty or begins with a character that is not a
    blank. *)
Lemma strip_head (s : text) :
  strip s = [] \/ exists c r, strip s = c :: r /\ isspace c = false.
Proof.
  unfold strip. destruct (lstrip_head s) as [-> | (c & r & -> & Hc)].
  - now left.
  - right. exists c, (rstrip r). split; [now apply rstrip_cons | assumption].
Qed.

Lemma strip_idempotent (s : text) : strip (strip s) = strip s.
Proof.
  assert (H : lstrip (strip s) = strip s).
  { destruct (strip_head s) as [-> | (c & r & -> & Hc)]; [reflexivity|].
    now apply lstrip_nonspace. }
  unfold strip at 1. rewrite H. unfold strip. apply rstrip_idempotent.
Qed.

Lemma strip_after_blanks (w s : text) :
  forallb isspace w = true -> strip (w ++ s) = strip s.
Proof. intro H. unfold strip. now rewrite lstrip_blanks. Qed.

Lemma in_lstrip (c : ascii) (s : text) : In c (lstrip s) -> In c s.
Proof.
  induction s as [| a s IH]; [trivial|]. cbn [lstrip].
  destruct (isspace a); [|trivial]. intro H. right. now apply IH.
Qed.

Lemma in_strip (c : ascii) (s : text) : In c (strip s) -> In c s.
Proof.
  unfold strip, rstrip. intro H. apply in_rev, in_lstrip in H.
  apply in_rev in H. now apply in_lstrip.
Qed.

Lemma indentation_blank (n : Z) :
  forallb isspace (repeat_text indent_str n) = true.
Proof.
  unfold repeat_text. induction (Z.to_nat n) as [| k IH]; [reflexivity|].
  cbn [repeat concat]. rewrite forallb_app, IH. reflexivity.
Qed.

(** *** Lines *)

Lemma split_on_nonempty (sep : ascii) (s : text) : split_on sep s <> [].
Proof.
  destruct s as [| c s]; [discriminate|]. cbn [split_on].
  destruct (Ascii.eqb c sep); [discriminate|].
  destruct (split_on sep s); discriminate.
Qed.

Lemma split_on_no_sep (sep : ascii) (s : text) :
  Forall (fun piece => ~ In sep piece) (split_on sep s).
Proof.
  induction s as [| c s IH]; [repeat constructor; auto|].
  cbn [split_on]. destruct (Ascii.eqb_spec c sep) as [-> | Hne].
  - constructor; auto.
  - destruct (split_on sep s) as [| p ps].
    + repeat constructor. intros [H | []]. now apply Hne.
    + inversion IH as [| ? ? Hp Hps]; subst. constructor; [|assumption].
      intros [H | H]; [now apply Hne | now apply Hp].
Qed.

Lemma split_on_piece (sep : ascii) (p s : text) :
  ~ In sep p ->
  split_on sep (p ++ sep :: s) = p :: split_on sep s.
Proof.
  induction p as [| c p IH]; intro Hp.
  - cbn [app split_on]. now rewrite Ascii.eqb_refl.
  - cbn [app split_on]. destruct (Ascii.eqb_spec c sep) as [-> | Hne].
    + exfalso. apply Hp. now left.
    + rewrite IH; [reflexivity|]. intro H. apply Hp. now right.
Qed.

Lemma split_on_last (sep : ascii) (p : text) :
  ~ In sep p -> split_on sep p = [p].
Proof.
  induction p as [| c p IH]; intro Hp; [reflexivity|].
  cbn [split_on]. destruct (Ascii.eqb_spec c sep) as [-> | Hne].
  - exfalso. apply Hp. now left.
  - rewrite IH; [reflexivity|]. intro H. apply Hp. now right.
Qed.

(** Splitting what [join] made of lines gives the lines back. *)
Lemma split_on_join (sep : ascii) (ls : list text) :
  ls <> [] -> Forall (fun l => ~ In sep l) ls ->
  split_on sep (join [sep] ls) = ls.
Proof.
  induction ls as [| l ls IH]; intros Hne Hall; [contradiction|].
  inversion Hall as [| ? ? Hl Hls]; subst.
  destruct ls as [| l' ls].
  - cbn [join]. now apply split_on_last.
  - change (join [sep] (l :: l' :: ls)) with (l ++ sep :: join [sep] (l' :: ls)).
    rewrite split_on_piece by assumption. f_equal.
    apply IH; [discriminate | assumption].
Qed.

(** Joining the lines of a text gives the text back. *)
Lemma join_split_on (sep : ascii) (s : text) :
  join [sep] (split_on sep s) = s.
Proof.
  induction s as [| c s IH]; [reflexivity|].
  cbn [split_on]. destruct (Ascii.eqb_spec c sep) as [-> | Hne].
  - pose proof (split_on_nonempty sep s) as Hn.
    destruct (split_on sep s) as [| p ps] eqn:E; [contradiction|].
    change (join [sep] ([] :: p :: ps)) with (sep :: join [sep] (p :: ps)).
    now rewrite IH.
  - pose proof (split_on_nonempty sep s) as Hn.
    destruct (split_on sep s) as [| p ps] eqn:E; [contradiction|].
    rewrite <- IH. destruct ps; reflexivity.
Qed.

(** *** The loop *)

Lemma reindent_lines_strip (lines : list text) :
  forall level, map strip (reindent_lines lines level) = map strip lines.
Proof.
  induction lines as [| line lines IH]; intro level; [reflexivity|].
  cbn [reindent_lines map].
  destruct (strip line) as [| c r] eqn:E.
  - cbn [map]. now rewrite IH.
  - assert (Hs : forall n, strip (repeat_text indent_str n ++ c :: r) = c :: r).
    { intro n. rewrite strip_after_blanks by apply indentation_blank.
      rewrite <- E. apply strip_idempotent. }
    destruct (startswith (c :: r) (str "\end") || startswith (c :: r) (str "\right"))%bool;
      cbn [map]; now rewrite Hs, IH.
Qed.

Lemma reindent_lines_of_stripped (l1 l2 : list text) :
  map strip l1 = map strip l2 ->
  forall level, reindent_lines l1 level = reindent_lines l2 level.
Proof.
  revert l2. induction l1 as [| a l1 IH]; intros [| b l2] H level;
    try discriminate; [reflexivity|].
  cbn [map] in H. injection H as Hab Hrest.
  cbn [reindent_lines]. rewrite Hab.
  destruct (strip b) as [| c r]; [now rewrite (IH _ Hrest)|].
  destruct (startswith (c :: r) (str "\end") || startswith (c :: r) (str "\right"))%bool;
    now rewrite (IH _ Hrest).
Qed.

Lemma reindent_lines_length (lines : list text) :
  forall level, length (reindent_lines lines level) = length lines.
Proof.
  intro level. rewrite <- (length_map strip), reindent_lines_strip.
  apply length_map.
Qed.

Lemma indentation_no_newline (n : Z) : ~ In nl (repeat_text indent_str n).
Proof.
  unfold repeat_text. induction (Z.to_nat n) as [| k IH]; [auto|].
  cbn [repeat concat]. intro H. apply in_app_or in H as [H | H]; [|auto].
  cbn in H. repeat (destruct H as [H | H]; [discriminate|]). contradiction.
Qed.

Lemma reindent_lines_no_newline (lines : list text) :
  Forall (fun l => ~ In nl l) lines ->
  forall level, Forall (fun l => ~ In nl l) (reindent_lines lines level).
Proof.
  induction 1 as [| line lines Hline _ IH]; intro level; [constructor|].
  assert (Hout : forall n, ~ In nl (repeat_text indent_str n ++ strip line)).
  { intros n H. apply in_app_or in H as [H | H].
    - now apply indentation_no_newline in H.
    - apply Hline. now apply in_strip. }
  cbn [reindent_lines]. destruct (strip line) as [| c r] eqn:E.
  - constructor; [auto | apply IH].
  - destruct (startswith (c :: r) (str "\end") || startswith (c :: r) (str "\right"))%bool;
      (constructor; [apply Hout | apply IH]).
Qed.

(** The lines of the output are the lines the loop emitted. *)
Lemma reindent_output_lines (content : text) :
  split_on nl (reindent_tex_content content)
  = reindent_lines (split_on nl content) 0.
Proof.
  unfold reindent_tex_content. apply split_on_join.
  - intro H. apply (f_equal (@length text)) in H.
    rewrite reindent_lines_length in H.
    pose proof (split_on_nonempty nl content) as Hn.
    destruct (split_on nl content); [contradiction | discriminate].
  - apply reindent_lines_no_newline, split_on_no_sep.
Qed.

(** X10.  Re-indentation changes nothing but the blanks at the two ends of
    each line: the output has as many lines as the input, and each line
    of the output, stripped, is the line of the input, stripped. *)
Theorem reindent_keeps_lines (content : text) :
  map strip (split_on nl (reindent_tex_content content))
  = map strip (split_on nl content).
Proof. rewrite reindent_output_lines. apply reindent_lines_strip. Qed.

(** X11.  Re-indentation is idempotent: applied to its own output, it
    returns it. *)
Theorem reindent_idempotent (content : text) :
  reindent_tex_content (reindent_tex_content content)
  = reindent_tex_content content.
Proof.
  unfold reindent_tex_content at 1. rewrite reindent_output_lines.
  unfold reindent_tex_content. f_equal.
  apply reindent_lines_of_stripped, reindent_lines_strip.
Qed.
(** ** More on the imports *)

(** *** The order of strings *)

Lemma text_leb_total (a : text) : forall b, text_leb a b = true \/ text_leb b a = true.
Proof.
  induction a as [| x a IH]; intros [| y b]; cbn [text_leb]; auto.
  destruct (N.ltb_spec (code x) (code y)); [now left|].
  destruct (N.ltb_spec (code y) (code x)); [now right|]. apply IH.
Qed.

Lemma text_leb_trans (a : text) :
  forall b c, text_leb a b = true -> text_leb b c = true -> text_leb a c = true.
Proof.
  induction a as [| x a IH]; intros [| y b] [| z c]; cbn [text_leb]; auto;
    try discriminate.
  destruct (N.ltb_spec (code x) (code y)), (N.ltb_spec (code y) (code z)),
    (N.ltb_spec (code x) (code z)); auto; try lia;
    destruct (N.ltb_spec (code y) (code x)); try discriminate; try lia;
    destruct (N.ltb_spec (code z) (code y)); try discriminate; try lia;
    destruct (N.ltb_spec (code z) (code x)); try discriminate; try lia;
    intros; try discriminate; eauto.
Qed.

(** *** Sorting *)

Lemma insert_by_sorted {A : Type} (leb : A -> A -> bool) (x : A) (l : list A) :
  (forall a b, leb a b = true \/ leb b a = true) ->
  (forall a b c, leb a b = true -> leb b c = true -> leb a c = true) ->
  StronglySorted (fun a b => leb a b = true) l ->
  StronglySorted (fun a b => leb a b = true) (insert_by leb x l).
Proof.
  intros Htotal Htrans. induction 1 as [| y l Hl IH Hy]; cbn [insert_by].
  - repeat constructor.
  - destruct (leb x y) eqn:E.
    + constructor; [now constructor|]. constructor; [assumption|].
      eapply Forall_impl; [|exact Hy]. intros z Hz. now apply (Htrans x y z).
    + constructor; [assumption|].
      assert (Hyx : leb y x = true) by (destruct (Htotal x y); congruence).
      eapply Permutation_Forall; [apply Permutation_sym, insert_by_perm|].
      now constructor.
Qed.

Lemma sorted_by_sorted {A : Type} (leb : A -> A -> bool) (l : list A) :
  (forall a b, leb a b = true \/ leb b a = true) ->
  (forall a b c, leb a b = true -> leb b c = true -> leb a c = true) ->
  StronglySorted (fun a b => leb a b = true) (sorted_by leb l).
Proof.
  intros Htotal Htrans. induction l as [| x l IH]; [constructor|].
  cbn [sorted_by fold_right]. now apply insert_by_sorted.
Qed.

Lemma sorted_change {A : Type} (R R' : A -> A -> Prop) (l : list A) :
  (forall x y, In x l -> In y l -> R x y -> R' x y) ->
  StronglySorted R l -> StronglySorted R' l.
Proof.
  intros Himp H. induction H as [| x l Hl IH Hx]; [constructor|].
  constructor.
  - apply IH. intros a b Ha Hb. apply Himp; now right.
  - rewrite Forall_forall in *. intros y Hy. apply Himp; auto; [now left | now right].
Qed.

(** *** Dictionaries *)

Lemma dict_keys_set (k v : text) (d : dict) (k' : text) :
  In k' (dict_keys (dict_set k v d)) <-> k' = k \/ In k' (dict_keys d).
Proof.
  induction d as [| [k0 v0] d IH]; cbn [dict_set dict_keys map fst In].
  - split; intros [H | H]; auto; contradiction.
  - destruct (text_eqb_spec k0 k) as [-> | Hne]; cbn [map fst In].
    + intuition (subst; auto).
    + unfold dict_keys in IH. rewrite IH. intuition (subst; auto).
Qed.

Lemma dict_set_nodup (k v : text) (d : dict) :
  NoDup (dict_keys d) -> NoDup (dict_keys (dict_set k v d)).
Proof.
  induction d as [| [k0 v0] d IH]; intro H; cbn [dict_set].
  - repeat constructor. auto.
  - cbn [dict_keys map fst] in H. inversion H as [| ? ? Hk0 Hd]; subst.
    destruct (text_eqb_spec k0 k) as [-> | Hne]; cbn [dict_keys map fst].
    + now constructor.
    + constructor; [|now apply IH].
      intro Hin. apply dict_keys_set in Hin as [-> | Hin]; auto.
Qed.

Lemma dict_get_in (k : text) (d : dict) :
  In k (dict_keys d) -> exists v, dict_get k d = Some v.
Proof.
  induction d as [| [k0 v0] d IH]; cbn [dict_keys map fst In dict_get];
    [contradiction|].
  intros [-> | H].
  - rewrite text_eqb_refl. eauto.
  - destruct (text_eqb k0 k); eauto.
Qed.

(** *** The loop over the imports *)

(** The dictionary the loop builds: its keys are the imports read, each
    once, and each is filed under its package name. *)
Lemma collect_packages_fst (ms : list rmatch) :
  forall (d : dict) (co : coords),
  NoDup (dict_keys d) ->
  (forall k v, dict_get k d = Some v -> v = package_name k) ->
  let d' := fst (collect_packages ms d co) in
  NoDup (dict_keys d')
  /\ (forall k v, dict_get k d' = Some v -> v = package_name k)
  /\ forall k, In k (dict_keys d') <->
       In k (dict_keys d)
       \/ exists m, In m ms /\ m_text m = k /\ has_package_name k.
Proof.
  induction ms as [| m ms IH]; intros d co Hnd Hval; cbn [collect_packages].
  - cbn [fst]. repeat split; auto.
    intros [H | (m & [] & _)]. exact H.
  - destruct (search RE_PKG_NAME_EXTRACTOR (m_text m)) as [nm|] eqn:E.
    + specialize (IH (dict_set (m_text m)
                        (strip (hd [] (split_on "," (group (m_text m) nm 1)))) d)
                     (co ++ [(m_start m, m_end m)])).
      destruct IH as (H1 & H2 & H3).
      * now apply dict_set_nodup.
      * intros k v. rewrite dict_get_set.
        destruct (text_eqb_spec (m_text m) k) as [<- | Hne]; [|apply Hval].
        intro H. injection H as <-. unfold package_name. now rewrite E.
      * repeat split; [exact H1 | exact H2 | |].
        -- intro Hk. apply H3 in Hk as [Hk | (m' & Hm' & Ht & Hn)].
           ++ apply dict_keys_set in Hk as [-> | Hk]; [|now left].
              right. exists m. repeat split; [now left|].
              unfold has_package_name. now rewrite E.
           ++ right. exists m'. repeat split; auto. now right.
        -- intro Hk. apply H3. destruct Hk as [Hk | (m' & [<- | Hm'] & Ht & Hn)].
           ++ left. apply dict_keys_set. now right.
           ++ left. apply dict_keys_set. now left.
           ++ right. now exists m'.
    + specialize (IH d co Hnd Hval). destruct IH as (H1 & H2 & H3).
      repeat split; [exact H1 | exact H2 | |].
      * intro Hk. apply H3 in Hk as [Hk | (m' & Hm' & Ht & Hn)]; [now left|].
        right. exists m'. repeat split; auto. now right.
      * intro Hk. apply H3. destruct Hk as [Hk | (m' & [<- | Hm'] & Ht & Hn)].
        -- now left.
        -- exfalso. apply Hn. now rewrite <- Ht.
        -- right. now exists m'.
Qed.

(** The imports [_extract_packages] returns are those of its
    dictionary, sorted. *)
Lemma extract_packages_fst (content : text) :
  let d := fst (collect_packages (finditer RE_USEPACKAGE_CMD content) [] []) in
  fst (_extract_packages content)
  = sorted_by (fun cmd1 cmd2 => text_leb (dict_at d cmd1) (dict_at d cmd2))
      (dict_keys d).
Proof.
  unfold _extract_packages.
  destruct (collect_packages (finditer RE_USEPACKAGE_CMD content) [] [])
    as [d co].
  cbn [fst]. destruct d; reflexivity.
Qed.

(** X12.  The imports [_extract_packages] returns are the texts of the
    import commands of the content that the name pattern reads a name
    from, each text once however often it occurs. *)
Theorem extract_packages_unique (content : text) :
  NoDup (fst (_extract_packages content))
  /\ forall cmd,
     In cmd (fst (_extract_packages content))
     <-> exists m, In m (finditer RE_USEPACKAGE_CMD content)
                   /\ m_text m = cmd /\ has_package_name cmd.
Proof.
  rewrite extract_packages_fst.
  destruct (collect_packages_fst (finditer RE_USEPACKAGE_CMD content) [] [])
    as (Hnd & Hval & Hkeys); [constructor | discriminate |].
  set (d := fst (collect_packages (finditer RE_USEPACKAGE_CMD content) [] [])) in *.
  cbv zeta. split.
  - eapply Permutation_NoDup; [apply Permutation_sym, sorted_by_perm | exact Hnd].
  - intro cmd. split.
    + intro H. eapply Permutation_in in H; [|apply sorted_by_perm].
      apply Hkeys in H as [[] | H]. exact H.
    + intro H. eapply Permutation_in; [apply Permutation_sym, sorted_by_perm|].
      apply Hkeys. now right.
Qed.

(** X13.  The imports [_extract_packages] returns are in the order of
    their package names, the order of Python strings. *)
Theorem extract_packages_sorted (content : text) :
  StronglySorted
    (fun cmd1 cmd2 => text_leb (package_name cmd1) (package_name cmd2) = true)
    (fst (_extract_packages content)).
Proof.
  rewrite extract_packages_fst.
  destruct (collect_packages_fst (finditer RE_USEPACKAGE_CMD content) [] [])
    as (Hnd & Hval & Hkeys); [constructor | discriminate |].
  set (d := fst (collect_packages (finditer RE_USEPACKAGE_CMD content) [] [])) in *.
  cbv zeta.
  eapply sorted_change;
    [|apply (sorted_by_sorted
               (fun cmd1 cmd2 => text_leb (dict_at d cmd1) (dict_at d cmd2)))].
  - intros x y Hx Hy Hxy.
    assert (Hat : forall k, In k (dict_keys d) -> dict_at d k = package_name k).
    { intros k Hk. unfold dict_at. destruct (dict_get_in _ _ Hk) as (v & Hv).
      rewrite Hv. now apply Hval. }
    eapply Permutation_in in Hx; [|apply sorted_by_perm].
    eapply Permutation_in in Hy; [|apply sorted_by_perm].
    now rewrite <- (Hat x Hx), <- (Hat y Hy).
  - intros a b. apply text_leb_total.
  - intros a b c. apply text_leb_trans.
Qed.

(** Three imports, one of them twice, one with two names. *)
Example extract_packages_example :
  fst (_extract_packages
         (str "\usepackage{tikz}\usepackage[utf8]{inputenc}\usepackage{tikz}"
          ++ str "\usepackage{amsmath, amssymb}"))
  = [str "\usepackage{amsmath, amssymb}"; str "\usepackage[utf8]{inputenc}";
     str "\usepackage{tikz}"].
Proof. vm_compute. reflexivity. Qed.
(** ** More on the reflow *)

(** *** The scan of a substitution *)

Lemma sub_sub_scan (r : regex) (s t : text) : sub r s t = sub_scan r s None t 0.
Proof. unfold sub_scan. rewrite sub_render. apply render_scan_total. Qed.

Lemma sub_scan_skip (r : regex) (s : text) (prev : option ascii) (a : ascii)
  (t : text) (k : nat) :
  sub_scan r s prev (a :: t) (S k) = sub_scan r s (Some a) t k.
Proof. reflexivity. Qed.

Lemma sub_scan_cons (r : regex) (s : text) (prev : option ascii) (a : ascii)
  (t : text) :
  sub_scan r s prev (a :: t) 0 =
  match exec_at r prev (a :: t) with
  | Some (0, _) => s ++ a :: sub_scan r s (Some a) t 0
  | Some (S n, _) => s ++ sub_scan r s (Some a) t n
  | None => a :: sub_scan r s (Some a) t 0
  end.
Proof.
  unfold sub_scan. cbn [scan].
  destruct (exec_at r prev (a :: t)) as [[[| n] c]|]; reflexivity.
Qed.

Lemma sub_scan_nil (r : regex) (s : text) (prev : option ascii) :
  exec_at r prev [] = None -> forall skip, sub_scan r s prev [] skip = [].
Proof. intros H [| skip]; unfold sub_scan; cbn [scan]; now rewrite ?H. Qed.

(** Passing the rest of a match. *)
Lemma sub_scan_skipn (r : regex) (s : text) (t : text) :
  forall prev skip, skip <= length t ->
  sub_scan r s prev t skip
  = sub_scan r s (last_opt (firstn skip t) prev) (skipn skip t) 0.
Proof.
  induction t as [| a t IH]; intros prev [| skip] Hle; try reflexivity.
  - cbn in Hle. lia.
  - cbn [length] in Hle. rewrite sub_scan_skip, IH by lia.
    cbn [firstn skipn]. now rewrite last_opt_cons.
Qed.

(** *** Runs of characters *)

Lemma leading_le (p : ascii -> bool) (u : text) : leading p u <= length u.
Proof.
  induction u as [| a u IH]; cbn [leading length]; [lia|].
  destruct (p a); lia.
Qed.

Lemma leading_stops (p : ascii -> bool) (u : text) :
  holds_opt p (hd_error (skipn (leading p u) u)) = false.
Proof.
  induction u as [| a u IH]; [reflexivity|]. cbn [leading].
  destruct (p a) eqn:E; [exact IH|]. cbn. exact E.
Qed.

(** A greedy run followed by something that always matches takes every
    character of the class. *)
Lemma exec_star_cls_greedy {R : Type} (p : ascii -> bool) (u : text) :
  forall (b : option ascii) (c : caps) (k : cursor -> caps -> option R),
  (forall cur c', k cur c' <> None) ->
  exec (Star (Cls p)) (Cursor b u) c k
  = k (Cursor (last_opt (firstn (leading p u) u) b) (skipn (leading p u) u)) c.
Proof.
  induction u as [| a u IH]; intros b c k Hk.
  - rewrite exec_star_cls. reflexivity.
  - rewrite exec_star_cls. cbn [leading]. destruct (p a); [|reflexivity].
    rewrite IH by assumption. cbn [firstn skipn]. rewrite last_opt_cons.
    destruct (k _ c) eqn:E; [reflexivity|]. now apply Hk in E.
Qed.

(** *** Runs of spaces *)

Lemma exec_at_spaces (prev : option ascii) (t : text) :
  exec_at RE_SPACES prev t =
  match t with
  | a :: u =>
      if Ascii.eqb " " a then Some (S (leading (Ascii.eqb " ") u), []) else None
  | [] => None
  end.
Proof.
  unfold exec_at, RE_SPACES, plus. rewrite exec_Seq. unfold chr at 1.
  rewrite exec_Cls. cbn [rest]. destruct t as [| a u]; [reflexivity|].
  destruct (Ascii.eqb " " a); [|reflexivity].
  unfold chr. rewrite exec_star_cls_greedy by discriminate. cbn [rest length].
  f_equal. f_equal.
  pose proof (leading_le (Ascii.eqb " ") u).
  rewrite length_skipn. lia.
Qed.

Lemma spaces_scan_cons (prev : option ascii) (a : ascii) (t : text) :
  sub_scan RE_SPACES (str " ") prev (a :: t) 0 =
  if Ascii.eqb " " a
  then " "%char
       :: sub_scan RE_SPACES (str " ")
            (last_opt (firstn (leading (Ascii.eqb " ") t) t) (Some a))
            (skipn (leading (Ascii.eqb " ") t) t) 0
  else a :: sub_scan RE_SPACES (str " ") (Some a) t 0.
Proof.
  rewrite sub_scan_cons, exec_at_spaces.
  destruct (Ascii.eqb " " a); [|reflexivity].
  rewrite sub_scan_skipn by apply leading_le. reflexivity.
Qed.

Lemma spaces_scan_nil (prev : option ascii) :
  sub_scan RE_SPACES (str " ") prev [] 0 = [].
Proof. apply sub_scan_nil. now rewrite exec_at_spaces. Qed.

(** The scan keeps the first character of the text. *)
Lemma spaces_scan_head (prev : option ascii) (t : text) :
  hd_error (sub_scan RE_SPACES (str " ") prev t 0) = hd_error t.
Proof.
  destruct t as [| a t]; [now rewrite spaces_scan_nil|].
  rewrite spaces_scan_cons. destruct (Ascii.eqb_spec " " a) as [<- | _];
    reflexivity.
Qed.

Lemma contains_cons (a : ascii) (t p : text) :
  contains (a :: t) p = (startswith (a :: t) p || contains t p)%bool.
Proof. reflexivity. Qed.

Lemma spaces_scan_single (n : nat) :
  forall (t : text) (prev : option ascii),
  length t <= n ->
  no_double_space (sub_scan RE_SPACES (str " ") prev t 0).
Proof.
  unfold no_double_space.
  induction n as [| n IH]; intros t prev Hlen.
  - destruct t; [|cbn in Hlen; lia]. now rewrite spaces_scan_nil.
  - destruct t as [| a t]; [now rewrite spaces_scan_nil|].
    cbn [length] in Hlen. rewrite spaces_scan_cons.
    destruct (Ascii.eqb_spec " " a) as [<- | Ha].
    + rewrite contains_cons, IH by (rewrite length_skipn; lia).
      rewrite orb_false_r.
      pose proof (spaces_scan_head
                    (last_opt (firstn (leading (Ascii.eqb " ") t) t) (Some " "%char))
                    (skipn (leading (Ascii.eqb " ") t) t)) as Hhd.
      pose proof (leading_stops (Ascii.eqb " ") t) as Hstop.
      destruct (sub_scan RE_SPACES (str " ") _ (skipn _ t) 0) as [| b out];
        [reflexivity|].
      cbn [hd_error] in Hhd. rewrite <- Hhd in Hstop. cbn [holds_opt] in Hstop.
      change (str "  ") with [" "%char; " "%char]. cbn [startswith].
      now rewrite Hstop, andb_false_r.
    + rewrite contains_cons, IH by lia. rewrite orb_false_r.
      change (str "  ") with [" "%char; " "%char]. cbn [startswith].
      apply Ascii.eqb_neq in Ha. now rewrite Ha.
Qed.

(** Runs of spaces become single spaces. *)
Lemma sub_spaces_single (t : text) :
  no_double_space (sub RE_SPACES (str " ") t).
Proof. rewrite sub_sub_scan. now apply (spaces_scan_single (length t)). Qed.

(** *** Line breaks *)

Lemma exec_at_merge_lines (prev : option ascii) (t : text) :
  exec_at RE_MERGE_LINES prev t =
  match t with
  | a :: u => if joins prev a u then Some (1, []) else None
  | [] => None
  end.
Proof.
  unfold exec_at, RE_MERGE_LINES, joins. rewrite !seq_cons. cbn [seq].
  rewrite exec_Seq, exec_NotAfter. cbn [before].
  destruct (holds_opt (Ascii.eqb nl) prev).
  - destruct t as [| a u]; [reflexivity|]. cbn [negb]. now rewrite andb_false_r.
  - rewrite exec_Seq. unfold chr. rewrite exec_Cls. cbn [rest].
    destruct t as [| a u]; [reflexivity|].
    destruct (Ascii.eqb nl a); [|reflexivity].
    rewrite exec_NotBefore. cbn [rest negb andb].
    destruct (holds_opt _ (hd_error u)); [reflexivity|].
    cbn [negb length]. do 2 f_equal. lia.
Qed.

Lemma merge_scan_cons (prev : option ascii) (a : ascii) (t : text) :
  sub_scan RE_MERGE_LINES (str " ") prev (a :: t) 0 =
  (if joins prev a t then " "%char else a)
    :: sub_scan RE_MERGE_LINES (str " ") (Some a) t 0.
Proof.
  rewrite sub_scan_cons, exec_at_merge_lines.
  destruct (joins prev a t); reflexivity.
Qed.

Lemma merge_scan_nil (prev : option ascii) :
  sub_scan RE_MERGE_LINES (str " ") prev [] 0 = [].
Proof. apply sub_scan_nil. now rewrite exec_at_merge_lines. Qed.

Lemma nth_error_0 {A : Type} (t : list A) : nth_error t 0 = hd_error t.
Proof. now destruct t. Qed.

Lemma lines_joined_after_cons (prev : option ascii) (a : ascii) (t : text) :
  lines_joined_after prev (a :: t)
  <-> (a = nl -> break_kept prev (hd_error t))
      /\ lines_joined_after (Some a) t.
Proof.
  unfold lines_joined_after. split.
  - intro H. split.
    + intros ->. specialize (H 0 eq_refl).
      change (break_kept prev (nth_error t 0)) in H.
      now rewrite nth_error_0 in H.
    + intros i Hi. specialize (H (S i) Hi). destruct i; exact H.
  - intros [H0 H] [| i] Hi.
    + injection Hi as ->. change (break_kept prev (nth_error t 0)).
      rewrite nth_error_0. now apply H0.
    + specialize (H i Hi). destruct i; exact H.
Qed.

Lemma lines_joined_after_nil (prev : option ascii) : lines_joined_after prev [].
Proof. intros [| i] H; discriminate. Qed.

(** The character before the text matters only when the text begins with
    a newline. *)
Lemma lines_joined_after_prev (p p' : option ascii) (t : text) :
  hd_error t <> Some nl -> lines_joined_after p t -> lines_joined_after p' t.
Proof.
  intros Hhd H. destruct t as [| a t]; [apply lines_joined_after_nil|].
  apply lines_joined_after_cons in H as [H0 H].
  apply lines_joined_after_cons. split; [|exact H].
  intros ->. now contradiction Hhd.
Qed.

Lemma merge_scan_head (prev : option ascii) (t : text) :
  hd_error (sub_scan RE_MERGE_LINES (str " ") prev t 0) =
  match t with
  | b :: u => Some (if joins prev b u then " "%char else b)
  | [] => None
  end.
Proof.
  destruct t as [| b u]; [now rewrite merge_scan_nil|].
  now rewrite merge_scan_cons.
Qed.

Lemma joins_newline (prev : option ascii) (a : ascii) (u : text) :
  joins prev a u = true -> a = nl.
Proof.
  unfold joins. intro H. apply andb_prop in H as [H _].
  apply andb_prop in H as [H _]. now apply Ascii.eqb_eq in H.
Qed.

(** After the substitution every newline is one that may stay. *)
Lemma merge_scan_joined (t : text) :
  forall prev,
  lines_joined_after prev (sub_scan RE_MERGE_LINES (str " ") prev t 0).
Proof.
  induction t as [| a t IH]; intro prev.
  - rewrite merge_scan_nil. apply lines_joined_after_nil.
  - rewrite merge_scan_cons. apply lines_joined_after_cons.
    specialize (IH (Some a)).
    destruct (joins prev a t) eqn:Ej.
    + split; [discriminate|].
      apply (lines_joined_after_prev (Some a)); [|exact IH].
      rewrite merge_scan_head. destruct t as [| b u]; [discriminate|].
      pose proof (joins_newline prev a (b :: u) Ej) as ->.
      unfold joins in Ej. cbn [hd_error holds_opt] in Ej.
      destruct (joins (Some nl) b u) eqn:Eb; [discriminate|].
      intro H. injection H as ->.
      rewrite Ascii.eqb_refl, orb_true_r, andb_false_r in Ej. discriminate.
    + split; [|exact IH]. intros ->. rewrite merge_scan_head.
      unfold joins in Ej. rewrite Ascii.eqb_refl in Ej. cbn [andb] in Ej.
      unfold break_kept.
      destruct prev as [p|]; cbn [holds_opt] in Ej.
      * destruct (Ascii.eqb_spec nl p) as [Ep | Hp]; [left; now rewrite Ep|].
        cbn [negb andb] in Ej. right.
        destruct t as [| b u]; [discriminate|]. cbn [hd_error holds_opt] in Ej.
        apply negb_false_iff, orb_prop in Ej as [Eb | Eb];
          apply Ascii.eqb_eq in Eb; subst b.
        -- left. unfold joins. reflexivity.
        -- right. unfold joins. cbn [holds_opt]. rewrite Ascii.eqb_refl.
           reflexivity.
      * cbn [negb andb] in Ej. right.
        destruct t as [| b u]; [discriminate|]. cbn [hd_error holds_opt] in Ej.
        apply negb_false_iff, orb_prop in Ej as [Eb | Eb];
          apply Ascii.eqb_eq in Eb; subst b.
        -- left. unfold joins. reflexivity.
        -- right. unfold joins. cbn [holds_opt]. rewrite Ascii.eqb_refl.
           reflexivity.
Qed.

Lemma lines_joined_after_spaces (u : text) :
  lines_joined_after (Some " "%char) u ->
  lines_joined_after (Some " "%char) (skipn (leading (Ascii.eqb " ") u) u).
Proof.
  induction u as [| a u IH]; intro H; [exact H|]. cbn [leading].
  destruct (Ascii.eqb_spec " " a) as [<- | _]; [|exact H].
  cbn [skipn]. apply IH. now apply lines_joined_after_cons in H.
Qed.

(** Making runs of spaces single keeps that. *)
Lemma spaces_scan_joined (n : nat) :
  forall (t : text) (prev p : option ascii),
  length t <= n ->
  lines_joined_after p t ->
  lines_joined_after p (sub_scan RE_SPACES (str " ") prev t 0).
Proof.
  induction n as [| n IH]; intros t prev p Hlen H.
  - destruct t; [|cbn in Hlen; lia]. now rewrite spaces_scan_nil.
  - destruct t as [| a t]; [now rewrite spaces_scan_nil|].
    cbn [length] in Hlen. rewrite spaces_scan_cons.
    apply lines_joined_after_cons in H as [H0 H].
    destruct (Ascii.eqb_spec " " a) as [<- | Ha].
    + apply lines_joined_after_cons. split; [discriminate|].
      apply IH; [rewrite length_skipn; lia|].
      now apply lines_joined_after_spaces.
    + apply lines_joined_after_cons. split.
      * rewrite spaces_scan_head. exact H0.
      * apply IH; [lia | exact H].
Qed.

(** *** The parts *)

Lemma process_parts_nth (parts : list text) :
  forall i k,
  nth_error (process_parts parts i) k =
  option_map
    (fun part =>
       if Nat.odd (i + k)
       then sub_with RE_CAPTION (process_caption_content part) part
       else sub RE_SPACES (str " ") (sub RE_MERGE_LINES (str " ") part))
    (nth_error parts k).
Proof.
  induction parts as [| part parts IH]; intros i k.
  - destruct k; reflexivity.
  - destruct k as [| k].
    + cbn [process_parts nth_error option_map]. now rewrite Nat.add_0_r.
    + cbn [process_parts nth_error]. rewrite IH.
      now replace (S i + k) with (i + S k) by lia.
Qed.



(** *** Protected blocks without caption *)

Lemma contains_at (w : text) (t : text) :
  forall i, startswith (skipn i t) w = true -> contains t w = true.
Proof.
  induction t as [| a t IH]; intros i H.
  - rewrite skipn_nil in H. cbn [contains]. now rewrite H.
  - destruct i as [| i].
    + cbn [skipn] in H. rewrite contains_cons, H. reflexivity.
    + cbn [skipn] in H. rewrite contains_cons, (IH _ H). apply orb_true_r.
Qed.

(** A pattern that begins with the word [w] has no match in a text that
    does not hold [w]. *)
Lemma count_matches_without_word (r : regex) (w t : text) :
  (forall prev u x, exec_at r prev u = Some x -> startswith u w = true) ->
  contains t w = false ->
  count_matches r t = 0.
Proof.
  intros Hhead Hno. unfold count_matches.
  destruct (finditer r t) as [| m ms] eqn:E; [reflexivity|].
  assert (Hin : In m (finditer r t)) by (rewrite E; now left).
  destruct (finditer_sound _ _ _ Hin) as (n & c & _ & Hexec & _).
  apply Hhead in Hexec. apply contains_at in Hexec. congruence.
Qed.

Lemma caption_head (prev : option ascii) (u : text) (x : nat * caps) :
  exec_at RE_CAPTION prev u = Some x -> startswith u (str "\caption") = true.
Proof.
  unfold exec_at, RE_CAPTION. rewrite !seq_cons, exec_Seq, exec_Group.
  rewrite exec_Seq. unfold lit. rewrite exec_lit_text.
  cbn [rest]. destruct (startswith u (str "\caption")); [reflexivity|discriminate].
Qed.

(** X15.  A protected block in which the word [\caption] does not occur
    is emitted as it is. *)
Theorem protected_block_without_caption (content : text) (k : nat)
  (part : text) :
  nth_error (protected_split content) (2 * k + 1) = Some part ->
  contains part (str "\caption") = false ->
  nth_error (process_parts (protected_split content) 0) (2 * k + 1)
  = Some part.
Proof.
  intros Hpart Hno. rewrite process_parts_nth, Hpart. cbn [Nat.add option_map].
  replace (Nat.odd (2 * k + 1)) with true
    by (symmetry; rewrite Nat.add_comm, Nat.odd_add_mul_2; reflexivity).
  f_equal. apply sub_with_without_matches.
  apply (count_matches_without_word _ (str "\caption")); [|exact Hno].
  apply caption_head.
Qed.

Lemma protected_block_without_caption_witness :
  nth_error
    (process_parts
       (protected_split
          (str "a" ++ [nl] ++ str "\begin{tabular}{c}" ++ [nl] ++ str "x  y"
           ++ [nl] ++ str "\end{tabular}")) 0) (2 * 0 + 1)
  = Some (str "\begin{tabular}{c}" ++ [nl] ++ str "x  y" ++ [nl]
          ++ str "\end{tabular}").
Proof.
  apply protected_block_without_caption; vm_compute; reflexivity.
Defined.

(** *** Blank lines *)

Lemma blank_run_le (u : text) (n : nat) :
  blank_run u = Some n -> 1 <= n <= length u.
Proof.
  revert n. induction u as [| a u IH]; intros n H; [discriminate|].
  cbn [blank_run] in H. destruct (isspace a); [|discriminate].
  destruct (blank_run u) as [m|].
  - injection H as <-. specialize (IH m eq_refl). cbn [length]. lia.
  - destruct (Ascii.eqb a nl); [|discriminate]. injection H as <-.
    cbn [length]. lia.
Qed.

Lemma blank_run_newline (u : text) : blank_run (nl :: u) <> None.
Proof. cbn. destruct (blank_run u); discriminate. Qed.

Lemma blank_run_none (u : text) : blank_run u = None -> hd_error u <> Some nl.
Proof.
  intros H Hhd. destruct u as [| a u]; [discriminate|].
  injection Hhd as ->. now apply blank_run_newline in H.
Qed.

(** The run ends at the last newline: no newline comes next. *)
Lemma blank_run_stops (u : text) (n : nat) :
  blank_run u = Some n -> hd_error (skipn n u) <> Some nl.
Proof.
  revert n. induction u as [| a u IH]; intros n H; [discriminate|].
  cbn [blank_run] in H. destruct (isspace a); [|discriminate].
  destruct (blank_run u) as [m|] eqn:E.
  - injection H as <-. cbn [skipn]. now apply IH.
  - destruct (Ascii.eqb a nl); [|discriminate]. injection H as <-.
    cbn [skipn]. now apply blank_run_none.
Qed.

Lemma exec_blank_run (L : nat) (u : text) :
  forall b : option ascii,
  exec (Star ws) (Cursor b u) []
    (fun cur' c' =>
       exec (chr nl) cur' c' (fun cur c => Some (L - length (rest cur), c)))
  = match blank_run u with
    | Some n => Some (L - (length u - n), [])
    | None => None
    end.
Proof.
  induction u as [| a u IH]; intro b.
  - reflexivity.
  - unfold ws at 1. rewrite exec_star_cls. fold ws. cbn [blank_run].
    destruct (isspace a) eqn:Ea.
    + rewrite IH. destruct (blank_run u) as [n|]; [reflexivity|].
      unfold chr. rewrite exec_Cls. cbn [rest].
      rewrite (Ascii.eqb_sym a nl). destruct (Ascii.eqb nl a); [|reflexivity].
      cbn [rest length]. do 2 f_equal. lia.
    + unfold chr. rewrite exec_Cls. cbn [rest].
      destruct (Ascii.eqb_spec nl a) as [<- | _]; [discriminate|reflexivity].
Qed.

Lemma exec_at_blank_lines (prev : option ascii) (t : text) :
  exec_at RE_BLANK_LINES prev t =
  match t with
  | a :: u =>
      if Ascii.eqb nl a then
        match blank_run u with
        | Some n => Some (S n, [])
        | None => None
        end
      else None
  | [] => None
  end.
Proof.
  unfold exec_at, RE_BLANK_LINES. rewrite !seq_cons. cbn [seq].
  rewrite exec_Seq. unfold chr at 1. rewrite exec_Cls. cbn [rest].
  destruct t as [| a u]; [reflexivity|].
  destruct (Ascii.eqb nl a); [|reflexivity].
  rewrite exec_Seq, exec_blank_run.
  destruct (blank_run u) as [n|] eqn:E; [|reflexivity].
  apply blank_run_le in E. cbn [length]. do 2 f_equal. lia.
Qed.

Lemma blank_scan_cons (prev : option ascii) (a : ascii) (t : text) :
  sub_scan RE_BLANK_LINES [nl; nl] prev (a :: t) 0 =
  if Ascii.eqb nl a then
    match blank_run t with
    | Some n =>
        nl :: nl
          :: sub_scan RE_BLANK_LINES [nl; nl] (last_opt (firstn n t) (Some a))
               (skipn n t) 0
    | None => a :: sub_scan RE_BLANK_LINES [nl; nl] (Some a) t 0
    end
  else a :: sub_scan RE_BLANK_LINES [nl; nl] (Some a) t 0.
Proof.
  rewrite sub_scan_cons, exec_at_blank_lines.
  destruct (Ascii.eqb nl a); [|reflexivity].
  destruct (blank_run t) as [n|] eqn:E; [|reflexivity].
  apply blank_run_le in E. now rewrite sub_scan_skipn by lia.
Qed.

Lemma blank_scan_nil (prev : option ascii) :
  sub_scan RE_BLANK_LINES [nl; nl] prev [] 0 = [].
Proof. apply sub_scan_nil. now rewrite exec_at_blank_lines. Qed.

Lemma blank_scan_head (prev : option ascii) (t : text) :
  hd_error (sub_scan RE_BLANK_LINES [nl; nl] prev t 0) = hd_error t.
Proof.
  destruct t as [| a t]; [now rewrite blank_scan_nil|].
  rewrite blank_scan_cons. destruct (Ascii.eqb_spec nl a) as [<- | _];
    [|reflexivity].
  destruct (blank_run t); reflexivity.
Qed.

Lemma startswith_head (x : text) (a : ascii) (w : text) :
  hd_error x <> Some a -> startswith x (a :: w) = false.
Proof.
  destruct x as [| b x]; [reflexivity|]. cbn [hd_error startswith]. intro H.
  destruct (Ascii.eqb_spec a b) as [-> | _]; [now contradiction H|reflexivity].
Qed.

Lemma blank_scan_single (n : nat) :
  forall (t : text) (prev : option ascii),
  length t <= n ->
  single_blank_lines (sub_scan RE_BLANK_LINES [nl; nl] prev t 0).
Proof.
  unfold single_blank_lines.
  induction n as [| n IH]; intros t prev Hlen.
  - destruct t; [|cbn in Hlen; lia]. now rewrite blank_scan_nil.
  - destruct t as [| a t]; [now rewrite blank_scan_nil|].
    cbn [length] in Hlen. rewrite blank_scan_cons.
    destruct (Ascii.eqb_spec nl a) as [<- | Ha].
    + destruct (blank_run t) as [k|] eqn:E.
      * pose proof (blank_run_stops _ _ E) as Hstop.
        rewrite <- (blank_scan_head (last_opt (firstn k t) (Some nl))) in Hstop.
        rewrite !contains_cons, IH by (rewrite length_skipn; lia).
        cbn [startswith]. rewrite !Ascii.eqb_refl. cbn [andb].
        rewrite !(startswith_head _ nl) by assumption. reflexivity.
      * pose proof (blank_run_none _ E) as Hstop.
        rewrite <- (blank_scan_head (Some nl)) in Hstop.
        rewrite contains_cons, IH by lia.
        cbn [startswith]. rewrite Ascii.eqb_refl. cbn [andb].
        now rewrite (startswith_head _ nl) by assumption.
    + rewrite contains_cons, IH by lia.
      cbn [startswith]. apply Ascii.eqb_neq in Ha. now rewrite Ha.
Qed.

(** After the first substitution no three newlines stand in a row. *)
Lemma sub_blank_lines_single (t : text) :
  single_blank_lines (sub RE_BLANK_LINES [nl; nl] t).
Proof. rewrite sub_sub_scan. now apply (blank_scan_single (length t)). Qed.

Lemma exec_at_pairs_none (prev : option ascii) (t : text) :
  startswith t [nl; nl] = false -> exec_at RE_BLANK_PAIRS prev t = None.
Proof.
  unfold exec_at, RE_BLANK_PAIRS, plus. rewrite exec_Seq, exec_Group.
  cbn [lit_text]. unfold chr. rewrite exec_Seq, exec_Cls. cbn [rest].
  destruct t as [| a t]; [reflexivity|]. cbn [startswith].
  destruct (Ascii.eqb nl a); [|reflexivity]. cbn [andb].
  rewrite exec_Cls. cbn [rest].
  destruct t as [| b t]; [reflexivity|]. cbn [startswith].
  destruct (Ascii.eqb nl b); [|reflexivity].
  destruct t; intro Hd; discriminate Hd.
Qed.

Lemma exec_at_pairs_two (prev : option ascii) (u : text) :
  hd_error u <> Some nl ->
  exists c, exec_at RE_BLANK_PAIRS prev (nl :: nl :: u) = Some (2, c).
Proof.
  intro H.
  unfold exec_at, RE_BLANK_PAIRS, plus. rewrite exec_Seq, exec_Group.
  cbn [lit_text]. unfold chr. rewrite exec_Seq, exec_Cls. cbn [rest].
  rewrite Ascii.eqb_refl, exec_Cls. cbn [rest]. rewrite Ascii.eqb_refl.
  destruct u as [| b u].
  - cbn. eauto.
  - cbn [exec rest length star_loop].
    destruct (Ascii.eqb_spec nl b) as [<- | Hb]; [now contradiction H|].
    cbn [length]. eexists. do 2 f_equal. lia.
Qed.

Lemma single_blank_lines_tail (a : ascii) (t : text) :
  single_blank_lines (a :: t) -> single_blank_lines t.
Proof.
  unfold single_blank_lines. rewrite contains_cons. intro H.
  now apply orb_false_elim in H.
Qed.

(** On a text without three newlines in a row the second substitution
    puts back what it takes out. *)
Lemma pairs_scan_same (n : nat) :
  forall (t : text) (prev : option ascii),
  length t <= n -> single_blank_lines t ->
  sub_scan RE_BLANK_PAIRS [nl; nl] prev t 0 = t.
Proof.
  induction n as [| n IH]; intros t prev Hlen Hs.
  - destruct t; [|cbn in Hlen; lia].
    apply sub_scan_nil. now apply exec_at_pairs_none.
  - destruct t as [| a t];
      [apply sub_scan_nil; now apply exec_at_pairs_none|].
    cbn [length] in Hlen. rewrite sub_scan_cons.
    destruct (startswith (a :: t) [nl; nl]) eqn:E.
    + apply startswith_prefix in E. cbn [length skipn app] in E.
      destruct t as [| b v]; [discriminate|]. cbn [skipn] in E.
      injection E as -> ->.
      assert (Hv : hd_error v <> Some nl).
      { intro Hv. destruct v as [| x v]; [discriminate|]. injection Hv as ->.
        unfold single_blank_lines in Hs. rewrite contains_cons in Hs.
        cbn [startswith] in Hs. rewrite !Ascii.eqb_refl in Hs.
        destruct v; discriminate. }
      destruct (exec_at_pairs_two prev v Hv) as (c & ->).
      rewrite sub_scan_skip. cbn [app]. do 2 f_equal.
      apply IH; [cbn [length] in Hlen; lia|].
      now apply single_blank_lines_tail, single_blank_lines_tail in Hs.
    + rewrite exec_at_pairs_none by assumption. f_equal.
      apply IH; [lia|]. now apply single_blank_lines_tail in Hs.
Qed.

(** The blank lines of the content as the splitter receives it come
    from the first substitution. *)
Lemma normalize_lines_blank (content : text) :
  normalize_lines content
  = sub RE_BLANK_LINES [nl; nl] (join [nl] (map lstrip (split_on nl content))).
Proof.
  unfold normalize_lines.
  set (t := sub RE_BLANK_LINES [nl; nl] _).
  rewrite sub_sub_scan. apply (pairs_scan_same (length t)); [lia|].
  apply sub_blank_lines_single.
Qed.

(** *** Indentation *)

Lemma no_indentation_after_cons (prev : option ascii) (a : ascii) (t : text) :
  no_indentation_after prev (a :: t)
  <-> (isspace a = true -> a <> nl -> exists b, prev = Some b /\ b <> nl)
      /\ no_indentation_after (Some a) t.
Proof.
  unfold no_indentation_after. split.
  - intro H. split.
    + intros Ha Hn. exact (H 0 a eq_refl Ha Hn).
    + intros i c Hi Hc Hn. specialize (H (S i) c Hi Hc Hn).
      destruct i; exact H.
  - intros [H0 H] [| i] c Hi Hc Hn.
    + injection Hi as ->. now apply H0.
    + specialize (H i c Hi Hc Hn). destruct i; exact H.
Qed.

Lemma no_indentation_after_nil (prev : option ascii) :
  no_indentation_after prev [].
Proof. intros [| i] c H; discriminate. Qed.

Lemma no_indentation_after_app (a : text) :
  forall (prev : option ascii) (b : text),
  no_indentation_after prev a ->
  no_indentation_after (last_opt a prev) b ->
  no_indentation_after prev (a ++ b).
Proof.
  induction a as [| x a IH]; intros prev b Ha Hb; [exact Hb|].
  cbn [app]. apply no_indentation_after_cons in Ha as [H0 Ha].
  apply no_indentation_after_cons. split; [exact H0|].
  apply IH; [exact Ha|]. now rewrite last_opt_cons in Hb.
Qed.

(** What is left of a text after some of its characters satisfies the
    property as the text does. *)
Lemma no_indentation_after_skipn (t : text) :
  forall (prev : option ascii) (k : nat),
  no_indentation_after prev t ->
  no_indentation_after (last_opt (firstn k t) prev) (skipn k t).
Proof.
  induction t as [| a t IH]; intros prev k H.
  - rewrite firstn_nil, skipn_nil. exact H.
  - destruct k as [| k]; [exact H|].
    cbn [firstn skipn]. rewrite last_opt_cons. apply IH.
    now apply no_indentation_after_cons in H.
Qed.

(** A line without newline that does not begin with a blank. *)
Lemma no_indentation_line (l : text) :
  ~ In nl l ->
  forall prev, holds_opt isspace (hd_error l) = false ->
  no_indentation_after prev l.
Proof.
  intro Hnl. induction l as [| a l IH]; intros prev Hhd;
    [apply no_indentation_after_nil|].
  apply no_indentation_after_cons. split.
  - cbn in Hhd. congruence.
  - assert (Ha : a <> nl) by (intro E; apply Hnl; now left).
    assert (Hl : ~ In nl l) by (intro E; apply Hnl; now right).
    clear IH Hhd Hnl. revert a Ha.
    induction l as [| b l IH]; intros a Ha; [apply no_indentation_after_nil|].
    apply no_indentation_after_cons. split.
    + intros _ _. now exists a.
    + apply IH; [intro E; apply Hl; now right | intro E; apply Hl; now left].
Qed.

Lemma lstrip_hd (l : text) : holds_opt isspace (hd_error (lstrip l)) = false.
Proof.
  destruct (lstrip_head l) as [-> | (c & r & -> & Hc)]; [reflexivity|exact Hc].
Qed.

Lemma no_indentation_lines (ls : list text) :
  Forall (fun l => ~ In nl l) ls ->
  forall prev, no_indentation_after prev (join [nl] (map lstrip ls)).
Proof.
  induction 1 as [| l ls Hl Hls IH]; intro prev;
    [apply no_indentation_after_nil|].
  assert (Hline : forall p, no_indentation_after p (lstrip l)).
  { intro p. apply no_indentation_line; [|apply lstrip_hd].
    intro E. apply Hl. now apply in_lstrip. }
  destruct ls as [| l' ls]; [apply Hline|].
  change (join [nl] (map lstrip (l :: l' :: ls)))
    with (lstrip l ++ nl :: join [nl] (map lstrip (l' :: ls))).
  apply no_indentation_after_app; [apply Hline|].
  apply no_indentation_after_cons. split; [intros _ E; now contradiction E|].
  apply IH.
Qed.

Lemma blank_run_last (u : text) (k : nat) (prev : option ascii) :
  blank_run u = Some k -> last_opt (firstn k u) prev = Some nl.
Proof.
  revert k prev. induction u as [| a u IH]; intros k prev H; [discriminate|].
  cbn [blank_run] in H. destruct (isspace a); [|discriminate].
  destruct (blank_run u) as [m|] eqn:E.
  - injection H as <-. cbn [firstn]. rewrite last_opt_cons. now apply IH.
  - destruct (Ascii.eqb_spec a nl) as [-> | _]; [|discriminate].
    injection H as <-. reflexivity.
Qed.

Lemma blank_scan_no_indentation (n : nat) :
  forall (t : text) (prev p : option ascii),
  length t <= n ->
  no_indentation_after p t ->
  no_indentation_after p (sub_scan RE_BLANK_LINES [nl; nl] prev t 0).
Proof.
  induction n as [| n IH]; intros t prev p Hlen H.
  - destruct t; [|cbn in Hlen; lia]. now rewrite blank_scan_nil.
  - destruct t as [| a t]; [now rewrite blank_scan_nil|].
    cbn [length] in Hlen. rewrite blank_scan_cons.
    pose proof H as Hall.
    apply no_indentation_after_cons in H as [H0 H].
    assert (Hsame : no_indentation_after p
                      (a :: sub_scan RE_BLANK_LINES [nl; nl] (Some a) t 0)).
    { apply no_indentation_after_cons. split; [exact H0|]. apply IH; [lia|exact H]. }
    destruct (Ascii.eqb_spec nl a) as [<- | Ha]; [|exact Hsame].
    destruct (blank_run t) as [k|] eqn:E; [|exact Hsame].
    apply no_indentation_after_cons. split; [intros _ E'; now contradiction E'|].
    apply no_indentation_after_cons. split; [intros _ E'; now contradiction E'|].
    apply IH; [rewrite length_skipn; lia|].
    rewrite <- (blank_run_last t k (Some nl) E) at 1.
    now apply no_indentation_after_skipn.
Qed.

(** X16.  In the content as the splitter of [clean_tex_content] receives
    it, no line begins with a blank, and no three newlines stand in a
    row: the indentation is gone and blank lines come one at a time. *)
Theorem normalize_lines_layout (content : text) :
  no_indentation (normalize_lines content)
  /\ single_blank_lines (normalize_lines content).
Proof.
  rewrite normalize_lines_blank. split.
  - unfold no_indentation. rewrite sub_sub_scan.
    eapply blank_scan_no_indentation; [apply Nat.le_refl|].
    apply no_indentation_lines, split_on_no_sep.
  - apply sub_blank_lines_single.
Qed.

(** Indented lines and a run of blank lines. *)
Example normalize_lines_example :
  normalize_lines
    (str "  a" ++ [nl] ++ str "    b" ++ [nl] ++ str "  " ++ [nl; nl; nl]
     ++ str " c")
  = str "a" ++ [nl] ++ str "b" ++ [nl; nl] ++ str "c".
Proof. vm_compute. reflexivity. Qed.
(** ** More on the bibliography *)

(** One pattern of a sequence, matched first. *)
Lemma exec_seq_step {R : Type} (a b : regex) (cur : cursor) (c : caps)
  (k : cursor -> caps -> option R) (x : R) :
  exec (Seq a b) cur c k = Some x ->
  exists w cur' c', matches a cur w cur' /\ exec b cur' c' k = Some x.
Proof. rewrite exec_Seq. apply exec_sound. Qed.

Lemma matches_chr_i_inv (a : ascii) (c1 : cursor) (w : text) (c2 : cursor) :
  matches (chr_i a) c1 w c2 -> exists b, w = [b] /\ lower b = lower a.
Proof.
  intro H. apply matches_cls_inv in H. destruct H as (b & -> & Hb).
  apply Ascii.eqb_eq in Hb. eauto.
Qed.

(** A literal read without regard to case matches the literal in some
    case. *)
Lemma matches_lit_i_inv (s : text) :
  forall c1 w c2, matches (lit_text_i s) c1 w c2 -> map lower w = map lower s.
Proof.
  induction s as [| a s IH]; intros c1 w c2 H.
  - now inversion H.
  - destruct s as [| b s].
    + apply matches_chr_i_inv in H. destruct H as (x & -> & Hx).
      cbn [map]. now rewrite Hx.
    + cbn [lit_text_i] in H. apply matches_seq_inv in H.
      destruct H as (w1 & c' & w2 & -> & H1 & H2).
      apply matches_chr_i_inv in H1. destruct H1 as (x & -> & Hx).
      apply IH in H2. cbn [app map] in *. now rewrite Hx, H2.
Qed.

(** A non-greedy run before a closing character holds no such
    character. *)
Lemma lazy_run_before {R : Type} (stop : ascii) (w t' : text)
  (b : option ascii) (c : caps) (k : cursor -> caps -> option R) :
  (forall w1 w2, w = w1 ++ w2 -> w2 <> [] ->
     exec (chr stop) (Cursor (last_opt w1 b) (w2 ++ t')) c k = None) ->
  (forall cur c', k cur c' <> None) ->
  ~ In stop w.
Proof.
  intros Hmin Hk Hin. apply in_split in Hin as (w1 & w2 & ->).
  specialize (Hmin w1 (stop :: w2) eq_refl ltac:(discriminate)).
  unfold chr in Hmin. rewrite exec_Cls in Hmin. cbn [rest app] in Hmin.
  rewrite Ascii.eqb_refl in Hmin. now apply Hk in Hmin.
Qed.

Lemma firstn_exact {A : Type} (a b : list A) (n : nat) :
  n = length a -> firstn n (a ++ b) = a.
Proof.
  intros ->. rewrite firstn_app, Nat.sub_diag, firstn_all. cbn. apply app_nil_r.
Qed.

(** What the macro pattern matches. *)
Lemma string_macro_at (prev : option ascii) (u : text) (n : nat) (c : caps) :
  exec_at RE_STRING_MACRO prev u = Some (n, c) ->
  exists kw w body,
    firstn n u = kw ++ w ++ lbrace :: body ++ [rbrace]
    /\ map lower kw = str "@string"
    /\ blank w
    /\ ~ In rbrace body.
Proof.
  unfold exec_at, RE_STRING_MACRO. rewrite exec_Group, !seq_cons. cbn [seq].
  intro H. unfold lit_i in H.
  apply exec_seq_step in H. destruct H as (kw & [b1 t1] & c1 & Hkw & H).
  apply exec_seq_step in H. destruct H as (w & [b2 t2] & c2 & Hw & H).
  destruct (matches_rest _ _ _ _ Hkw) as [E1 _].
  destruct (matches_rest _ _ _ _ Hw) as [E2 _]. cbn [rest] in E1, E2.
  apply matches_lit_i_inv in Hkw. apply matches_star_cls_inv in Hw.
  rewrite exec_Seq in H. unfold chr at 1 in H. rewrite exec_Cls in H.
  cbn [rest] in H. destruct t2 as [| a t3]; [discriminate|].
  destruct (Ascii.eqb_spec "{" a) as [<- | _]; [|discriminate].
  rewrite exec_Seq in H. unfold dot_all in H.
  apply exec_lazy_first in H. destruct H as (body & t' & -> & Hk & Hmin).
  assert (Hbody : ~ In rbrace body).
  { eapply lazy_run_before; [exact Hmin | discriminate]. }
  unfold chr in Hk. rewrite exec_Cls in Hk. cbn [rest] in Hk.
  destruct t' as [| z t'']; [discriminate|].
  destruct (Ascii.eqb_spec "}" z) as [<- | _]; [|discriminate].
  cbn [rest] in Hk. injection Hk as <- _.
  exists kw, w, body. repeat split; try assumption.
  subst u t1.
  replace (kw ++ w ++ "{"%char :: body ++ "}"%char :: t'')
    with ((kw ++ w ++ lbrace :: body ++ [rbrace]) ++ t'')
    by (rewrite <- !app_assoc; cbn [app]; rewrite <- !app_assoc; reflexivity).
  apply firstn_exact. rewrite !length_app. cbn [length].
  rewrite !length_app. cbn [length]. lia.
Qed.

(** X17.  A preserved [@string] macro is the word [@string] in any
    case, blanks, an opening brace and the text up to the first closing
    brace after it: a macro whose value is itself in braces is cut at
    the brace that closes the value. *)
Theorem string_macro_ends_at_first_brace (bib_content : text) (s : text) :
  In s (string_macros bib_content) ->
  exists kw w body,
    s = kw ++ w ++ lbrace :: body ++ [rbrace]
    /\ map lower kw = str "@string"
    /\ blank w
    /\ ~ In rbrace body.
Proof.
  unfold string_macros. intro H. apply in_map_iff in H as (m & <- & Hm).
  destruct (finditer_sound _ _ _ Hm) as (n & c & _ & Hexec & _ & ->).
  now apply string_macro_at in Hexec.
Qed.

Lemma string_macro_ends_at_first_brace_witness :
  exists kw w body,
    str "@String{jan = {January}" = kw ++ w ++ lbrace :: body ++ [rbrace]
    /\ map lower kw = str "@string"
    /\ blank w
    /\ ~ In rbrace body.
Proof.
  apply (string_macro_ends_at_first_brace
           (str "@String{jan = {January}}" ++ [nl] ++ str "@article{a,}")).
  vm_compute. left. reflexivity.
Defined.

(** *** The text written *)

Lemma lstrip_suffix (s : text) :
  exists w, s = w ++ lstrip s /\ forallb isspace w = true.
Proof.
  induction s as [| a s IH]; [now exists []|]. cbn [lstrip].
  destruct (isspace a) eqn:E; [|now exists []].
  destruct IH as (w & Hs & Hw). exists (a :: w). cbn [app forallb].
  rewrite E, Hw. split; [now f_equal | reflexivity].
Qed.

Lemma rstrip_prefix (s : text) :
  exists w, s = rstrip s ++ w /\ forallb isspace w = true.
Proof.
  unfold rstrip. destruct (lstrip_suffix (rev s)) as (w & Hs & Hw).
  exists (rev w). split.
  - rewrite <- rev_app_distr, <- Hs. now rewrite rev_involutive.
  - rewrite forallb_forall in *. intros x Hx. apply Hw. now apply in_rev.
Qed.

Lemma escaped_only_prefix (a b : text) : escaped_only (a ++ b) -> escaped_only a.
Proof.
  intros H i Hi.
  assert (Hlt : i < length a) by (apply nth_error_Some; congruence).
  destruct (H i) as (j & -> & Hj); [now rewrite nth_error_app1|].
  exists j. split; [reflexivity|]. rewrite nth_error_app1 in Hj by lia. exact Hj.
Qed.

Lemma escaped_after_skipn (t : text) :
  forall (prev : option ascii) (k : nat),
  escaped_after prev t ->
  escaped_after (last_opt (firstn k t) prev) (skipn k t).
Proof.
  induction t as [| a t IH]; intros prev k H.
  - rewrite firstn_nil, skipn_nil. exact H.
  - destruct k as [| k]; [exact H|].
    cbn [firstn skipn]. rewrite last_opt_cons. apply IH.
    now apply escaped_after_cons in H.
Qed.

Lemma last_opt_blank (w : text) :
  forallb isspace w = true -> last_opt w None <> Some backslash.
Proof.
  intros Hw H. unfold last_opt in H. destruct (rev w) as [| a r] eqn:E;
    [discriminate|].
  injection H as ->. rewrite forallb_forall in Hw.
  specialize (Hw backslash). rewrite in_rev, E in Hw.
  specialize (Hw (or_introl eq_refl)). discriminate.
Qed.

Lemma escaped_only_lstrip (s : text) : escaped_only s -> escaped_only (lstrip s).
Proof.
  intro H. destruct (lstrip_suffix s) as (w & Hs & Hw).
  apply escaped_only_after in H.
  apply (escaped_after_skipn _ _ (length w)) in H.
  rewrite Hs in H at 1 2. rewrite skipn_app_length in H.
  rewrite firstn_exact in H by reflexivity.
  eapply escaped_after_unescaped; [|exact H]. now apply last_opt_blank.
Qed.

Lemma escaped_only_rstrip (s : text) : escaped_only s -> escaped_only (rstrip s).
Proof.
  intro H. destruct (rstrip_prefix s) as (w & Hs & _).
  rewrite Hs in H. now apply escaped_only_prefix in H.
Qed.

Lemma escaped_only_join (ls : list text) :
  Forall escaped_only ls -> escaped_only (join [nl] ls).
Proof.
  induction 1 as [| l ls Hl _ IH]; [intros [| i] Hi; discriminate|].
  destruct ls as [| l' ls]; [exact Hl|].
  change (join [nl] (l :: l' :: ls)) with (l ++ [nl] ++ join [nl] (l' :: ls)).
  apply escaped_only_app; [exact Hl|]. apply escaped_only_app; [|exact IH].
  intros [| [| i]] Hi; discriminate.
Qed.

Lemma blank_scan_escaped (n : nat) :
  forall (t : text) (prev p : option ascii),
  length t <= n ->
  escaped_after p t ->
  escaped_after p (sub_scan RE_BLANK_LINES [nl; nl] prev t 0).
Proof.
  induction n as [| n IH]; intros t prev p Hlen H.
  - destruct t; [|cbn in Hlen; lia]. now rewrite blank_scan_nil.
  - destruct t as [| a t]; [now rewrite blank_scan_nil|].
    cbn [length] in Hlen. rewrite blank_scan_cons.
    apply escaped_after_cons in H as [H0 H].
    assert (Hsame : escaped_after p
                      (a :: sub_scan RE_BLANK_LINES [nl; nl] (Some a) t 0)).
    { apply escaped_after_cons. split; [exact H0|]. apply IH; [lia|exact H]. }
    destruct (Ascii.eqb_spec nl a) as [<- | Ha]; [|exact Hsame].
    destruct (blank_run t) as [k|] eqn:E; [|exact Hsame].
    apply escaped_after_cons. split; [discriminate|].
    apply escaped_after_cons. split; [discriminate|].
    apply IH; [rewrite length_skipn; lia|].
    rewrite <- (blank_run_last t k (Some nl) E) at 1.
    now apply escaped_after_skipn.
Qed.

Lemma startswith_app_l (a b p : text) :
  startswith a p = true -> startswith (a ++ b) p = true.
Proof.
  revert p. induction a as [| x a IH]; intros [| y p] H.
  - destruct b; reflexivity.
  - discriminate.
  - reflexivity.
  - cbn [app startswith] in *. apply andb_prop in H as [H1 H2].
    now rewrite H1, IH.
Qed.

Lemma contains_app_l (a b p : text) :
  contains a p = true -> contains (a ++ b) p = true.
Proof.
  induction a as [| x a IH]; intro H.
  - cbn [contains] in H. rewrite orb_false_r in H.
    destruct p; [|discriminate]. destruct b; reflexivity.
  - cbn [app]. rewrite contains_cons in *.
    apply orb_prop in H as [H | H].
    + change (x :: a ++ b) with ((x :: a) ++ b).
      now rewrite startswith_app_l.
    + rewrite IH by assumption. apply orb_true_r.
Qed.

Lemma contains_app_r (a b p : text) :
  contains b p = true -> contains (a ++ b) p = true.
Proof.
  intro H. induction a as [| x a IH]; [exact H|].
  cbn [app]. rewrite contains_cons, IH. apply orb_true_r.
Qed.

Lemma single_blank_lines_strip (s : text) :
  single_blank_lines s -> single_blank_lines (strip s).
Proof.
  unfold single_blank_lines, strip. intro H.
  destruct (lstrip_suffix s) as (w & Hs & _).
  destruct (rstrip_prefix (lstrip s)) as (w' & Hs' & _).
  destruct (contains (rstrip (lstrip s)) [nl; nl; nl]) eqn:E; [|reflexivity].
  rewrite Hs, Hs', (contains_app_r _ _ _ (contains_app_l _ w' _ E)) in H.
  discriminate.
Qed.

(** The text [clean_bib_file] writes holds no comment, no two blank
    lines in a row, and no blank at either end. *)
Lemma clean_bib_content_clean (final_bib_parts : list text) :
  let txt := clean_bib_content final_bib_parts in
  escaped_only txt /\ single_blank_lines txt /\ strip txt = txt.
Proof.
  unfold clean_bib_content. cbv zeta.
  set (ls := map (fun line => rstrip (sub RE_LINE_COMMENT [] line)) _).
  assert (Hls : Forall escaped_only ls).
  { unfold ls. apply Forall_forall. intros l Hl.
    apply in_map_iff in Hl as (line & <- & _).
    apply escaped_only_rstrip, strip_line_comments_escaped. }
  repeat split.
  - unfold strip. apply escaped_only_rstrip, escaped_only_lstrip.
    apply escaped_only_after. rewrite sub_sub_scan.
    eapply blank_scan_escaped; [apply Nat.le_refl|].
    now apply escaped_only_after, escaped_only_join.
  - apply single_blank_lines_strip, sub_blank_lines_single.
  - apply strip_idempotent.
Qed.

(** What [clean_bib_file] returns and writes. *)
Lemma clean_bib_file_outcome (fs : node) (bib_path : path)
  (used_citations : list text) (output_dir : path)
  (name : option text) (written : writes) :
  clean_bib_file fs bib_path used_citations output_dir = Ok (name, written) ->
  match name with
  | None => written = []
  | Some n =>
      n = str "main.bib"
      /\ exists txt,
           written = [(path_join output_dir (str "main.bib"), txt)]
           /\ escaped_only txt /\ single_blank_lines txt /\ strip txt = txt
  end.
Proof.
  unfold clean_bib_file. destruct (negb (path_exists fs bib_path)).
  { intro H. now injection H as <- <-. }
  destruct (read_file fs bib_path) as [bib_content | | e]; try discriminate.
  assert (Hsome :
    Ok (Some output_bib_name,
        [(path_join output_dir output_bib_name,
          clean_bib_content
            (string_macros bib_content
             ++ kept_entries_text bib_content used_citations))])
    = Ok (name, written) ->
    match name with
    | None => written = []
    | Some n =>
        n = str "main.bib"
        /\ exists txt,
             written = [(path_join output_dir (str "main.bib"), txt)]
             /\ escaped_only txt /\ single_blank_lines txt /\ strip txt = txt
    end).
  { intro H. injection H as <- <-. split; [reflexivity|].
    eexists. split; [reflexivity|]. apply clean_bib_content_clean. }
  destruct (kept_entries_text bib_content used_citations) as [| e es];
    [destruct (string_macros bib_content) as [| s ss]|]; try exact Hsome.
  intro H. now injection H as <- <-.
Qed.

(** X18.  [clean_bib_file] writes nothing when it returns [None]; when
    it returns a name, the name is [main.bib] and it has written one
    file, [main.bib] in the output directory, whose text holds no
    comment (every percent sign in it is escaped), no two blank lines in
    a row and no blank at either end. *)
Theorem clean_bib_file_writes (fs : node) (bib_path : path)
  (used_citations : list text) (output_dir : path)
  (name : option text) (written : writes) :
  clean_bib_file fs bib_path used_citations output_dir = Ok (name, written) ->
  match name with
  | None => written = []
  | Some n =>
      n = str "main.bib"
      /\ exists txt,
           written = [(path_join output_dir (str "main.bib"), txt)]
           /\ escaped_only txt /\ single_blank_lines txt /\ strip txt = txt
  end.
Proof. apply clean_bib_file_outcome. Qed.

Lemma clean_bib_file_writes_witness :
  str "main.bib" = str "main.bib"
  /\ exists txt,
       [([str "out"; str "main.bib"],
         str "@article{a," ++ [nl] ++ str " title={A}" ++ [nl] ++ str "}")]
       = [(path_join [str "out"] (str "main.bib"), txt)]
       /\ escaped_only txt /\ single_blank_lines txt /\ strip txt = txt.
Proof.
  apply (clean_bib_file_writes
           (Dir [(str "p", Dir [(str "refs.bib",
              File (str "% my references" ++ [nl] ++ str "@article{a," ++ [nl]
                    ++ str " title={A} % first" ++ [nl] ++ str "}" ++ [nl]
                    ++ str "@article{b," ++ [nl] ++ str " title={B}" ++ [nl]
                    ++ str "}"))])])
           [str "p"; str "refs.bib"] [str "a"] [str "out"]
           (Some (str "main.bib"))).
  vm_compute. reflexivity.
Defined.

Lemma path_stem_main : path_stem output_bib_name = str "main".
Proof. reflexivity. Qed.

(** X19.  The bibliography step of [main] either writes nothing and
    leaves the document as it is, or writes [main.bib] in the output
    directory and makes every [\bibliography] command of the document
    name [main]. *)
Theorem main_bibliography_step_writes (fs : node) (input_dir output_dir : path)
  (final_tex_content : text) (out : text) (written : writes) :
  main_bibliography_step fs input_dir output_dir final_tex_content
  = Ok (out, written) ->
  (written = [] /\ out = final_tex_content)
  \/ (exists txt,
        written = [(path_join output_dir (str "main.bib"), txt)]
        /\ out = sub RE_BIBLIOGRAPHY (str "\bibliography{main}")
                   final_tex_content).
Proof.
  unfold main_bibliography_step.
  destruct (search RE_BIBLIOGRAPHY final_tex_content) as [bib_match|];
    [|intro H; injection H as <- <-; now left].
  destruct (all_citations final_tex_content) as [| k ks] eqn:Ec;
    [intro H; injection H as <- <-; now left|].
  destruct (first_existing_bib fs input_dir _) as [src|];
    [|cbn [bind fst snd]; intro H; injection H as <- <-; now left].
  destruct (clean_bib_file fs src (k :: ks) output_dir) as [[name ws] | |] eqn:E;
    cbn [bind fst snd]; try discriminate.
  apply clean_bib_file_outcome in E. destruct name as [n|].
  - destruct E as (-> & txt & -> & _). intro H. injection H as <- <-.
    right. exists txt. split; reflexivity.
  - subst ws. intro H. injection H as <- <-. now left.
Qed.

Lemma main_bibliography_step_writes_witness :
  ([([str "out"; str "main.bib"], str "@article{a," ++ [nl] ++ str "}")] = []
   /\ str "\cite{a}\bibliography{main}" = str "\cite{a}\bibliography{refs}")
  \/ (exists txt,
        [([str "out"; str "main.bib"], str "@article{a," ++ [nl] ++ str "}")]
        = [(path_join [str "out"] (str "main.bib"), txt)]
        /\ str "\cite{a}\bibliography{main}"
           = sub RE_BIBLIOGRAPHY (str "\bibliography{main}")
               (str "\cite{a}\bibliography{refs}")).
Proof.
  apply (main_bibliography_step_writes
           (Dir [(str "p", Dir [(str "refs.bib",
                                 File (str "@article{a," ++ [nl] ++ str "}"))])])
           [str "p"] [str "out"]).
  vm_compute. reflexivity.
Defined.

(** *** The entries *)

Lemma matches_Alt_inv (a b : regex) (c1 : cursor) (w : text) (c2 : cursor) :
  matches (Alt a b) c1 w c2 -> matches a c1 w c2 \/ matches b c1 w c2.
Proof. inversion 1; subst; auto. Qed.

Lemma matches_alt_inv (rs : list regex) :
  rs <> [] ->
  forall c1 w c2, matches (alt rs) c1 w c2 ->
  exists r, In r rs /\ matches r c1 w c2.
Proof.
  induction rs as [| r rs IH]; intros Hne c1 w c2 H; [contradiction|].
  destruct rs as [| r' rs].
  - exists r. split; [now left | exact H].
  - change (alt (r :: r' :: rs)) with (Alt r (alt (r' :: rs))) in H.
    apply matches_Alt_inv in H as [H | H].
    + exists r. split; [now left | assumption].
    + destruct (IH ltac:(discriminate) _ _ _ H) as (r0 & Hin & Hm).
      exists r0. split; [now right | exact Hm].
Qed.

(** A group matched first: its span is put in front of the captures. *)
Lemma exec_group_step {R : Type} (n : nat) (a b : regex) (cur : cursor)
  (c : caps) (k : cursor -> caps -> option R) (x : R) :
  exec (Seq (Group n a) b) cur c k = Some x ->
  exists w cur' c',
    matches a cur w cur'
    /\ exec b cur' ((n, (length (rest cur), length (rest cur'))) :: c') k
       = Some x.
Proof. rewrite exec_Seq, exec_Group. apply exec_sound. Qed.

(** Where a non-greedy run stops before a word, the word does not occur
    earlier. *)
Lemma lazy_run_before_word (p body t' : text) :
  p <> [] ->
  (forall b1 b2, body = b1 ++ b2 -> b2 <> [] ->
                 startswith (b2 ++ t') p = false) ->
  contains body p = false.
Proof.
  intros Hp. induction body as [| x body IH]; intro Hmin.
  - cbn [contains]. destruct p; [contradiction|reflexivity].
  - rewrite contains_cons. rewrite IH.
    + rewrite orb_false_r.
      destruct (startswith (x :: body) p) eqn:E; [|reflexivity].
      apply (startswith_app_l _ t') in E.
      now rewrite (Hmin [] (x :: body) eq_refl ltac:(discriminate)) in E.
    + intros b1 b2 -> Hb2. now apply (Hmin (x :: b1) b2).
Qed.

Lemma plus_not_chr_inv (stop : ascii) (c1 : cursor) (w : text) (c2 : cursor) :
  matches (plus (not_chr stop)) c1 w c2 -> w <> [] /\ ~ In stop w.
Proof.
  unfold plus, not_chr. intro H. apply matches_seq_inv in H.
  destruct H as (w1 & c' & w2 & -> & H1 & H2).
  apply matches_cls_inv in H1. destruct H1 as (a & -> & Ha).
  apply matches_star_cls_inv in H2. split; [discriminate|].
  intros [<- | Hin].
  - now rewrite Ascii.eqb_refl in Ha.
  - rewrite forallb_forall in H2. specialize (H2 _ Hin).
    now rewrite Ascii.eqb_refl in H2.
Qed.

Lemma entry_types_lower :
  map (fun name => map lower (str name)) BIB_ENTRY_TYPES
  = map str BIB_ENTRY_TYPES.
Proof. reflexivity. Qed.

Ltac list_length :=
  repeat (rewrite length_app || (progress cbn [length])).

Ltac list_length_in H :=
  repeat (rewrite length_app in H || (progress cbn [length] in H)).

(** What the entry pattern matches, and its second group. *)
Lemma entry_at (prev : option ascii) (u : text) (n : nat) (c : caps) :
  exec_at RE_ENTRY prev u = Some (n, c) ->
  exists ty w key body,
    firstn n u
    = "@"%char :: ty ++ w ++ lbrace :: key ++ ","%char :: body ++ [nl; rbrace]
    /\ In (map lower ty) (map str BIB_ENTRY_TYPES)
    /\ blank w
    /\ key <> [] /\ ~ In ","%char key
    /\ contains body [nl; rbrace] = false
    /\ n <= length u
    /\ span_of 2 c
       = Some (length u - (1 + length ty + length w + 1),
               length u - (1 + length ty + length w + 1 + length key)).
Proof.
  unfold exec_at, RE_ENTRY. rewrite !seq_cons. cbn [seq]. intro H.
  apply exec_group_step in H. destruct H as (w1 & [b1 t1] & c1 & H1 & H).
  apply exec_seq_step in H. destruct H as (w & [b2 t2] & c2 & Hw & H).
  destruct (matches_rest _ _ _ _ H1) as [E1 _].
  destruct (matches_rest _ _ _ _ Hw) as [E2 _]. cbn [rest] in E1, E2.
  apply matches_seq_inv in H1. destruct H1 as (at_ & c' & ty & -> & Hat & Hty).
  apply matches_chr_inv in Hat. subst at_.
  apply matches_alt_inv in Hty; [|discriminate].
  destruct Hty as (r & Hr & Hty). apply in_map_iff in Hr as (name & <- & Hname).
  apply matches_lit_i_inv in Hty. apply matches_star_cls_inv in Hw.
  rewrite exec_Seq in H. unfold chr at 1 in H. rewrite exec_Cls in H.
  cbn [rest] in H. destruct t2 as [| a t3]; [discriminate|].
  destruct (Ascii.eqb_spec "{" a) as [<- | _]; [|discriminate].
  apply exec_group_step in H. destruct H as (key & [b4 t4] & c4 & Hkey & H).
  destruct (matches_rest _ _ _ _ Hkey) as [E3 _]. cbn [rest] in E3.
  apply plus_not_chr_inv in Hkey. destruct Hkey as [Hkey1 Hkey2].
  rewrite exec_Seq in H. unfold chr at 1 in H. rewrite exec_Cls in H.
  cbn [rest] in H. destruct t4 as [| a t5]; [discriminate|].
  destruct (Ascii.eqb_spec "," a) as [<- | _]; [|discriminate].
  rewrite exec_Seq in H. unfold dot_all in H.
  apply exec_lazy_first in H. destruct H as (body & t' & -> & Hk & Hmin).
  change (exec (Seq (chr nl) (chr "}")))
    with (exec (R := nat * caps) (lit_text [nl; rbrace])) in Hk, Hmin.
  assert (Hbody : contains body [nl; rbrace] = false).
  { apply (lazy_run_before_word _ _ t'); [discriminate|].
    intros w1 w2 Hw12 Hne. specialize (Hmin w1 w2 Hw12 Hne).
    rewrite exec_lit_text in Hmin.
    destruct (startswith (w2 ++ t') [nl; rbrace]); [discriminate|reflexivity]. }
  rewrite exec_lit_text in Hk.
  destruct (startswith t' [nl; rbrace]) eqn:Et; [|discriminate].
  apply startswith_prefix in Et.
  set (t'' := skipn (length [nl; rbrace]) t') in *. clearbody t''.
  cbn [rest] in Hk. injection Hk as Hn Hc.
  exists ty, w, key, body.
  assert (Hu : u = ("@"%char :: ty ++ w ++ lbrace :: key ++ ","%char
                    :: body ++ [nl; rbrace]) ++ t'').
  { rewrite E1, E2, E3, Et. cbn [app]. f_equal.
    rewrite <- !app_assoc. cbn [app]. do 2 f_equal.
    rewrite <- !app_assoc. cbn [app]. do 2 f_equal.
    rewrite <- !app_assoc. reflexivity. }
  pose proof (f_equal (@length ascii) Hu) as Hlen. list_length_in Hlen.
  pose proof (f_equal (@length ascii) Et) as Ht'. list_length_in Ht'.
  repeat split; try assumption.
  - rewrite <- Hn. rewrite Hu at 2. apply firstn_exact. list_length.
    rewrite Hlen. lia.
  - rewrite <- entry_types_lower. apply in_map_iff. exists name.
    split; [now symmetry | exact Hname].
  - lia.
  - rewrite <- Hc. cbn [span_of Nat.eqb]. rewrite E3. list_length.
    rewrite Ht'. do 2 f_equal; lia.
Qed.

Lemma span_of_make_match (total : nat) (t : text) (n : nat) (c : caps)
  (g : nat) :
  span_of g (m_spans (make_match total t n c))
  = option_map (fun se => (total - fst se, total - snd se)) (span_of g c).
Proof.
  cbn [make_match m_spans]. induction c as [| [g' se] c IH]; [reflexivity|].
  cbn [map span_of fst snd]. destruct (g' =? g); [reflexivity | exact IH].
Qed.

(** An entry the pattern finds, with its key. *)
Lemma entry_match (bib_content : text) (m : rmatch) :
  In m (finditer RE_ENTRY bib_content) ->
  exists ty w key body,
    m_text m
    = "@"%char :: ty ++ w ++ lbrace :: key ++ ","%char :: body ++ [nl; rbrace]
    /\ In (map lower ty) (map str BIB_ENTRY_TYPES)
    /\ blank w
    /\ key <> [] /\ ~ In ","%char key
    /\ contains body [nl; rbrace] = false
    /\ group bib_content m 2 = key.
Proof.
  intro H. apply in_finditer in H.
  destruct (scan_hit _ bib_content m bib_content [] 0 eq_refl H)
    as (n & c & _ & Hle & Hexec & Hm).
  destruct (entry_at _ _ _ _ Hexec)
    as (ty & w & key & body & Htext & Hty & Hw & Hk1 & Hk2 & Hbody & Hn & Hspan).
  exists ty, w, key, body.
  set (s := m_start m) in *. set (u := skipn s bib_content) in *.
  assert (Hlen : length bib_content = s + length u).
  { unfold u. rewrite length_skipn. lia. }
  pose proof (f_equal (@length ascii) Htext) as Hl.
  rewrite length_firstn, Nat.min_l in Hl by exact Hn. list_length_in Hl.
  repeat split; try assumption.
  - rewrite Hm. exact Htext.
  - unfold group. rewrite Hm, span_of_make_match, Hspan. cbn [option_map fst snd].
    unfold slice.
    replace (length bib_content - (length u - (1 + length ty + length w + 1)))
      with (s + (1 + length ty + length w + 1)) by lia.
    replace (length bib_content
             - (length u - (1 + length ty + length w + 1 + length key))
             - (s + (1 + length ty + length w + 1)))
      with (length key) by lia.
    rewrite Nat.add_comm, <- skipn_skipn. fold u.
    rewrite <- (firstn_skipn n u), Htext.
    replace ("@"%char :: ty ++ w ++ lbrace :: key ++ ","%char :: body ++ [nl; rbrace])
      with (("@"%char :: ty ++ w ++ [lbrace]) ++ key ++ ","%char :: body ++ [nl; rbrace])
      by (cbn [app]; rewrite <- ?app_assoc; reflexivity).
    rewrite <- app_assoc.
    replace (1 + length ty + length w + 1)
      with (length ("@"%char :: ty ++ w ++ [lbrace])) by (list_length; lia).
    rewrite skipn_app_length. rewrite <- app_assoc.
    now apply firstn_exact.
Qed.

(** X20.  Every entry [clean_bib_file] keeps is cited and has the shape
    the entry pattern asks for: an at sign and an entry type in any
    case, blanks, an opening brace, a key without comma whose stripped
    text is one of the citation keys, a comma, and a body that runs to
    the first line that begins with a closing brace. *)
Theorem kept_entry_shape (bib_content : text) (used_citations : list text)
  (entry : text) :
  In entry (kept_entries_text bib_content used_citations) ->
  exists ty w key body,
    entry
    = "@"%char :: ty ++ w ++ lbrace :: key ++ ","%char :: body ++ [nl; rbrace]
    /\ In (map lower ty) (map str BIB_ENTRY_TYPES)
    /\ blank w
    /\ ~ In ","%char key
    /\ mem_text (strip key) used_citations = true
    /\ contains body [nl; rbrace] = false.
Proof.
  unfold kept_entries_text. intro H. apply in_map_iff in H as (m & <- & Hm).
  apply filter_In in Hm as [Hm Hcited].
  destruct (entry_match _ _ Hm)
    as (ty & w & key & body & Htext & Hty & Hw & _ & Hk & Hbody & Hkey).
  exists ty, w, key, body. unfold entry_key in Hcited. rewrite Hkey in Hcited.
  repeat split; assumption.
Qed.

Lemma kept_entry_shape_witness :
  exists ty w key body,
    str "@Article{ knuth ," ++ [nl] ++ str " title={A}" ++ [nl] ++ str "}"
    = "@"%char :: ty ++ w ++ lbrace :: key ++ ","%char :: body ++ [nl; rbrace]
    /\ In (map lower ty) (map str BIB_ENTRY_TYPES)
    /\ blank w
    /\ ~ In ","%char key
    /\ mem_text (strip key) [str "knuth"] = true
    /\ contains body [nl; rbrace] = false.
Proof.
  apply (kept_entry_shape
           (str "@Article{ knuth ," ++ [nl] ++ str " title={A}" ++ [nl] ++ str "}"
            ++ [nl] ++ str "@book{other," ++ [nl] ++ str "}")).
  vm_compute. left. reflexivity.
Defined.
(** ** More on the definitions *)

(** The last pattern of a sequence is matched on what the patterns
    before it leave. *)
Lemma exec_seq_last {R : Type} (g : regex) (rs : list regex) :
  forall cur c (k : cursor -> caps -> option R) x,
  exec (seq (rs ++ [g])) cur c k = Some x ->
  exists w cur' c', rest cur = w ++ rest cur' /\ exec g cur' c' k = Some x.
Proof.
  induction rs as [| r rs IH]; intros cur c k x H.
  - exists [], cur, c. split; [reflexivity | exact H].
  - cbn [app] in H. destruct (rs ++ [g]) as [| r2 l] eqn:E.
    + now destruct rs.
    + rewrite seq_cons in H. apply exec_seq_step in H.
      destruct H as (w1 & cur1 & c1 & Hm & H).
      destruct (IH _ _ _ _ H) as (w2 & cur' & c' & Hrest & Hg).
      exists (w1 ++ w2), cur', c'. split; [|exact Hg].
      destruct (matches_rest _ _ _ _ Hm) as [E1 _].
      now rewrite E1, Hrest, app_assoc.
Qed.

Lemma def_head_last (ty : def_type) :
  exists rs, RE_DEF_HEAD ty = seq (rs ++ [Group 3 (chr "{")]).
Proof.
  destruct ty.
  - exists [chr "\"; alt [lit "renew"; lit "new"; lit "provide"];
            lit "command"; Star ws; opt (chr "*"); Star ws; chr "{"; Star ws;
            chr "\"; Group 1 (plus word); Star ws; chr "}";
            Group 2 (upto2 (seq [chr "["; Star (not_chr "]"); chr "]"]));
            Star ws].
    reflexivity.
  - exists [lit "\definecolor"; Star ws; chr "{"; Star ws;
            Group 1 (plus word); Star ws; chr "}"; Star ws; chr "{"; Star ws;
            Group 2 (plus word); Star ws; chr "}"; Star ws].
    reflexivity.
Qed.

(** A head ends with the opening brace of the body, which is its third
    group. *)
Lemma def_head_at (ty : def_type) (prev : option ascii) (u : text) (n : nat)
  (c : caps) :
  exec_at (RE_DEF_HEAD ty) prev u = Some (n, c) ->
  exists w t2 c',
    u = w ++ lbrace :: t2 /\ n = S (length w)
    /\ c = (3, (S (length t2), length t2)) :: c'.
Proof.
  unfold exec_at. destruct (def_head_last ty) as (rs & ->). intro H.
  apply exec_seq_last in H. destruct H as (w & [b t] & c' & Hrest & H).
  cbn [rest] in Hrest. rewrite exec_Group in H. unfold chr in H.
  rewrite exec_Cls in H. cbn [rest] in H.
  destruct t as [| a t2]; [discriminate|].
  destruct (Ascii.eqb_spec "{" a) as [<- | _]; [|discriminate].
  cbn [rest] in H. injection H as <- <-.
  exists w, t2, c'. subst u. repeat split.
  rewrite length_app. cbn [length]. lia.
Qed.

Lemma def_head_brace (content : text) (ty : def_type) (m : rmatch) :
  In m (finditer (RE_DEF_HEAD ty) content) ->
  exists w t2,
    skipn (m_start m) content = w ++ lbrace :: t2
    /\ m_text m = w ++ [lbrace]
    /\ m_end m = m_start m + length w + 1
    /\ group_start m 3 = Some (m_start m + length w).
Proof.
  intro H. apply in_finditer in H.
  destruct (scan_hit _ content m content [] 0 eq_refl H)
    as (n & c & _ & Hle & Hexec & Hm).
  destruct (def_head_at _ _ _ _ _ Hexec) as (w & t2 & c' & Hu & -> & ->).
  assert (Hlen : length content = m_start m + length w + 1 + length t2).
  { rewrite <- (firstn_skipn (m_start m) content) at 1.
    rewrite length_app, length_firstn, Hu, Nat.min_l, length_app by exact Hle.
    cbn [length]. lia. }
  exists w, t2. split; [exact Hu|].
  set (s := m_start m) in *. rewrite Hm. unfold group_start.
  cbn [make_match m_text m_end m_start m_spans map span_of fst snd].
  rewrite Hu, length_app. cbn [length Nat.eqb option_map fst].
  repeat split.
  - change (w ++ lbrace :: t2) with (w ++ [lbrace] ++ t2).
    rewrite app_assoc. apply firstn_exact. rewrite length_app. cbn. lia.
  - lia.
  - f_equal. lia.
Qed.

(** X21.  A recorded definition runs from the start of a head to the
    brace that closes the body: its text is the text of the head, which
    ends with the opening brace, a correctly nested body and the closing
    brace; its name is the first group of the head; its range lies
    inside the content. *)
Theorem recorded_definition_shape (content : text) (ty : def_type)
  (d : definition) :
  In d (all_definitions content ty) ->
  exists m head body,
    In m (finditer (RE_DEF_HEAD ty) content)
    /\ m_text m = head ++ [lbrace]
    /\ balanced body
    /\ d_name d = group content m 1
    /\ d_text d = m_text m ++ body ++ [rbrace]
    /\ d_start d = m_start m
    /\ d_end d = m_end m + length body + 1
    /\ d_end d <= length content.
Proof.
  unfold all_definitions. intro H. apply in_flat_map in H as (m & Hm & Hd).
  destruct (def_head_brace _ _ _ Hm) as (w & t2 & Hu & Htext & Hend & Hg).
  unfold record_definition in Hd. rewrite Hg in Hd.
  destruct (Z.eqb_spec (_find_balanced_braces content (m_start m + length w)) (-1))
    as [_ | Hne]; [destruct Hd|].
  destruct Hd as [<- | []].
  destruct (find_balanced_braces_body _ _ _ eq_refl Hne)
    as (pre & body & post & Hc & Hpre & Hbal & Hj).
  rewrite Hj.
  replace (Z.to_nat (Z.of_nat (m_start m + length w + 1 + length body) + 1))
    with (m_start m + length w + 1 + length body + 1) by lia.
  cbn [d_name d_text d_start d_end].
  assert (Ht2 : t2 = body ++ rbrace :: post).
  { assert (E : skipn (length pre) content = lbrace :: t2).
    { rewrite Hpre, Nat.add_comm, <- skipn_skipn, Hu. apply skipn_app_length. }
    rewrite Hc in E at 1. rewrite skipn_app_length in E. now injection E. }
  exists m, w, body. repeat split; try assumption; try lia.
  - unfold slice. rewrite Hu, Htext, Ht2.
    replace (w ++ lbrace :: body ++ rbrace :: post)
      with (((w ++ [lbrace]) ++ body ++ [rbrace]) ++ post)
      by (rewrite <- ?app_assoc; cbn [app]; rewrite <- ?app_assoc; reflexivity).
    apply firstn_exact. rewrite !length_app. cbn [length]. lia.
  - pose proof (f_equal (@length ascii) Hc) as Hl.
    rewrite length_app in Hl. cbn [length] in Hl.
    rewrite length_app in Hl. cbn [length] in Hl. lia.
Qed.

Lemma recorded_definition_shape_witness :
  exists m head body,
    In m (finditer (RE_DEF_HEAD Command) (str "\newcommand{\a}{x{y}}z"))
    /\ m_text m = head ++ [lbrace]
    /\ balanced body
    /\ str "a" = group (str "\newcommand{\a}{x{y}}z") m 1
    /\ str "\newcommand{\a}{x{y}}" = m_text m ++ body ++ [rbrace]
    /\ 0 = m_start m
    /\ 21 = m_end m + length body + 1
    /\ 21 <= length (str "\newcommand{\a}{x{y}}z").
Proof.
  apply (recorded_definition_shape (str "\newcommand{\a}{x{y}}z") Command
           (Definition_ (str "a") (str "\newcommand{\a}{x{y}}") 0 21)).
  vm_compute. left. reflexivity.
Defined.

(** *** Occurrences of a name *)

Lemma last_opt_word (name : text) (prev : option ascii) :
  name <> [] -> forallb isword name = true ->
  is_word_opt (last_opt name prev) = true.
Proof.
  intros Hne Hw. destruct name as [| a name] using rev_ind; [contradiction|].
  rewrite last_opt_snoc. rewrite forallb_app in Hw.
  apply andb_prop in Hw as [_ Hw]. cbn in Hw. cbn.
  now destruct (isword a).
Qed.

Lemma hd_error_app_word (name rest : text) :
  name <> [] -> forallb isword name = true ->
  is_word_opt (hd_error (name ++ rest)) = true.
Proof.
  intros Hne Hw. destruct name as [| a name]; [contradiction|].
  cbn in *. now apply andb_prop in Hw as [-> _].
Qed.

Lemma usage_at (ty : def_type) (name : text) (prev : option ascii) (t : text)
  (x : nat * caps) :
  name <> [] -> forallb isword name = true ->
  exec_at (re_usage ty name) prev t = Some x ->
  exists rest,
    t = match ty with Command => [backslash] | Color => [] end ++ name ++ rest
    /\ is_word_opt (hd_error rest) = false
    /\ (ty = Color -> is_word_opt prev = false).
Proof.
  intros Hne Hw. unfold exec_at, re_usage. destruct ty.
  - rewrite !seq_cons. cbn [seq]. rewrite exec_Seq. unfold chr.
    rewrite exec_Cls. cbn [rest].
    destruct t as [| a u]; [discriminate|].
    destruct (Ascii.eqb_spec "\" a) as [<- | _]; [|discriminate].
    rewrite exec_Seq, exec_lit_text.
    destruct (startswith u name) eqn:Es; [|discriminate].
    rewrite exec_WordBoundary. unfold at_word_boundary. cbn [before rest].
    rewrite last_opt_word by assumption.
    destruct (is_word_opt (hd_error (skipn (length name) u))) eqn:Eh;
      [discriminate|].
    intros _. exists (skipn (length name) u). repeat split.
    + cbn [app]. f_equal. now apply startswith_prefix.
    + exact Eh.
    + discriminate.
  - rewrite !seq_cons. cbn [seq]. rewrite exec_Seq, exec_WordBoundary.
    unfold at_word_boundary. cbn [before rest].
    destruct (xorb (is_word_opt prev) (is_word_opt (hd_error t))) eqn:Ex;
      [|discriminate].
    rewrite exec_Seq, exec_lit_text.
    destruct (startswith t name) eqn:Es; [|discriminate].
    apply startswith_prefix in Es.
    rewrite exec_WordBoundary. unfold at_word_boundary. cbn [before rest].
    rewrite last_opt_word by assumption.
    destruct (is_word_opt (hd_error (skipn (length name) t))) eqn:Eh;
      [discriminate|].
    intros _. exists (skipn (length name) t). repeat split.
    + exact Es.
    + exact Eh.
    + intros _. rewrite Es, hd_error_app_word in Ex by assumption.
      now destruct (is_word_opt prev).
Qed.

(** X22.  What [_extract_definitions] counts as an occurrence of a name
    made of word characters is the name, after a backslash for a macro,
    standing as a whole word: the character after it is not a word
    character, and for a color the character before it is not one
    either.  So [\foobar] is no occurrence of [\foo]. *)
Theorem usage_occurrence (content : text) (ty : def_type) (name : text)
  (m : rmatch) :
  name <> [] -> forallb isword name = true ->
  In m (finditer (re_usage ty name) content) ->
  exists rest,
    skipn (m_start m) content
    = match ty with Command => [backslash] | Color => [] end ++ name ++ rest
    /\ is_word_opt (hd_error rest) = false
    /\ (ty = Color ->
        is_word_opt (char_before content (m_start m)) = false).
Proof.
  intros Hne Hw Hm.
  destruct (finditer_sound _ _ _ Hm) as (n & c & _ & Hexec & _).
  exact (usage_at _ _ _ _ _ Hne Hw Hexec).
Qed.

Lemma usage_occurrence_witness :
  usage_count (str "\foo \foobar") Command (str "foo") = 1
  /\ exists rest,
       skipn 0 (str "\foo \foobar")
       = match Command with Command => [backslash] | Color => [] end
         ++ str "foo" ++ rest
       /\ is_word_opt (hd_error rest) = false
       /\ (Command = Color ->
           is_word_opt (char_before (str "\foo \foobar") 0) = false).
Proof.
  split; [reflexivity|].
  apply (usage_occurrence (str "\foo \foobar") Command (str "foo")
           (Match 0 4 (str "\foo") [])).
  - discriminate.
  - reflexivity.
  - vm_compute. left. reflexivity.
Defined.
(** ** The assembler and the text steps of [main] *)

Lemma sorted_below_length (l : list nat) (n : nat) :
  StronglySorted lt l -> (forall i, In i l -> i < n) -> length l <= n.
Proof.
  intros Hs Hin. destruct l as [| a l] using rev_ind; [cbn; lia|].
  rewrite length_app. cbn [length].
  assert (Hnth : nth_error (l ++ [a]) (length l) = Some a)
    by (rewrite nth_error_app2, Nat.sub_diag by lia; reflexivity).
  pose proof (sorted_above _ Hs 0 (proj2 (Forall_forall _ _) (fun x _ => Nat.le_0_l x))
                _ _ Hnth) as Hge.
  assert (Ha : In a (l ++ [a])) by (apply in_or_app; right; now left).
  specialize (Hin a Ha). lia.
Qed.

(** X23.  The assembler returns for every content: the loop that removes
    the declarations never reads past the end of the list, and what it
    leaves is no longer than the content. *)
Theorem assembler_never_raises (content : text) :
  exists body out,
    body_content content = Ok body
    /\ process_preamble_and_definitions content = Ok out
    /\ length body <= length content.
Proof.
  destruct (surviving_spec content) as (keep & Hk & Hs & Hlt & _).
  destruct (process_preamble_returns content) as (out & Hout).
  exists (map (fun i => nth i content " "%char) keep), out.
  repeat split; [|exact Hout|].
  - rewrite body_content_surviving, Hk. reflexivity.
  - rewrite length_map. now apply sorted_below_length.
Qed.


(** A project of two files through steps 1 to 4. *)
Example main_tex_content_example :
  main_tex_content 3
    (Dir [(str "p",
           Dir [(str "main.tex",
                 File (str "\documentclass{article}" ++ [nl]
                       ++ str "\begin{document} % start" ++ [nl]
                       ++ str "\input{body}" ++ [nl]
                       ++ str "\end{document}"));
                (str "body.tex",
                 File (str "  Hello," ++ [nl] ++ str "  world."))])])
    [str "p"; str "main.tex"] [str "p"]
  = Ok (str "\documentclass{article}" ++ [nl]
        ++ str "\begin{document} Hello, world." ++ [nl]
        ++ str "\end{document}").
Proof. vm_compute. reflexivity. Qed.
(** ** Captions *)

Lemma rstrip_last (s : text) :
  rstrip s = [] \/ exists r c, rstrip s = r ++ [c] /\ isspace c = false.
Proof.
  unfold rstrip. destruct (lstrip_head (rev s)) as [-> | (c & r & -> & Hc)].
  - now left.
  - right. exists (rev r), c. split; [reflexivity | exact Hc].
Qed.

Lemma lines_joined_after_skipn (t : text) :
  forall (prev : option ascii) (k : nat),
  lines_joined_after prev t ->
  lines_joined_after (last_opt (firstn k t) prev) (skipn k t).
Proof.
  induction t as [| a t IH]; intros prev k H.
  - rewrite firstn_nil, skipn_nil. exact H.
  - destruct k as [| k]; [exact H|].
    cbn [firstn skipn]. rewrite last_opt_cons. apply IH.
    now apply lines_joined_after_cons in H.
Qed.

Lemma lines_joined_lstrip (s : text) : lines_joined s -> lines_joined (lstrip s).
Proof.
  intro H. destruct (lstrip_suffix s) as (w & Hs & _).
  apply (lines_joined_after_skipn _ _ (length w)) in H.
  rewrite Hs in H at 1 2. rewrite skipn_app_length in H.
  eapply lines_joined_after_prev; [|exact H].
  pose proof (lstrip_hd s) as Hhd. intro E. rewrite E in Hhd. discriminate.
Qed.

(** The newlines of a text that does not end with a blank stay newlines
    that may stay when blanks after it are taken away. *)
Lemma lines_joined_after_prefix (r : text) (c : ascii) (w : text) :
  c <> nl ->
  forall prev,
  lines_joined_after prev ((r ++ [c]) ++ w) -> lines_joined_after prev (r ++ [c]).
Proof.
  intros Hc. induction r as [| a r IH]; intros prev H.
  - cbn [app] in *. apply lines_joined_after_cons.
    split; [intro E; now contradiction Hc | apply lines_joined_after_nil].
  - cbn [app] in *. apply lines_joined_after_cons in H as [H0 H].
    apply lines_joined_after_cons. split; [|now apply IH].
    intro Ha. specialize (H0 Ha). destruct r; exact H0.
Qed.

Lemma lines_joined_rstrip (s : text) : lines_joined s -> lines_joined (rstrip s).
Proof.
  intro H. destruct (rstrip_prefix s) as (w & Hs & _).
  destruct (rstrip_last s) as [-> | (r & c & E & Hc)];
    [apply lines_joined_after_nil|].
  rewrite E in *. rewrite Hs in H.
  apply (lines_joined_after_prefix r c w); [|exact H].
  intros ->. discriminate.
Qed.

Lemma no_double_space_strip (s : text) : no_double_space s -> no_double_space (strip s).
Proof.
  unfold no_double_space, strip. intro H.
  destruct (lstrip_suffix s) as (w & Hs & _).
  destruct (rstrip_prefix (lstrip s)) as (w' & Hs' & _).
  destruct (contains (rstrip (lstrip s)) (str "  ")) eqn:E; [|reflexivity].
  rewrite Hs, Hs', (contains_app_r _ _ _ (contains_app_l _ w' _ E)) in H.
  discriminate.
Qed.


(** ** The output directory of [main] *)

Lemma is_relative_to_app (p q : path) : is_relative_to (p ++ q) p = true.
Proof.
  induction p as [| a p IH]; [now destruct q|].
  cbn [app is_relative_to]. now rewrite text_eqb_refl, IH.
Qed.

Lemma is_relative_to_prefix (p q : path) :
  is_relative_to p q = true -> exists r, p = q ++ r.
Proof.
  revert p. induction q as [| b q IH]; intros p H; [now exists p|].
  destruct p as [| a p]; [discriminate|]. cbn [is_relative_to] in H.
  apply andb_prop in H as [Hab H].
  destruct (text_eqb_spec a b) as [-> | _]; [|discriminate].
  destruct (IH _ H) as (r & ->). now exists r.
Qed.

(** X26.  The output directory [main] chooses when none is given lies
    beside the input directory: it is not the input directory, and
    neither of the two lies inside the other, so the removal of an old
    output directory leaves the project alone. *)
Theorem default_output_dir_beside (input_dir output_dir : path) :
  default_output_dir input_dir = Ok output_dir ->
  output_dir <> input_dir
  /\ is_relative_to output_dir input_dir = false
  /\ is_relative_to input_dir output_dir = false
  /\ path_parent output_dir = path_parent input_dir.
Proof.
  unfold default_output_dir. destruct (rev input_dir) as [| name parent] eqn:E;
    [discriminate|].
  intro H. injection H as <-.
  assert (Hin : input_dir = rev parent ++ [name]).
  { rewrite <- (rev_involutive input_dir), E. reflexivity. }
  assert (Hname : name ++ str "_clean" <> name).
  { intro Hn. apply (f_equal (@length ascii)) in Hn. rewrite length_app in Hn.
    cbn in Hn. lia. }
  assert (Hlast : forall r a b, rev parent ++ [a] = (rev parent ++ [b]) ++ r ->
                  a = b).
  { intros r a b Hr. rewrite <- app_assoc in Hr. apply app_inv_head in Hr.
    now injection Hr. }
  subst input_dir. repeat split.
  - intro Hn. apply app_inv_head in Hn. injection Hn as Hn. now apply Hname.
  - destruct (is_relative_to _ _) eqn:Hr; [|reflexivity].
    apply is_relative_to_prefix in Hr as (r & Hr). apply Hlast in Hr.
    now contradiction Hname.
  - destruct (is_relative_to _ _) eqn:Hr; [|reflexivity].
    apply is_relative_to_prefix in Hr as (r & Hr). apply Hlast in Hr.
    symmetry in Hr. now contradiction Hname.
  - unfold path_parent. now rewrite !removelast_last.
Qed.

Lemma default_output_dir_beside_witness :
  [str "home"; str "paper_clean"] <> [str "home"; str "paper"]
  /\ is_relative_to [str "home"; str "paper_clean"] [str "home"; str "paper"]
     = false
  /\ is_relative_to [str "home"; str "paper"] [str "home"; str "paper_clean"]
     = false
  /\ path_parent [str "home"; str "paper_clean"]
     = path_parent [str "home"; str "paper"].
Proof.
  apply default_output_dir_beside. vm_compute. reflexivity.
Defined.
(** ** Termination of the merge *)

Lemma all_paths_dir (entries : list (text * node)) :
  all_paths (Dir entries)
  = [] :: flat_map (fun e => map (cons (fst e)) (all_paths (snd e))) entries.
Proof.
  cbn [all_paths]. f_equal.
  induction entries as [| [name x] entries IH]; [reflexivity|].
  cbn [flat_map fst snd]. now rewrite IH.
Qed.

Lemma all_files_dir (entries : list (text * node)) :
  all_files (Dir entries) = flat_map (fun e => all_files (snd e)) entries.
Proof.
  cbn [all_files].
  induction entries as [| [name x] entries IH]; [reflexivity|].
  cbn [flat_map fst snd]. now rewrite IH.
Qed.

Lemma lookup_entry_in (name : text) (entries : list (text * node)) (x : node) :
  lookup_entry name entries = Some x -> In (name, x) entries.
Proof.
  induction entries as [| [n y] entries IH]; [discriminate|].
  cbn [lookup_entry]. destruct (text_eqb_spec n name) as [-> | _].
  - intro H. injection H as ->. now left.
  - intro H. right. now apply IH.
Qed.

(** A path without [".."] that resolves is one of the paths of the
    node. *)
Lemma walk_all_paths (p : path) :
  forall (up : list node) (cur x : node),
  dotdot_free p = true -> walk up cur p = Some x -> In p (all_paths cur).
Proof.
  induction p as [| comp p IH]; intros up cur x Hp H.
  - destruct cur; now left.
  - cbn [dotdot_free forallb] in Hp. apply andb_prop in Hp as [Hc Hp].
    cbn [walk] in H. destruct cur as [c | e | entries]; try discriminate.
    destruct (text_eqb comp (str "..")); [discriminate|].
    destruct (lookup_entry comp entries) as [y|] eqn:E; [|discriminate].
    rewrite all_paths_dir. right. apply in_flat_map.
    exists (comp, y). split; [now apply lookup_entry_in|].
    cbn [fst snd]. apply in_map. exact (IH _ _ _ Hp H).
Qed.

(** The text of a file that is read is the text of a file of the file
    system. *)
Lemma walk_all_files (fs : node) (p : path) :
  forall (up : list node) (cur : node) (content : text),
  Forall (fun y => incl (all_files y) (all_files fs)) (cur :: up) ->
  walk up cur p = Some (File content) ->
  In content (all_files fs).
Proof.
  induction p as [| comp p IH]; intros up cur content Hall H.
  - cbn [walk] in H. injection H as ->.
    inversion Hall as [| ? ? Hcur _]; subst. apply Hcur. now left.
  - cbn [walk] in H. destruct cur as [c | e | entries]; try discriminate.
    destruct (text_eqb comp (str "..")).
    + destruct up as [| parent up'].
      * exact (IH _ _ _ Hall H).
      * inversion Hall as [| ? ? _ Hup]; subst. exact (IH _ _ _ Hup H).
    + destruct (lookup_entry comp entries) as [y|] eqn:E; [|discriminate].
      refine (IH _ _ _ _ H). constructor; [|exact Hall].
      inversion Hall as [| ? ? Hcur _]; subst.
      intros c Hc. apply Hcur. rewrite all_files_dir. apply in_flat_map.
      exists (comp, y). split; [now apply lookup_entry_in | exact Hc].
Qed.

Lemma read_file_all_files (fs : node) (p : path) (content : text) :
  read_file fs p = Content content -> In content (all_files fs).
Proof.
  unfold read_file, resolve. destruct (walk [] fs p) as [[c | e | d]|] eqn:E;
    try discriminate.
  intro H. injection H as ->.
  apply (walk_all_files fs p [] fs content); [|exact E].
  constructor; [apply incl_refl | constructor].
Qed.

Lemma exists_all_paths (fs : node) (p : path) :
  dotdot_free p = true -> path_exists fs p = true -> In p (all_paths fs).
Proof.
  unfold path_exists, resolve. intros Hp H.
  destruct (walk [] fs p) as [x|] eqn:E; [|discriminate].
  exact (walk_all_paths _ _ _ _ Hp E).
Qed.

(** *** Paths without [".."] *)

Lemma dotdot_free_app (p q : path) :
  dotdot_free (p ++ q) = (dotdot_free p && dotdot_free q)%bool.
Proof. apply forallb_app. Qed.

Lemma dotdot_free_parent (p : path) :
  dotdot_free p = true -> dotdot_free (path_parent p) = true.
Proof.
  unfold path_parent. intro H. destruct p as [| a p] using rev_ind;
    [reflexivity|].
  rewrite removelast_last. rewrite dotdot_free_app in H.
  now apply andb_prop in H.
Qed.

Lemma dotdot_free_join (p : path) (s : text) :
  dotdot_free p = true -> dotdot_free (path_parts s) = true ->
  dotdot_free (path_join p s) = true.
Proof.
  intros Hp Hs. unfold path_join. destruct (startswith s (str "/")); [exact Hs|].
  now rewrite dotdot_free_app, Hp, Hs.
Qed.

(** *** The paths still to visit *)

Lemma filter_length_mono {A : Type} (f g : A -> bool) (l : list A) :
  (forall x, f x = true -> g x = true) ->
  length (filter f l) <= length (filter g l).
Proof.
  intro H. induction l as [| a l IH]; [reflexivity|]. cbn [filter].
  destruct (f a) eqn:Ef.
  - rewrite (H a Ef). cbn [length]. lia.
  - destruct (g a); cbn [length]; lia.
Qed.

Lemma filter_length_lt {A : Type} (f g : A -> bool) (l : list A) (q : A) :
  (forall x, f x = true -> g x = true) ->
  In q l -> g q = true -> f q = false ->
  length (filter f l) < length (filter g l).
Proof.
  intros H Hq Hg Hf. induction l as [| a l IH]; [destruct Hq|]. cbn [filter].
  destruct Hq as [-> | Hq].
  - rewrite Hg, Hf. cbn [length].
    pose proof (filter_length_mono f g l H). lia.
  - specialize (IH Hq). destruct (f a) eqn:Ef.
    + rewrite (H a Ef). cbn [length]. lia.
    + destruct (g a); cbn [length]; lia.
Qed.

Lemma path_mem_incl (q : path) (st st' : list path) :
  incl st st' -> path_mem q st = true -> path_mem q st' = true.
Proof. intros Hi H. apply path_mem_in. apply Hi. now apply path_mem_in. Qed.

Lemma unvisited_incl (paths st st' : list path) :
  incl st st' -> unvisited paths st' <= unvisited paths st.
Proof.
  intro Hi. apply filter_length_mono. intros q Hq.
  destruct (path_mem q st) eqn:E; [|reflexivity].
  now rewrite (path_mem_incl _ _ _ Hi E) in Hq.
Qed.

Lemma unvisited_new (paths st : list path) (q : path) :
  In q paths -> path_mem q st = false ->
  unvisited paths (q :: st) < unvisited paths st.
Proof.
  intros Hq Hm. apply (filter_length_lt _ _ _ q); try assumption.
  - intros x Hx. destruct (path_mem x st) eqn:E; [|reflexivity].
    rewrite (path_mem_incl x st (q :: st)) in Hx; [discriminate| |exact E].
    now apply incl_tl, incl_refl.
  - now rewrite Hm.
  - replace (path_mem q (q :: st)) with true; [reflexivity|].
    symmetry. apply path_mem_in. now left.
Qed.

Lemma unvisited_le (paths st : list path) : unvisited paths st <= length paths.
Proof. apply List.filter_length_le. Qed.

(** A substitution whose callback stays within the bound stays within
    it. *)
Lemma sub_state_bounded {St : Type} (I : St -> Prop)
  (repl : rmatch -> St -> outcome (text * St)) (toks : list token) :
  (forall m st, In (Hit m) toks -> I st ->
     repl m st <> RecursionError
     /\ forall x st', repl m st = Ok (x, st') -> I st') ->
  forall st, I st -> sub_state repl toks st <> RecursionError.
Proof.
  induction toks as [| [a | m] toks IH]; intros Hrepl st Hst.
  - discriminate.
  - cbn [sub_state]. specialize (IH (fun m st Hm => Hrepl m st (or_intror Hm)) st Hst).
    destruct (sub_state repl toks st) as [[o s] | e |]; cbn [bind];
      [discriminate | discriminate | contradiction].
  - cbn [sub_state]. destruct (Hrepl m st (or_introl eq_refl) Hst) as [Hne Hok].
    destruct (repl m st) as [[x s1] | e |]; cbn [bind];
      [|discriminate | contradiction].
    specialize (IH (fun m st Hm => Hrepl m st (or_intror Hm)) s1 (Hok _ _ eq_refl)).
    cbn [snd]. destruct (sub_state repl toks s1) as [[o s] | e |]; cbn [bind];
      [discriminate | discriminate | contradiction].
Qed.

Section Termination.

Variables (fs : node) (project_root : path).
Hypothesis root_plain : dotdot_free project_root = true.
Hypothesis files_plain : forallb plain_inclusions (all_files fs) = true.

(** With more nested calls allowed than paths are still to visit, the
    merge does not run into the bound. *)
Lemma merge_bounded (limit : nat) :
  forall (tex_file_path : path) (processed_files : list path),
  dotdot_free tex_file_path = true ->
  unvisited (all_paths fs) processed_files < limit ->
  merge_tex_files limit fs tex_file_path project_root processed_files
  <> RecursionError.
Proof.
  induction limit as [| limit IH]; intros p st Hp Hu; [lia|].
  cbn [merge_tex_files].
  destruct (path_mem p st) eqn:Hmem; [discriminate|].
  destruct (read_file fs p) as [content | | e] eqn:Hread; try discriminate.
  assert (Hin : In p (all_paths fs)).
  { apply exists_all_paths; [exact Hp|]. now apply (read_file_exists _ _ content). }
  pose proof (unvisited_new _ _ _ Hin Hmem) as Hnew.
  assert (Hplain : plain_inclusions content = true).
  { rewrite forallb_forall in files_plain. apply files_plain.
    now apply (read_file_all_files _ p). }
  apply (sub_state_bounded (fun st' => incl (p :: st) st')); [|apply incl_refl].
  intros m st' Hm Hst'. unfold replace_input.
  assert (Hname : dotdot_free
            (path_parts (included_filename (strip_comments content) m)) = true).
  { unfold plain_inclusions in Hplain. rewrite forallb_forall in Hplain.
    apply Hplain. now apply in_finditer. }
  assert (Hfinal : dotdot_free
            (final_path fs p project_root
               (included_filename (strip_comments content) m)) = true).
  { unfold final_path. destruct (path_exists fs _).
    - apply dotdot_free_join; [now apply dotdot_free_parent | exact Hname].
    - now apply dotdot_free_join. }
  destruct (path_exists fs (final_path fs p project_root _));
    [|split; [discriminate | intros x st'' H; now injection H as _ <-]].
  destruct (is_relative_to _ project_root);
    [|split; [discriminate | discriminate]].
  split.
  - apply IH; [exact Hfinal|].
    pose proof (unvisited_incl (all_paths fs) _ _ Hst'). lia.
  - intros x st'' H. apply merge_visited in H as (_ & Hincl & _).
    intros q Hq. now apply Hincl, Hst'.
Qed.

End Termination.


(** ** Imports with options over several lines *)

Lemma matches_lazy_cls_inv (p : ascii -> bool) (c1 : cursor) (w : text)
  (c2 : cursor) :
  matches (Lazy (Cls p)) c1 w c2 -> forallb p w = true.
Proof.
  intro H. remember (Lazy (Cls p)) as r eqn:Er. revert Er.
  induction H; intro Er; try discriminate; [reflexivity|].
  injection Er as ->. apply matches_cls_inv in H.
  destruct H as (x & -> & Hx). cbn [app forallb]. rewrite Hx. now apply IHmatches2.
Qed.

(** A text that ends before the first [x] of another begins it. *)
Lemma prefix_before (x : ascii) (c : text) :
  forall a b e, a ++ x :: b = c ++ x :: e -> ~ In x c -> exists r, a = c ++ r.
Proof.
  induction c as [| y c IH]; intros a b e H Hx; [now exists a|].
  destruct a as [| z a].
  - cbn [app] in H. injection H as -> _. exfalso. apply Hx. now left.
  - cbn [app] in H. injection H as -> H.
    destruct (IH _ _ _ H) as (r & ->); [intro Hin; apply Hx; now right|].
    now exists r.
Qed.

Lemma skipn_in {A : Type} (l : list A) (k : nat) (a : A) (u : list A) :
  skipn k l = a :: u -> In a l.
Proof.
  intro H. rewrite <- (firstn_skipn k l), H. apply in_or_app. right. now left.
Qed.

Lemma package_name_head (prev : option ascii) (t : text) (x : nat * caps) :
  exec_at RE_PKG_NAME_EXTRACTOR prev t = Some x ->
  exists u, t = backslash :: u.
Proof.
  unfold exec_at, RE_PKG_NAME_EXTRACTOR. rewrite !seq_cons. cbn [seq].
  rewrite exec_Seq. unfold lit. rewrite exec_lit_text.
  destruct (startswith t (str "\usepackage")) eqn:E; [|discriminate].
  apply startswith_prefix in E. intros _. rewrite E. eexists. reflexivity.
Qed.

(** The name pattern reads no name from an import whose options hold a
    newline. *)
Lemma no_package_name (opts name : text) :
  In nl opts -> ~ In "]"%char opts -> ~ In backslash opts ->
  ~ In backslash name ->
  search RE_PKG_NAME_EXTRACTOR
    (str "\usepackage[" ++ opts ++ str "]{" ++ name ++ str "}")
  = None.
Proof.
  intros Hnl Hclose Hopts Hname. unfold search.
  set (cmd := str "\usepackage[" ++ opts ++ str "]{" ++ name ++ str "}").
  destruct (finditer RE_PKG_NAME_EXTRACTOR cmd) as [| m ms] eqn:E;
    [reflexivity|].
  exfalso.
  assert (Hm : In m (finditer RE_PKG_NAME_EXTRACTOR cmd))
    by (rewrite E; now left).
  destruct (finditer_sound _ _ _ Hm) as (n & c & _ & Hexec & _).
  assert (Hzero : m_start m = 0).
  { destruct (package_name_head _ _ _ Hexec) as (u & Hu).
    destruct (m_start m) as [| s]; [reflexivity|]. exfalso.
    unfold cmd in Hu. cbn [str list_ascii_of_string app skipn] in Hu.
    apply skipn_in in Hu. cbn [app] in Hu.
    repeat (destruct Hu as [Hu | Hu]; [discriminate|]).
    apply in_app_or in Hu as [Hu | Hu]; [now apply Hopts|].
    cbn [str list_ascii_of_string app] in Hu.
    repeat (destruct Hu as [Hu | Hu]; [discriminate|]).
    apply in_app_or in Hu as [Hu | Hu]; [now apply Hname|].
    cbn in Hu. repeat (destruct Hu as [Hu | Hu]; [discriminate|]).
    exact Hu. }
  rewrite Hzero in Hexec. cbn [skipn char_before] in Hexec.
  apply exec_at_matches in Hexec.
  destruct Hexec as (w & after & Hcmd & _ & Hmatch).
  unfold RE_PKG_NAME_EXTRACTOR in Hmatch. rewrite !seq_cons in Hmatch.
  cbn [seq] in Hmatch.
  apply matches_seq_inv in Hmatch.
  destruct Hmatch as (w1 & c1 & w2 & -> & H1 & Hmatch).
  destruct (matches_rest _ _ _ _ H1) as [E1 _]. cbn [rest] in E1.
  apply matches_lit_inv in H1. subst w1.
  unfold cmd in E1. cbn [str list_ascii_of_string app] in E1.
  injection E1 as E1.
  apply matches_seq_inv in Hmatch.
  destruct Hmatch as (w3 & c3 & w4 & -> & Hopt & Hmatch).
  destruct (matches_rest _ _ _ _ Hopt) as [E3 _].
  apply matches_seq_inv in Hmatch.
  destruct Hmatch as (w5 & c5 & w6 & -> & Hbrace & _).
  destruct (matches_rest _ _ _ _ Hbrace) as [E5 _].
  apply matches_chr_inv in Hbrace. subst w5.
  apply matches_Alt_inv in Hopt as [Hopt | Hopt].
  - apply matches_seq_inv in Hopt.
    destruct Hopt as (wa & ca & wb & -> & Ha & Hopt).
    apply matches_chr_inv in Ha. subst wa.
    apply matches_seq_inv in Hopt.
    destruct Hopt as (d & cd & we & -> & Hd & He).
    apply matches_chr_inv in He. subst we.
    apply matches_lazy_cls_inv in Hd.
    rewrite E3, E5 in E1. cbn [app] in E1.
    injection E1 as E1. rewrite <- !app_assoc in E1. cbn [app] in E1.
    symmetry in E1. apply prefix_before in E1; [|exact Hclose].
    destruct E1 as (r & ->). rewrite forallb_app in Hd.
    apply andb_prop in Hd as [Hd _]. rewrite forallb_forall in Hd.
    specialize (Hd nl Hnl). now rewrite Ascii.eqb_refl in Hd.
  - inversion Hopt; subst. rewrite E5 in E1. discriminate.
Qed.

(** X28.  An import whose options run over several lines is not
    collected: the name pattern, whose options may not hold a newline,
    reads no name from it, so for every content it is missing from the
    imports [_extract_packages] returns. *)
Theorem package_options_over_lines (opts name : text) :
  In nl opts -> ~ In "]"%char opts -> ~ In backslash opts ->
  ~ In backslash name ->
  let cmd := str "\usepackage[" ++ opts ++ str "]{" ++ name ++ str "}" in
  search RE_PKG_NAME_EXTRACTOR cmd = None
  /\ forall content, ~ In cmd (fst (_extract_packages content)).
Proof.
  intros Hnl Hclose Hopts Hname cmd.
  pose proof (no_package_name opts name Hnl Hclose Hopts Hname) as Hnone.
  fold cmd in Hnone. split; [exact Hnone|].
  intros content Hin. rewrite extract_packages_fst in Hin.
  eapply Permutation_in in Hin; [|apply sorted_by_perm].
  destruct (collect_packages_fst (finditer RE_USEPACKAGE_CMD content) [] [])
    as (_ & _ & Hkeys); [constructor | discriminate |].
  apply Hkeys in Hin as [[] | (m & _ & _ & Hn)]. now apply Hn.
Qed.

Lemma package_options_over_lines_witness :
  let cmd :=
    str "\usepackage[" ++ (str "colorlinks," ++ [nl] ++ str "  linkcolor=blue")
    ++ str "]{" ++ str "hyperref" ++ str "}" in
  (search RE_PKG_NAME_EXTRACTOR cmd = None
   /\ forall content, ~ In cmd (fst (_extract_packages content)))
  /\ _extract_packages (str "\documentclass{article}" ++ cmd) = ([], []).
Proof.
  split; [|vm_compute; reflexivity].
  apply (package_options_over_lines
           (str "colorlinks," ++ [nl] ++ str "  linkcolor=blue") (str "hyperref")).
  - vm_compute. tauto.
  - vm_compute. intuition discriminate.
  - vm_compute. intuition discriminate.
  - vm_compute. intuition discriminate.
Defined.
